(** * concurrent_sorted_list: a shallow embedding of the list engine

    The development embeds [gdul::concurrent_sorted_list] (constructor,
    [size], [insert], [try_insert], [try_pop], [compare_try_pop],
    [try_pop_internal], [try_peek_top_key], [unsafe_clear]) as programs of
    a small state-and-fault monad over an explicit node store, and proves
    properties of the histories in which every operation runs to completion
    before the next one starts.

    - Nodes live in a store indexed by address; a pointer is an optional
      address, so aliasing between the sentinel, the chain and the local
      snapshots of an operation is the aliasing of the source.
    - [mySize] is a 64-bit unsigned counter: a [Z] with its wrap-around
      written out.
    - The loops of the source ([while (current)], [while (!try_insert)],
      [for (;;)]) take fuel; the theorems state how much fuel suffices. *)

(** The development also embeds the two revisions of [heap], the binary heap
    kept next to the list, and [atomic_oword], the sixteen-byte word with
    compare-and-swap, and follows the list through three schedules in which
    a pop is overtaken between two of its atomic steps.
    [concurrent_object_pool] and [cq::concurrent_queue] are not embedded:
    memory allocation is a fresh address of the node store. *)

From Stdlib Require Import ZArith Lia Bool List Sorted.
From stdpp Require Import base list sorting.
From coqutil Require Word.LittleEndianList.

Local Open Scope Z_scope.

(** ** Outcomes and the monad of the embedding *)

Inductive outcome (A : Type) : Type :=
| Done (a : A)
| Fault        (* dereference of a null or dangling pointer *)
| OutOfFuel.   (* a loop did not finish within its fuel *)

Arguments Done {A} a.
Arguments Fault {A}.
Arguments OutOfFuel {A}.

(** ** Tagged references *)

Abbreviation addr := nat (only parsing).

(** Modelled from the spec: atomic_shared_ptr.h (shared_ptr,
    atomic_shared_ptr, versioned_raw_ptr) is not part of the sources. A
    reference is a pointer, a one-bit tag and a version; a local snapshot
    keeps the version it was loaded under, and compare-exchange succeeds iff
    pointer, tag and version of the stored reference match the expected
    snapshot. *)
Record tagged_ptr : Type := TaggedPtr {
  ptr_of : option addr;
  tag_of : bool;
  version_of : nat
}.

Definition null_ptr : tagged_ptr := TaggedPtr None false 0.

Definition set_tag (p : tagged_ptr) : tagged_ptr :=
  TaggedPtr (ptr_of p) true (version_of p).

Definition clear_tag (p : tagged_ptr) : tagged_ptr :=
  TaggedPtr (ptr_of p) false (version_of p).

Definition get_tag (p : tagged_ptr) : bool := tag_of p.

Definition opt_addr_eqb (a b : option addr) : bool :=
  match a, b with
  | Some x, Some y => Nat.eqb x y
  | None, None => true
  | _, _ => false
  end.

(** Equality of a stored reference with a versioned snapshot. *)
Definition tagged_ptr_eqb (p q : tagged_ptr) : bool :=
  opt_addr_eqb (ptr_of p) (ptr_of q)
  && Bool.eqb (tag_of p) (tag_of q)
  && Nat.eqb (version_of p) (version_of q).

(** What a slot holds after [desired] is published into it: pointer and tag
    of [desired], under the slot's next version. *)
Definition publish (slot desired : tagged_ptr) : tagged_ptr :=
  TaggedPtr (ptr_of desired) (tag_of desired) (S (version_of slot)).

(** ** The size counter: [std::atomic<size_t>] *)

Definition size_max : Z := 2 ^ 64 - 1.   (* numeric_limits<size_type>::max() *)

Definition wrap (z : Z) : Z := z mod 2 ^ 64.

Arguments wrap : simpl never.
Arguments size_max : simpl never.

(** [csldetail::tiny_less] on integral keys. *)
Definition tiny_less (a b : Z) : bool := a <? b.

(** * heap: the sequential binary heap

    [heap<T, Comparator>] keeps its pairs in a [std::vector]; an index is a
    [size_t], a [Z] with its wrap-around written out, and an access outside
    the vector faults. The loops of [bubble] and [trickle] take fuel. *)

Definition outcome_bind {A B} (m : outcome A) (k : A -> outcome B) : outcome B :=
  match m with
  | Done a => k a
  | Fault => Fault
  | OutOfFuel => OutOfFuel
  end.

Declare Scope outcome_scope.
Delimit Scope outcome_scope with outcome.
Notation "x <- y ; z" := (outcome_bind y (fun x => z))
  (at level 20, y at level 100, z at level 200, only parsing) : outcome_scope.

Module Heap.
Section Defs.

Context {T : Type}.

Local Open Scope outcome_scope.

(** [TinyLess<uint64_t>], the default comparator. *)
Definition TinyLess (a b : Z) : bool := a <? b.

(** [heap]: [myStorage] is the vector of (key, value) pairs. *)
Record heap : Type := Heap_ {
  myStorage : list (Z * T)
}.

(** [myStorage[i]] *)
Definition at_ (st : list (Z * T)) (i : Z) : outcome (Z * T) :=
  match st !! Z.to_nat i with
  | Some x => Done x
  | None => Fault
  end.

(** [std::swap(myStorage[a], myStorage[b])] *)
Definition swap (st : list (Z * T)) (a b : Z) : outcome (list (Z * T)) :=
  x <- at_ st a ;
  y <- at_ st b ;
  Done (<[Z.to_nat a := y]> (<[Z.to_nat b := x]> st)).

(** [myStorage.pop_back()] *)
Definition pop_back (st : list (Z * T)) : outcome (list (Z * T)) :=
  match st with
  | [] => Fault
  | _ => Done (take (length st - 1) st)
  end.

(** [myStorage.size()] *)
Definition storage_size (st : list (Z * T)) : Z := Z.of_nat (length st).

Definition new_heap : heap := Heap_ [].

Definition size (h : heap) : Z := storage_size (myStorage h).

(** The [while (true)] loop of [bubble]. *)
Fixpoint bubble_loop (fuel : nat) (index_ parent : Z) (st : list (Z * T))
  : outcome (list (Z * T)) :=
  match fuel with
  | O => OutOfFuel
  | S fuel' =>
    if index_ =? 0 then Done st
    else
      x <- at_ st index_ ;
      p <- at_ st parent ;
      if negb (TinyLess (fst x) (fst p)) then Done st
      else
        st' <- swap st index_ parent ;
        bubble_loop fuel' parent (wrap (parent - 1) / 2) st'
  end.

Definition bubble (fuel : nat) (index : Z) (st : list (Z * T))
  : outcome (list (Z * T)) :=
  bubble_loop fuel index (wrap (index - 1) / 2) st.

(** The [while (index_ < size)] loop of [trickle]. *)
Fixpoint trickle_loop (fuel : nat) (size index_ : Z) (st : list (Z * T))
  : outcome (list (Z * T)) :=
  match fuel with
  | O => OutOfFuel
  | S fuel' =>
    if index_ <? size then
      let desiredLeftIndex := wrap (index_ * 2 + 1) in
      let desiredRightIndex := wrap (index_ * 2 + 2) in
      let leftIndex := if desiredLeftIndex <? size then desiredLeftIndex else index_ in
      let rightIndex := if desiredRightIndex <? size then desiredRightIndex else index_ in
      l <- at_ st leftIndex ;
      r <- at_ st rightIndex ;
      t <- at_ st index_ ;
      let leftKey := fst l in
      let rightKey := fst r in
      let targetKey := fst t in
      let targetIndex := index_ in
      let '(targetIndex, targetKey) :=
        if TinyLess leftKey targetKey then (leftIndex, leftKey)
        else (targetIndex, targetKey) in
      let '(targetIndex, targetKey) :=
        if TinyLess rightKey targetKey then (rightIndex, rightKey)
        else (targetIndex, targetKey) in
      if Z.lxor targetIndex index_ =? 0 then Done st
      else
        st' <- swap st index_ targetIndex ;
        trickle_loop fuel' size targetIndex st'
    else Done st
  end.

Definition trickle (fuel : nat) (index : Z) (st : list (Z * T))
  : outcome (list (Z * T)) :=
  let size := storage_size st in
  if index =? wrap (size - 1) then Done st
  else trickle_loop fuel size index st.

(** [push]: both overloads store the pair and bubble it up. *)
Definition push (fuel : nat) (in_ : T) (key : Z) (h : heap) : outcome heap :=
  let st := myStorage h ++ [(key, in_)] in
  st' <- bubble fuel (wrap (storage_size st - 1)) st ;
  Done (Heap_ st').

(** [pop_internal]: the result is the final contents of [outValue] and
    [outKey], with the heap. *)
Definition pop_internal (fuel : nat) (h : heap) : outcome ((T * Z) * heap) :=
  top <- at_ (myStorage h) 0 ;
  let outKey := fst top in
  let outValue := snd top in
  st1 <- swap (myStorage h) 0 (wrap (storage_size (myStorage h) - 1)) ;
  st2 <- pop_back st1 ;
  st3 <- trickle fuel 0 st2 ;
  Done ((outValue, outKey), Heap_ st3).

(** [try_pop(T& outValue, KeyType& outKey)] *)
Definition try_pop (fuel : nat) (outValue : T) (outKey : Z) (h : heap)
  : outcome (bool * (T * Z) * heap) :=
  if storage_size (myStorage h) =? 0 then Done (false, (outValue, outKey), h)
  else
    r <- pop_internal fuel h ;
    Done (true, fst r, snd r).

(** [try_pop(T& out)] *)
Definition try_pop_value (fuel : nat) (out : T) (h : heap)
  : outcome (bool * T * heap) :=
  r <- try_pop fuel out 0 h ;
  Done (fst (fst r), fst (snd (fst r)), snd r).

Definition compare_try_pop (fuel : nat) (outValue : T) (expectedKey : Z) (h : heap)
  : outcome (bool * (T * Z) * heap) :=
  if storage_size (myStorage h) =? 0 then Done (false, (outValue, expectedKey), h)
  else
    top <- at_ (myStorage h) 0 ;
    if negb (fst top =? expectedKey) then Done (false, (outValue, fst top), h)
    else
      r <- pop_internal fuel h ;
      Done (true, fst r, snd r).

Definition try_peek_top_key (out : Z) (h : heap) : outcome (bool * Z) :=
  if storage_size (myStorage h) =? 0 then Done (false, out)
  else
    top <- at_ (myStorage h) 0 ;
    Done (true, fst top).

Definition clear (h : heap) : heap := Heap_ [].

(** *** What the proofs speak about *)

(** [j] is a child of [i] in the implicit tree. *)
Definition child (i j : nat) : Prop := (j = 2 * i + 1 \/ j = 2 * i + 2)%nat.

(** No pair has a key less than the key of its parent. *)
Definition heap_ordered (st : list (Z * T)) : Prop :=
  forall i j x y, child i j -> st !! i = Some x -> st !! j = Some y ->
                  TinyLess (fst y) (fst x) = false.

(** The same, as a test that runs: every index from 1 on is compared with
    its parent. *)
Definition heap_orderedb (st : list (Z * T)) : bool :=
  forallb (fun j => match st !! ((j - 1) / 2)%nat, st !! j with
                    | Some x, Some y => negb (TinyLess (fst y) (fst x))
                    | _, _ => true
                    end)
          (seq 1 (length st - 1)).

(** Heap order everywhere but between [k] and its parent, with the parent
    of [k] in order with the children of [k]: the state inside [bubble]. *)
Definition ordered_but_up (st : list (Z * T)) (k : nat) : Prop :=
  (forall i j x y, child i j -> j <> k -> st !! i = Some x -> st !! j = Some y ->
                   fst x <= fst y) /\
  (forall g j x y, child g k -> child k j -> st !! g = Some x -> st !! j = Some y ->
                   fst x <= fst y).

(** Heap order everywhere but between [k] and its children, with the parent
    of [k] in order with the children of [k]: the state inside [trickle]. *)
Definition ordered_but_down (st : list (Z * T)) (k : nat) : Prop :=
  (forall i j x y, child i j -> i <> k -> st !! i = Some x -> st !! j = Some y ->
                   fst x <= fst y) /\
  (forall g j x y, child g k -> child k j -> st !! g = Some x -> st !! j = Some y ->
                   fst x <= fst y).

(** Pushing a list of pairs, first to last. *)
Fixpoint push_all (fuel : nat) (kvs : list (Z * T)) (h : heap) : outcome heap :=
  match kvs with
  | [] => Done h
  | kv :: kvs' =>
    h' <- push fuel (snd kv) (fst kv) h ;
    push_all fuel kvs' h'
  end.

(** Calling [try_pop] [n] times; the pairs handed out by the calls that
    returned true, in order. *)
Fixpoint drain (fuel n : nat) (outValue : T) (outKey : Z) (h : heap)
  : outcome (list (Z * T) * heap) :=
  match n with
  | O => Done ([], h)
  | S n' =>
    r <- try_pop fuel outValue outKey h ;
    rest <- drain fuel n' outValue outKey (snd r) ;
    Done ((if fst (fst r) then [(snd (snd (fst r)), fst (snd (fst r)))] else [])
            ++ fst rest, snd rest)
  end.

End Defs.
End Heap.

(** * heap with a size counter: the second revision

    The second revision of [heap] keeps, next to the vector, a counter
    [std::atomic<SizeType> mySize] that [size] reads; [push] raises it after
    [bubble], [pop_internal] lowers it after [trickle], [clear] stores zero.
    [bubble] and [trickle] are those of the first revision. *)

Module SizedHeap.
Section Defs.

Context {T : Type}.

Local Open Scope outcome_scope.

Record heap : Type := Heap_ {
  myStorage : list (Z * T);
  mySize : Z
}.

Definition new_heap : heap := Heap_ [] 0.

(** [size]: [mySize.load()] *)
Definition size (h : heap) : Z := mySize h.

Definition push (fuel : nat) (in_ : T) (key : Z) (h : heap) : outcome heap :=
  let st := myStorage h ++ [(key, in_)] in
  st' <- Heap.bubble fuel (wrap (Heap.storage_size st - 1)) st ;
  Done (Heap_ st' (wrap (mySize h + 1))).

Definition pop_internal (fuel : nat) (h : heap) : outcome ((T * Z) * heap) :=
  top <- Heap.at_ (myStorage h) 0 ;
  let outKey := fst top in
  let outValue := snd top in
  st1 <- Heap.swap (myStorage h) 0 (wrap (Heap.storage_size (myStorage h) - 1)) ;
  st2 <- Heap.pop_back st1 ;
  st3 <- Heap.trickle fuel 0 st2 ;
  Done ((outValue, outKey), Heap_ st3 (wrap (mySize h - 1))).

Definition try_pop (fuel : nat) (outValue : T) (outKey : Z) (h : heap)
  : outcome (bool * (T * Z) * heap) :=
  if Heap.storage_size (myStorage h) =? 0 then Done (false, (outValue, outKey), h)
  else
    r <- pop_internal fuel h ;
    Done (true, fst r, snd r).

Definition try_pop_value (fuel : nat) (out : T) (h : heap)
  : outcome (bool * T * heap) :=
  r <- try_pop fuel out 0 h ;
  Done (fst (fst r), fst (snd (fst r)), snd r).

Definition compare_try_pop (fuel : nat) (outValue : T) (expectedKey : Z) (h : heap)
  : outcome (bool * (T * Z) * heap) :=
  if Heap.storage_size (myStorage h) =? 0 then Done (false, (outValue, expectedKey), h)
  else
    top <- Heap.at_ (myStorage h) 0 ;
    if negb (fst top =? expectedKey) then Done (false, (outValue, fst top), h)
    else
      r <- pop_internal fuel h ;
      Done (true, fst r, snd r).

Definition try_peek_top_key (out : Z) (h : heap) : outcome (bool * Z) :=
  if Heap.storage_size (myStorage h) =? 0 then Done (false, out)
  else
    top <- Heap.at_ (myStorage h) 0 ;
    Done (true, fst top).

Definition clear (h : heap) : heap := Heap_ [] 0.

(** *** Histories of calls *)

Inductive op : Type :=
| Push (in_ : T) (key : Z)
| TryPop (outValue : T) (outKey : Z)
| TryPopValue (out : T)
| CompareTryPop (outValue : T) (expectedKey : Z)
| TryPeekTopKey (out : Z)
| Clear
| Size.

(** What a call hands back: its return value and the final contents of its
    reference parameters. *)
Inductive result : Type :=
| RetVoid
| RetPop (ok : bool) (out : T * Z)
| RetPopValue (ok : bool) (out : T)
| RetPeek (ok : bool) (out : Z)
| RetSize (n : Z).

Definition exec (fuel : nat) (o : op) (h : heap) : outcome (result * heap) :=
  match o with
  | Push in_ key => h' <- push fuel in_ key h ; Done (RetVoid, h')
  | TryPop v k => r <- try_pop fuel v k h ; Done (RetPop (fst (fst r)) (snd (fst r)), snd r)
  | TryPopValue v =>
    r <- try_pop_value fuel v h ; Done (RetPopValue (fst (fst r)) (snd (fst r)), snd r)
  | CompareTryPop v k =>
    r <- compare_try_pop fuel v k h ; Done (RetPop (fst (fst r)) (snd (fst r)), snd r)
  | TryPeekTopKey k => r <- try_peek_top_key k h ; Done (RetPeek (fst r) (snd r), h)
  | Clear => Done (RetVoid, clear h)
  | Size => Done (RetSize (size h), h)
  end.

Fixpoint run (fuel : nat) (ops : list op) (h : heap)
  : outcome (list result * heap) :=
  match ops with
  | [] => Done ([], h)
  | o :: ops' =>
    r <- exec fuel o h ;
    rest <- run fuel ops' (snd r) ;
    Done (fst r :: fst rest, snd rest)
  end.

(** The number of pairs a history leaves, counted from the calls and their
    results: a push adds one, a pop that returned true takes one, a clear
    starts over. *)
Definition tally_step (n : Z) (o : op) (r : result) : Z :=
  match o, r with
  | Push _ _, _ => n + 1
  | Clear, _ => 0
  | _, RetPop true _ => n - 1
  | _, RetPopValue true _ => n - 1
  | _, _ => n
  end.

Fixpoint tally (n : Z) (ops : list op) (rs : list result) : Z :=
  match ops, rs with
  | o :: ops', r :: rs' => tally (tally_step n o r) ops' rs'
  | _, _ => n
  end.

End Defs.
End SizedHeap.

(** * atomic_oword: a sixteen-byte word with compare-and-swap

    An [oword] is the sixteen bytes [myBytes] of the union; its other
    members ([myQWords], [myDWords], [myWords]) are little-endian views of
    the same bytes. [atomic_oword] holds one [oword]; every operation goes
    through [cas_internal], the sixteen-byte compare-and-swap. The retry
    loops take fuel. *)

Module AtomicOword.

Local Open Scope outcome_scope.

Abbreviation oword := (list Init.Byte.byte) (only parsing).

(** [oword()]: all bytes zero. *)
Definition oword_zero : oword := repeat Init.Byte.x00 16.

(** [*reinterpret_cast<word_type*>(&o.myBytes[at])], read and written, for
    a [word_type] of [size] bytes. *)
Definition get_word (size : nat) (o : oword) (at_ : nat) : Z :=
  LittleEndianList.le_combine (take size (drop at_ o)).

Definition set_word (size : nat) (o : oword) (at_ : nat) (v : Z) : oword :=
  take at_ o ++ LittleEndianList.le_split size v ++ drop (at_ + size) o.

(** Equality of the two quadwords, as [oword::operator==] and the
    comparison inside the compare-and-swap have it. *)
Definition oword_eqb (a b : oword) : bool :=
  (get_word 8 a 0 =? get_word 8 b 0) && (get_word 8 a 8 =? get_word 8 b 8).

Record atomic_oword : Type := AtomicOword_ {
  myValue : oword
}.

(** [atomic_oword()] *)
Definition new_atomic_oword : atomic_oword := AtomicOword_ oword_zero.

(** [atomic_oword(const oword&)] *)
Definition atomic_oword_of (value : oword) : atomic_oword := AtomicOword_ value.

Definition my_val (a : atomic_oword) : oword := myValue a.

(** [cas_internal]: the result is the flag, the final contents of
    [expected], and the word. On a match the word takes [desired]; otherwise
    [expected] takes the contents of the word. *)
Definition cas_internal (expected desired : oword) (a : atomic_oword)
  : bool * oword * atomic_oword :=
  if oword_eqb (myValue a) expected
  then (true, expected, AtomicOword_ desired)
  else (false, myValue a, a).

Definition compare_exchange_strong (expected desired : oword) (a : atomic_oword)
  : bool * oword * atomic_oword :=
  cas_internal expected desired a.

(** [const uint8_t scaledIndex(index * sizeof(word_type))] *)
Definition scaled_index (size : nat) (index : Z) : Z :=
  (index * Z.of_nat size) mod 256.

(** The [do ... while (!cas_internal(...))] loop of
    [fetch_add_to_word_type]. *)
Fixpoint fetch_add_loop (fuel size scaledIndex : nat) (value : Z)
    (expected : oword) (a : atomic_oword) : outcome (oword * atomic_oword) :=
  match fuel with
  | O => OutOfFuel
  | S fuel' =>
    let desired := expected in
    let desired :=
      set_word size desired scaledIndex (get_word size desired scaledIndex + value) in
    let '(ok, expected, a) := cas_internal expected desired a in
    if ok : bool then Done (expected, a)
    else fetch_add_loop fuel' size scaledIndex value expected a
  end.

(** [fetch_add_to_word_type<word_type>], for a [word_type] of [size] bytes;
    the failing [assert] is a fault. *)
Definition fetch_add_to_word_type (fuel size : nat) (value atIndex : Z)
    (a : atomic_oword) : outcome (oword * atomic_oword) :=
  let index := atIndex in
  let scaledIndex := scaled_index size index in
  if negb (scaledIndex <? 16) then Fault
  else fetch_add_loop fuel size (Z.to_nat scaledIndex) value (my_val a) a.

Fixpoint fetch_sub_loop (fuel size scaledIndex : nat) (value : Z)
    (expected : oword) (a : atomic_oword) : outcome (oword * atomic_oword) :=
  match fuel with
  | O => OutOfFuel
  | S fuel' =>
    let desired := expected in
    let desired :=
      set_word size desired scaledIndex (get_word size desired scaledIndex - value) in
    let '(ok, expected, a) := cas_internal expected desired a in
    if ok : bool then Done (expected, a)
    else fetch_sub_loop fuel' size scaledIndex value expected a
  end.

Definition fetch_sub_to_word_type (fuel size : nat) (value atIndex : Z)
    (a : atomic_oword) : outcome (oword * atomic_oword) :=
  let index := atIndex in
  let scaledIndex := scaled_index size index in
  if negb (scaledIndex <? 16) then Fault
  else fetch_sub_loop fuel size (Z.to_nat scaledIndex) value (my_val a) a.

Fixpoint exchange_word_loop (fuel size scaledIndex : nat) (value : Z)
    (expected : oword) (a : atomic_oword) : outcome (oword * atomic_oword) :=
  match fuel with
  | O => OutOfFuel
  | S fuel' =>
    let desired := expected in
    let desired := set_word size desired scaledIndex value in
    let '(ok, expected, a) := cas_internal expected desired a in
    if ok : bool then Done (expected, a)
    else exchange_word_loop fuel' size scaledIndex value expected a
  end.

Definition exchange_word_type (fuel size : nat) (value atIndex : Z)
    (a : atomic_oword) : outcome (oword * atomic_oword) :=
  let index := atIndex in
  let scaledIndex := scaled_index size index in
  if negb (scaledIndex <? 16) then Fault
  else exchange_word_loop fuel size (Z.to_nat scaledIndex) value (my_val a) a.

(** The [while (!compare_exchange_strong(expected, desired));] loop of
    [exchange] and [store]. *)
Fixpoint exchange_loop (fuel : nat) (expected desired : oword) (a : atomic_oword)
  : outcome (oword * atomic_oword) :=
  match fuel with
  | O => OutOfFuel
  | S fuel' =>
    let '(ok, expected, a) := compare_exchange_strong expected desired a in
    if ok : bool then Done (expected, a)
    else exchange_loop fuel' expected desired a
  end.

Definition exchange (fuel : nat) (desired : oword) (a : atomic_oword)
  : outcome (oword * atomic_oword) :=
  exchange_loop fuel (my_val a) desired a.

Definition store (fuel : nat) (desired : oword) (a : atomic_oword)
  : outcome atomic_oword :=
  r <- exchange_loop fuel (my_val a) desired a ;
  Done (snd r).

(** [load]: a compare-and-swap of zero against zero. *)
Definition load (a : atomic_oword) : oword * atomic_oword :=
  let expectedDesired := oword_zero in
  let '(_, expectedDesired, a) := cas_internal expectedDesired expectedDesired a in
  (expectedDesired, a).

Definition exchange_qword fuel value atIndex := exchange_word_type fuel 8 value atIndex.
Definition exchange_dword fuel value atIndex := exchange_word_type fuel 4 value atIndex.
Definition exchange_word fuel value atIndex := exchange_word_type fuel 2 value atIndex.
Definition exchange_byte fuel value atIndex := exchange_word_type fuel 1 value atIndex.
Definition fetch_add_to_qword fuel value atIndex := fetch_add_to_word_type fuel 8 value atIndex.
Definition fetch_add_to_dword fuel value atIndex := fetch_add_to_word_type fuel 4 value atIndex.
Definition fetch_add_to_word fuel value atIndex := fetch_add_to_word_type fuel 2 value atIndex.
Definition fetch_add_to_byte fuel value atIndex := fetch_add_to_word_type fuel 1 value atIndex.
Definition fetch_sub_to_qword fuel value atIndex := fetch_sub_to_word_type fuel 8 value atIndex.
Definition fetch_sub_to_dword fuel value atIndex := fetch_sub_to_word_type fuel 4 value atIndex.
Definition fetch_sub_to_word fuel value atIndex := fetch_sub_to_word_type fuel 2 value atIndex.
Definition fetch_sub_to_byte fuel value atIndex := fetch_sub_to_word_type fuel 1 value atIndex.

(** An oword with every bit set. *)
Definition oword_ones : oword := repeat Init.Byte.xff 16.

(** The sizes of the four word types. *)
Definition word_size (size : nat) : Prop :=
  size = 1%nat \/ size = 2%nat \/ size = 4%nat \/ size = 8%nat.

End AtomicOword.

(** A heap with the keys 1, 3, 2 and natural numbers as values. *)
Definition heap_132 : @Heap.heap nat :=
  Heap.Heap_ [(1, 10%nat); (3, 30%nat); (2, 20%nat)].

(** Keys are integers; the comparator is [tiny_less]. *)
Abbreviation key_type := Z (only parsing).

Section List.

Context {value_type : Type}.
Variable value_default : value_type.   (* value_type() *)
Variable key_min : Z.                  (* numeric_limits<key_type>::min() *)

(** [csldetail::node] *)
Record node : Type := Node {
  myKeyValuePair : key_type * value_type;
  myNext : tagged_ptr
}.

(** [concurrent_sorted_list]: the size counter, the nodes handed out by the
    memory pool (address = index) and the front sentry. *)
Record concurrent_sorted_list : Type := List_ {
  mySize : Z;
  myMemoryPool : list node;
  myFrontSentry : addr
}.

Definition M (A : Type) : Type :=
  concurrent_sorted_list -> outcome (A * concurrent_sorted_list).

Definition ret {A} (a : A) : M A := fun s => Done (a, s).

Definition bind {A B} (m : M A) (k : A -> M B) : M B :=
  fun s =>
    match m s with
    | Done (a, s') => k a s'
    | Fault => Fault
    | OutOfFuel => OutOfFuel
    end.

Definition fault {A} : M A := fun _ => Fault.
Definition out_of_fuel {A} : M A := fun _ => OutOfFuel.

Declare Scope csl_scope.
Delimit Scope csl_scope with csl.
Notation "x <- y ; z" := (bind y (fun x => z))
  (at level 20, y at level 100, z at level 200, only parsing) : csl_scope.
Notation "y ;; z" := (bind y (fun _ => z))
  (at level 100, z at level 200, only parsing, right associativity) : csl_scope.
Local Open Scope csl_scope.

(** *** Primitive accesses *)

(** [p->]: the address a pointer refers to; null faults. *)
Definition arrow (p : option addr) : M addr :=
  match p with
  | Some a => ret a
  | None => fault
  end.

Definition get_node (a : addr) : M node :=
  fun s =>
    match myMemoryPool s !! a with
    | Some n => Done (n, s)
    | None => Fault
    end.

Definition set_node (a : addr) (n : node) : M unit :=
  fun s => Done (tt, List_ (mySize s) (<[a := n]> (myMemoryPool s)) (myFrontSentry s)).

Definition front_sentry : M addr := fun s => Done (myFrontSentry s, s).

(** Modelled from the spec: the operations of atomic_shared_ptr (4.1),
    applied to the [myNext] slot of the node at address [a]. *)
Definition load (a : addr) : M tagged_ptr :=
  n <- get_node a ; ret (myNext n).

Definition store (a : addr) (desired : tagged_ptr) : M unit :=
  n <- get_node a ;
  set_node a (Node (myKeyValuePair n) (publish (myNext n) desired)).

Definition unsafe_store (a : addr) (desired : tagged_ptr) : M unit :=
  store a desired.

Definition load_and_tag (a : addr) : M tagged_ptr :=
  n <- get_node a ;
  set_node a (Node (myKeyValuePair n) (set_tag (myNext n))) ;;
  ret (myNext n).

Definition compare_exchange_strong (a : addr) (expected desired : tagged_ptr) : M bool :=
  n <- get_node a ;
  if tagged_ptr_eqb (myNext n) expected
  then store a desired ;; ret true
  else ret false.

(** [make_shared<node>(myAllocator)]: a default-constructed node at a fresh
    address of the pool. *)
Definition make_shared : M tagged_ptr :=
  fun s =>
    Done (TaggedPtr (Some (length (myMemoryPool s))) false 0,
          List_ (mySize s)
                (myMemoryPool s ++ [Node (key_min, value_default) null_ptr])
                (myFrontSentry s)).

Definition fetch_add (d : Z) : M Z :=
  fun s => Done (mySize s, List_ (wrap (mySize s + d)) (myMemoryPool s) (myFrontSentry s)).

Definition fetch_sub (d : Z) : M Z :=
  fun s => Done (mySize s, List_ (wrap (mySize s - d)) (myMemoryPool s) (myFrontSentry s)).

Definition load_size : M Z := fun s => Done (mySize s, s).

Definition store_size (z : Z) : M unit :=
  fun s => Done (tt, List_ z (myMemoryPool s) (myFrontSentry s)).

(** *** Constructor and [size] *)

Definition new_list : concurrent_sorted_list :=
  List_ 0 [Node (key_min, value_default) null_ptr] 0%nat.

Definition size : M Z := load_size.

(** *** [try_insert] *)

(** The [while (current)] loop. [None] is the [return false] inside the
    loop; [Some (insertionPoint, current)] is the loop's exit. *)
Fixpoint try_insert_loop (fuel : nat) (entry : addr)
    (insertionPoint : addr) (current : tagged_ptr)
  : M (option (addr * tagged_ptr)) :=
  match fuel with
  | O => out_of_fuel
  | S fuel' =>
    match ptr_of current with
    | None => ret (Some (insertionPoint, current))
    | Some c =>
      en <- get_node entry ;
      cn <- get_node c ;
      if tiny_less (fst (myKeyValuePair en)) (fst (myKeyValuePair cn))
      then ret (Some (insertionPoint, current))
      else
        next <- load c ;
        if get_tag next then
          let next' := clear_tag next in
          let expected := current in
          ok <- compare_exchange_strong insertionPoint expected next' ;
          (if ok : bool then store c (set_tag null_ptr) else ret tt) ;;
          current' <- load insertionPoint ;
          if get_tag current' then ret None
          else try_insert_loop fuel' entry insertionPoint current'
        else try_insert_loop fuel' entry c next
    end
  end.

Definition try_insert (fuel : nat) (entry : tagged_ptr) : M bool :=
  e <- arrow (ptr_of entry) ;
  sentry <- front_sentry ;
  current <- load sentry ;
  r <- try_insert_loop fuel e sentry current ;
  match r with
  | None => ret false
  | Some (insertionPoint, current) =>
    let expected := current in
    unsafe_store e current ;;
    compare_exchange_strong insertionPoint expected entry
  end.

(** *** [insert] *)

(** [while (!try_insert(entry));] *)
Fixpoint insert_retry (retries fuel : nat) (entry : tagged_ptr) : M unit :=
  match retries with
  | O => out_of_fuel
  | S retries' =>
    ok <- try_insert fuel entry ;
    if ok : bool then ret tt else insert_retry retries' fuel entry
  end.

Definition insert (fuel : nat) (kv : key_type * value_type) : M unit :=
  entry <- make_shared ;
  e <- arrow (ptr_of entry) ;
  en <- get_node e ;
  set_node e (Node kv (myNext en)) ;;
  insert_retry fuel fuel entry ;;
  fetch_add 1 ;;
  ret tt.

(** *** [try_pop_internal] *)

(** The [for (;;)] loop. [inl key] is the [return false] of the key
    mismatch, with the key written to [expectedKey]; [inr head] is the
    [break]. *)
Fixpoint try_pop_loop (fuel : nat) (expectedKey : key_type) (matchKey : bool)
  : M (key_type + tagged_ptr) :=
  match fuel with
  | O => out_of_fuel
  | S fuel' =>
    sentry <- front_sentry ;
    head <- load sentry ;
    h <- arrow (ptr_of head) ;
    hn <- get_node h ;
    let key := fst (myKeyValuePair hn) in
    if matchKey && negb (expectedKey =? key)
    then ret (inl key)
    else
      splice <- load_and_tag h ;
      let mine := negb (get_tag splice) in
      let splice := clear_tag splice in
      let expected := head in
      ok <- compare_exchange_strong sentry expected splice ;
      (if ok : bool then store h (set_tag null_ptr) else ret tt) ;;
      if mine then ret (inr head)
      else try_pop_loop fuel' expectedKey matchKey
  end.

(** The result is the returned flag with the final contents of the two
    reference parameters [expectedKey] and [outValue]. *)
Definition try_pop_internal (fuel : nat) (expectedKey : key_type)
    (outValue : value_type) (matchKey : bool)
  : M (bool * (key_type * value_type)) :=
  old <- fetch_sub 1 ;
  let currentSize := wrap (old - 1) in
  let difference := wrap (size_max - currentSize) in
  let threshhold := size_max / 2 in
  if difference <? threshhold then
    fetch_add 1 ;;
    ret (false, (expectedKey, outValue))
  else
    r <- try_pop_loop fuel expectedKey matchKey ;
    match r with
    | inl key => ret (false, (key, outValue))
    | inr head =>
      h <- arrow (ptr_of head) ;
      hn <- get_node h ;
      ret (true, (fst (myKeyValuePair hn), snd (myKeyValuePair hn)))
    end.

(** [try_pop(value_type&)] *)
Definition try_pop_value (fuel : nat) (out : value_type) : M (bool * value_type) :=
  r <- try_pop_internal fuel 0 out false ;
  ret (fst r, snd (snd r)).

(** [try_pop(std::pair<key_type, value_type>&)] *)
Definition try_pop (fuel : nat) (out : key_type * value_type)
  : M (bool * (key_type * value_type)) :=
  try_pop_internal fuel (fst out) (snd out) false.

Definition compare_try_pop (fuel : nat) (out : key_type * value_type)
  : M (bool * (key_type * value_type)) :=
  try_pop_internal fuel (fst out) (snd out) true.

(** *** [try_pop_internal], cut at the tagging of the head

    To follow a pop that is overtaken by another operation between two of
    its atomic steps, the body of [try_pop_internal] is cut in two right
    after [head->myNext.load_and_tag()]; lemma [try_pop_internal_cut] shows
    that the two pieces run back to back are [try_pop_internal]. *)

(** From the admission decrement to the tagging of the head's [myNext].
    [inl r]: the call has returned [r]; [inr (head, splice)]: the locals the
    rest of the call goes on with. *)
Definition try_pop_internal_begin (expectedKey : key_type)
    (outValue : value_type) (matchKey : bool)
  : M ((bool * (key_type * value_type)) + (tagged_ptr * tagged_ptr)) :=
  old <- fetch_sub 1 ;
  let currentSize := wrap (old - 1) in
  let difference := wrap (size_max - currentSize) in
  let threshhold := size_max / 2 in
  if difference <? threshhold then
    fetch_add 1 ;;
    ret (inl (false, (expectedKey, outValue)))
  else
    sentry <- front_sentry ;
    head <- load sentry ;
    h <- arrow (ptr_of head) ;
    hn <- get_node h ;
    let key := fst (myKeyValuePair hn) in
    if matchKey && negb (expectedKey =? key)
    then ret (inl (false, (key, outValue)))
    else
      splice <- load_and_tag h ;
      ret (inr (head, splice)).

(** From the splice to the return, with the locals [head] and [splice] of
    the first piece. *)
Definition try_pop_internal_end (fuel : nat) (expectedKey : key_type)
    (outValue : value_type) (matchKey : bool) (head splice : tagged_ptr)
  : M (bool * (key_type * value_type)) :=
  sentry <- front_sentry ;
  h <- arrow (ptr_of head) ;
  let mine := negb (get_tag splice) in
  let splice := clear_tag splice in
  let expected := head in
  ok <- compare_exchange_strong sentry expected splice ;
  (if ok : bool then store h (set_tag null_ptr) else ret tt) ;;
  r <- (if mine then ret (inr head)
        else try_pop_loop fuel expectedKey matchKey) ;
  match r with
  | inl key => ret (false, (key, outValue))
  | inr head =>
    h <- arrow (ptr_of head) ;
    hn <- get_node h ;
    ret (true, (fst (myKeyValuePair hn), snd (myKeyValuePair hn)))
  end.

(** *** [try_peek_top_key] *)

Definition try_peek_top_key (out : key_type) : M (bool * key_type) :=
  sentry <- front_sentry ;
  head <- load sentry ;
  match ptr_of head with
  | None => ret (false, out)
  | Some h =>
    hn <- get_node h ;
    ret (true, fst (myKeyValuePair hn))
  end.

(** *** [unsafe_clear] *)

(** First loop: [mySize] steps along the raw [myNext] pointers, each
    pushed to [arr]. *)
Fixpoint unsafe_clear_collect (n : nat) (prev : option addr)
    (arr : list (option addr)) : M (list (option addr)) :=
  match n with
  | O => ret arr
  | S n' =>
    p <- arrow prev ;
    next <- load p ;
    unsafe_clear_collect n' (ptr_of next) (arr ++ [ptr_of next])
  end.

(** Second loop, over [arr] in reverse. *)
Fixpoint unsafe_clear_reset (its : list (option addr)) : M unit :=
  match its with
  | [] => ret tt
  | it :: its' =>
    p <- arrow it ;
    unsafe_store p null_ptr ;;
    unsafe_clear_reset its'
  end.

Definition unsafe_clear : M unit :=
  n <- load_size ;
  sentry <- front_sentry ;
  arr <- unsafe_clear_collect (Z.to_nat n) (Some sentry) [] ;
  unsafe_clear_reset (rev arr) ;;
  store_size 0.

(** ** Observing the chain *)

(** Following [myNext] from [p]: the addresses met, each with the pair its
    node carries, until null (or until [fuel] nodes were visited). *)
Fixpoint walk (fuel : nat) (pool : list node) (p : option addr)
  : list (addr * (key_type * value_type)) :=
  match fuel, p with
  | S fuel', Some a =>
    match pool !! a with
    | Some n => (a, myKeyValuePair n) :: walk fuel' pool (ptr_of (myNext n))
    | None => []
    end
  | _, _ => []
  end.

(** The chain reachable from the sentinel (the sentinel itself excluded). *)
Definition chain (s : concurrent_sorted_list) : list (addr * (key_type * value_type)) :=
  match myMemoryPool s !! myFrontSentry s with
  | Some sn => walk (length (myMemoryPool s)) (myMemoryPool s) (ptr_of (myNext sn))
  | None => []
  end.

Definition chain_pairs (s : concurrent_sorted_list) : list (key_type * value_type) :=
  map snd (chain s).

Definition chain_keys (s : concurrent_sorted_list) : list key_type :=
  map fst (chain_pairs s).

(** Non-decreasing under the strict comparator: no key is less than its
    predecessor. *)
Definition non_decreasing (ks : list key_type) : Prop :=
  Sorted (fun a b => tiny_less b a = false) ks.

(** The admission test of [try_pop_internal] on a counter value [sz]:
    [true] when the decrement is kept, [false] when it is taken for a wrap. *)
Definition admitted (sz : Z) : bool :=
  negb (wrap (size_max - wrap (sz - 1)) <? size_max / 2).

(** ** Histories of completed operations *)

Inductive op : Type :=
| Insert (kv : key_type * value_type)
| TryPopValue (out : value_type)
| TryPop (out : key_type * value_type)
| CompareTryPop (out : key_type * value_type)
| TryPeekTopKey (out : key_type)
| UnsafeClear
| Size.

(** What an operation hands back: its return value and the final contents
    of its reference parameter. *)
Inductive result : Type :=
| RetVoid
| RetPopValue (ok : bool) (out : value_type)
| RetPop (ok : bool) (out : key_type * value_type)
| RetPeek (ok : bool) (out : key_type)
| RetSize (n : Z).

Definition exec (fuel : nat) (o : op) : M result :=
  match o with
  | Insert kv => insert fuel kv ;; ret RetVoid
  | TryPopValue out => r <- try_pop_value fuel out ; ret (RetPopValue (fst r) (snd r))
  | TryPop out => r <- try_pop fuel out ; ret (RetPop (fst r) (snd r))
  | CompareTryPop out => r <- compare_try_pop fuel out ; ret (RetPop (fst r) (snd r))
  | TryPeekTopKey out => r <- try_peek_top_key out ; ret (RetPeek (fst r) (snd r))
  | UnsafeClear => unsafe_clear ;; ret RetVoid
  | Size => n <- size ; ret (RetSize n)
  end.

Fixpoint run (fuel : nat) (ops : list op) : M (list result) :=
  match ops with
  | [] => ret []
  | o :: ops' =>
    r <- exec fuel o ;
    rs <- run fuel ops' ;
    ret (r :: rs)
  end.

(** The states a list can be in between operations: the freshly
    constructed list, and what a completed operation leaves. *)
Inductive reachable : concurrent_sorted_list -> Prop :=
| reachable_new : reachable new_list
| reachable_exec s fuel o r s' :
    reachable s -> exec fuel o s = Done (r, s') -> reachable s'.

(** Counting, for the conservation property. *)
Definition successful_insert (o : op) : bool :=
  match o with Insert _ => true | _ => false end.

Definition successful_pop (r : result) : bool :=
  match r with
  | RetPopValue ok _ => ok
  | RetPop ok _ => ok
  | _ => false
  end.

Definition successful_inserts (ops : list op) : Z :=
  Z.of_nat (length (List.filter successful_insert ops)).

Definition successful_pops (rs : list result) : Z :=
  Z.of_nat (length (List.filter successful_pop rs)).

(** Keys handed back by the successful [try_pop(pair&)] calls of a history. *)
Fixpoint popped_keys (rs : list result) : list key_type :=
  match rs with
  | [] => []
  | RetPop true out :: rs' => fst out :: popped_keys rs'
  | _ :: rs' => popped_keys rs'
  end.

(** ** The invariant of the reachable states *)

(** [lseg pool p l q]: following [myNext] from [p] visits exactly the
    addresses of [l], each holding the pair listed with it and an untagged
    [myNext], and ends at [q]. *)
Fixpoint lseg (pool : list node) (p : option addr)
    (l : list (addr * (key_type * value_type))) (q : option addr) : Prop :=
  match l with
  | [] => p = q
  | (a, kv) :: l' =>
    p = Some a /\
    exists nx, pool !! a = Some (Node kv nx) /\ tag_of nx = false /\
               lseg pool (ptr_of nx) l' q
  end.

(** [well_formed s l]: the sentinel heads a null-terminated chain [l] of
    distinct nodes with untagged links and sorted keys, and the size counter
    does not exceed the length of the chain. *)
Record well_formed (s : concurrent_sorted_list)
    (l : list (addr * (key_type * value_type))) : Prop := WellFormed {
  wf_path : exists skv,
      lseg (myMemoryPool s) (Some (myFrontSentry s))
           ((myFrontSentry s, skv) :: l) None;
  wf_nodup : NoDup (myFrontSentry s :: fmap fst l);
  wf_sorted : StronglySorted Z.le (fmap (fun x => fst (snd x)) l);
  wf_size : 0 <= mySize s <= Z.of_nat (length l) /\ mySize s <= size_max;
  wf_length : (length l < length (myMemoryPool s))%nat
}.

(** ** Auxiliary definitions of the proofs *)

(** The pool after a pop has tagged and spliced out the head [h]. *)
Definition pool_after_pop (pool : list node) (sen h : addr) (sn hn : node)
  : list node :=
  <[h := Node (myKeyValuePair hn)
              (publish (set_tag (myNext hn)) (set_tag null_ptr))]>
    (<[sen := Node (myKeyValuePair sn)
                   (publish (myNext sn) (clear_tag (myNext hn)))]>
       (<[h := Node (myKeyValuePair hn) (set_tag (myNext hn))]> pool)).

(** The pool after an insert has spliced out the head [h], which a pop had
    tagged, on its walk. *)
Definition pool_after_help (pool : list node) (sen h : addr) (sn hn : node)
  : list node :=
  <[h := Node (myKeyValuePair hn) (publish (myNext hn) (set_tag null_ptr))]>
    (<[sen := Node (myKeyValuePair sn)
                   (publish (myNext sn) (clear_tag (myNext hn)))]> pool).

(** Where [try_insert] puts a pair, told on the pairs of the chain: behind
    the last pair whose key is not greater. *)
Fixpoint place (kv : key_type * value_type) (l : list (key_type * value_type))
  : list (key_type * value_type) :=
  match l with
  | [] => [kv]
  | x :: l' =>
    if tiny_less (fst kv) (fst x) then kv :: x :: l' else x :: place kv l'
  end.

(** Where the key [k] belongs in front of a chain: before the first node
    (if any) whose key is greater. *)
Definition stops_at (k : key_type) (lb : list (addr * (key_type * value_type))) : Prop :=
  match lb with
  | [] => True
  | x :: _ => k < fst (snd x)
  end.

(** [done_le m m']: whatever [m] returns, [m'] returns too. Used to compare
    runs of a loop under different amounts of fuel. *)
Definition done_le {A} (m m' : M A) : Prop :=
  forall s x, m s = Done x -> m' s = Done x.

(** Operations other than [compare_try_pop] and [unsafe_clear]. *)
Definition plain_op (o : op) : bool :=
  match o with
  | CompareTryPop _ | UnsafeClear => false
  | _ => true
  end.

(** The list that [insert kv] leaves when called on a fresh list, with the
    size counter set to [sz] ([sz = 1] right after the insert). *)
Definition one_node_list (sz : Z) (kv : key_type * value_type)
  : concurrent_sorted_list :=
  List_ sz
        [Node (key_min, value_default) (TaggedPtr (Some 1%nat) false 1);
         Node kv (TaggedPtr None false 1)]
        0%nat.

(** The list that [insert kv1] and then [insert kv2], with the key of [kv1]
    not above that of [kv2], leave when called on a fresh list. *)
Definition two_node_list (kv1 kv2 : key_type * value_type)
  : concurrent_sorted_list :=
  List_ 2
        [Node (key_min, value_default) (TaggedPtr (Some 1%nat) false 1);
         Node kv1 (TaggedPtr (Some 2%nat) false 2);
         Node kv2 (TaggedPtr None false 1)]
        0%nat.

(** One step of symbolic execution: unfold the monad and the primitive
    accesses, leaving lookups in the pool to be rewritten. *)
Ltac mstep :=
  cbv beta iota zeta delta
    [bind ret fault out_of_fuel arrow get_node set_node front_sentry make_shared
     load store unsafe_store load_and_tag compare_exchange_strong
     fetch_add fetch_sub load_size store_size get_tag
     mySize myMemoryPool myFrontSentry];
  cbn [ptr_of tag_of version_of myNext myKeyValuePair].

(** ** Basic facts *)

Lemma tagged_ptr_eqb_refl (p : tagged_ptr) : tagged_ptr_eqb p p = true.
Proof.
  destruct p as [[a|] t v]; unfold tagged_ptr_eqb; simpl;
    rewrite ?Nat.eqb_refl, Bool.eqb_reflx; reflexivity.
Qed.

Lemma wrap_small (z : Z) : 0 <= z <= size_max -> wrap z = z.
Proof. unfold wrap, size_max. intros H. apply Z.mod_small. lia. Qed.

Lemma wrap_range (z : Z) : 0 <= wrap z <= size_max.
Proof.
  unfold wrap, size_max.
  pose proof (Z.mod_pos_bound z (2 ^ 64) ltac:(lia)). lia.
Qed.

Lemma wrap_succ_le (z : Z) : 0 <= z -> wrap (z + 1) <= z + 1.
Proof.
  intros H. unfold wrap. apply Z.mod_le; lia.
Qed.

Lemma admitted_spec (sz : Z) :
  0 <= sz <= size_max -> admitted sz = true <-> 1 <= sz <= 2 ^ 63 + 1.
Proof.
  intros Hsz. unfold admitted. rewrite negb_true_iff, Z.ltb_ge.
  destruct (Z.eq_dec sz 0) as [->|Hne].
  - split; [|lia]. intros H. exfalso. vm_compute in H. apply H. reflexivity.
  - rewrite (wrap_small (sz - 1)) by lia.
    rewrite wrap_small by lia.
    unfold size_max in *.
    change ((2 ^ 64 - 1) / 2) with (2 ^ 63 - 1).
    change (2 ^ 64) with (2 * 2 ^ 63) in *. lia.
Qed.

Lemma admitted_zero : admitted 0 = false.
Proof. reflexivity. Qed.

Lemma restore_after_wrap (sz : Z) :
  0 <= sz <= size_max -> wrap (wrap (sz - 1) + 1) = sz.
Proof.
  intros H. unfold wrap, size_max in *.
  rewrite Zplus_mod_idemp_l. replace (sz - 1 + 1) with sz by lia.
  apply Z.mod_small. lia.
Qed.

Lemma lseg_frame pool p l q a n :
  lseg pool p l q -> a ∉ fmap fst l -> lseg (<[a := n]> pool) p l q.
Proof.
  revert p. induction l as [|[b kv] l IH]; intros p; simpl; [done|].
  intros (-> & nx & Hb & Ht & Hl) Hnotin.
  apply not_elem_of_cons in Hnotin as [Hne Hnotin].
  split; [done|]. exists nx. split; [|auto].
  rewrite list_lookup_insert_ne; done.
Qed.

Lemma lseg_grow pool p l q n :
  lseg pool p l q -> lseg (pool ++ [n]) p l q.
Proof.
  revert p. induction l as [|[b kv] l IH]; intros p; simpl; [done|].
  intros (-> & nx & Hb & Ht & Hl).
  split; [done|]. exists nx. split; [|auto].
  rewrite lookup_app_l; [done|]. eapply lookup_lt_Some; eauto.
Qed.

Lemma lseg_app pool p l1 l2 q :
  lseg pool p (l1 ++ l2) q <->
  exists m, lseg pool p l1 m /\ lseg pool m l2 q.
Proof.
  revert p. induction l1 as [|[b kv] l1 IH]; intros p; simpl.
  - split; [intros H; exists p; done | intros (m & -> & H); done].
  - split.
    + intros (-> & nx & Hb & Ht & Hl). apply IH in Hl as (m & H1 & H2).
      exists m. split; [|done]. split; [done|]. exists nx. done.
    + intros (m & (-> & nx & Hb & Ht & Hl) & H2).
      split; [done|]. exists nx. split; [done|]. split; [done|].
      apply IH. exists m. done.
Qed.

Lemma walk_lseg pool p l fuel :
  lseg pool p l None -> (length l <= fuel)%nat -> walk fuel pool p = l.
Proof.
  revert p fuel. induction l as [|[b kv] l IH]; intros p fuel; simpl.
  - intros ->. destruct fuel; reflexivity.
  - intros (-> & nx & Hb & Ht & Hl) Hlen.
    destruct fuel as [|fuel]; [lia|]. simpl. rewrite Hb. simpl.
    f_equal. apply IH; [done|lia].
Qed.

Lemma chain_well_formed s l : well_formed s l -> chain s = l.
Proof.
  intros [[skv (_ & nx & Hs & _ & Hl)] _ _ _ Hlen].
  unfold chain. rewrite Hs. simpl. apply walk_lseg; [done|lia].
Qed.

(** ** [try_pop_internal], step by step *)

Lemma try_pop_loop_S fuel k m :
  try_pop_loop (S fuel) k m =
  (sentry <- front_sentry ;
   head <- load sentry ;
   h <- arrow (ptr_of head) ;
   hn <- get_node h ;
   let key := fst (myKeyValuePair hn) in
   if m && negb (k =? key)
   then ret (inl key)
   else
     splice <- load_and_tag h ;
     let mine := negb (get_tag splice) in
     let splice := clear_tag splice in
     let expected := head in
     ok <- compare_exchange_strong sentry expected splice ;
     (if ok : bool then store h (set_tag null_ptr) else ret tt) ;;
     if mine then ret (inr head)
     else try_pop_loop fuel k m).
Proof. reflexivity. Qed.

Lemma try_pop_internal_rejected fuel k v m s :
  0 <= mySize s <= size_max -> admitted (mySize s) = false ->
  try_pop_internal fuel k v m s = Done ((false, (k, v)), s).
Proof.
  intros Hsz Hadm. destruct s as [sz pool sen]. simpl in *.
  unfold admitted in Hadm. apply negb_false_iff in Hadm.
  unfold try_pop_internal. mstep. rewrite Hadm. mstep.
  rewrite restore_after_wrap by done. reflexivity.
Qed.

Lemma try_pop_loop_mismatch fuel k sz pool sen sn h hn :
  pool !! sen = Some sn -> ptr_of (myNext sn) = Some h ->
  pool !! h = Some hn -> k <> fst (myKeyValuePair hn) ->
  try_pop_loop (S fuel) k true (List_ sz pool sen)
  = Done (inl (fst (myKeyValuePair hn)), List_ sz pool sen).
Proof.
  intros Hs Hp Hh Hne. rewrite try_pop_loop_S. mstep.
  rewrite Hs. mstep. rewrite Hp. mstep. rewrite Hh. mstep.
  apply Z.eqb_neq in Hne. rewrite Hne. reflexivity.
Qed.

Lemma try_pop_loop_takes_head fuel k m sz pool sen sn h hn :
  pool !! sen = Some sn -> ptr_of (myNext sn) = Some h ->
  pool !! h = Some hn -> h <> sen -> tag_of (myNext hn) = false ->
  m && negb (k =? fst (myKeyValuePair hn)) = false ->
  try_pop_loop (S fuel) k m (List_ sz pool sen)
  = Done (inr (myNext sn), List_ sz (pool_after_pop pool sen h sn hn) sen).
Proof.
  intros Hs Hp Hh Hne Htag Hm.
  pose proof (lookup_lt_Some _ _ _ Hs) as Hlts.
  pose proof (lookup_lt_Some _ _ _ Hh) as Hlth.
  rewrite try_pop_loop_S. mstep.
  rewrite Hs. mstep. rewrite Hp. mstep. rewrite Hh. mstep. rewrite Hm.
  mstep. rewrite Hh. mstep.
  rewrite list_lookup_insert_ne by done. rewrite Hs. mstep.
  rewrite tagged_ptr_eqb_refl. mstep.
  rewrite list_lookup_insert_ne by done. rewrite Hs. mstep.
  rewrite list_lookup_insert_ne by done.
  rewrite list_lookup_insert_eq by done. mstep.
  rewrite Htag. reflexivity.
Qed.

Lemma pool_after_pop_length pool sen h sn hn :
  length (pool_after_pop pool sen h sn hn) = length pool.
Proof. unfold pool_after_pop. rewrite !length_insert. reflexivity. Qed.

Lemma pool_after_pop_sentry pool sen h sn hn :
  pool !! sen = Some sn -> h <> sen ->
  pool_after_pop pool sen h sn hn !! sen
  = Some (Node (myKeyValuePair sn) (publish (myNext sn) (clear_tag (myNext hn)))).
Proof.
  intros Hs Hne. unfold pool_after_pop.
  rewrite list_lookup_insert_ne by done.
  apply list_lookup_insert_eq. rewrite length_insert.
  eapply lookup_lt_Some; eauto.
Qed.

Lemma lseg_pool_after_pop pool sen h sn hn p l q :
  lseg pool p l q -> h ∉ fmap fst l -> sen ∉ fmap fst l ->
  lseg (pool_after_pop pool sen h sn hn) p l q.
Proof.
  intros Hl Hh Hs. unfold pool_after_pop.
  repeat apply lseg_frame; done.
Qed.

(** A pop that passes admission on a well-formed list, and does not stop at
    a key mismatch, removes the head and hands out its pair. *)
Lemma try_pop_internal_takes_head fuel k v m s h kv l :
  well_formed s ((h, kv) :: l) -> admitted (mySize s) = true ->
  m && negb (k =? fst kv) = false ->
  exists s',
    try_pop_internal (S fuel) k v m s = Done ((true, kv), s') /\
    well_formed s' l /\ mySize s' = mySize s - 1 /\
    myFrontSentry s' = myFrontSentry s.
Proof.
  intros [[skv Hpath] Hnd Hsort [Hsz Hmax] Hlen] Hadm Hm.
  destruct s as [sz pool sen]. simpl in *.
  destruct Hpath as (_ & nx & Hs & Hst & Hp & hx & Hh & Hht & Hl).
  apply admitted_spec in Hadm as Hadm'; [|lia].
  apply NoDup_cons in Hnd as [Hsen Hnd].
  apply NoDup_cons in Hnd as [Hhl Hnd].
  apply not_elem_of_cons in Hsen as [Hne Hsen].
  unfold admitted in Hadm. apply negb_true_iff in Hadm.
  exists (List_ (sz - 1)
                (pool_after_pop pool sen h (Node skv nx) (Node kv hx)) sen).
  split.
  - unfold try_pop_internal. mstep. rewrite Hadm.
    rewrite (try_pop_loop_takes_head fuel k m _ pool sen (Node skv nx) h (Node kv hx))
      by (simpl; auto).
    mstep. cbn [myNext]. rewrite Hp. mstep.
    unfold pool_after_pop at 1.
    rewrite list_lookup_insert_eq
      by (rewrite !length_insert; eapply lookup_lt_Some; eauto).
    mstep. simpl. rewrite wrap_small by lia. destruct kv; reflexivity.
  - split; [|done]. constructor; simpl.
    + exists skv. split; [done|].
      eexists. split; [apply pool_after_pop_sentry; done|].
      split; [done|]. simpl. apply lseg_pool_after_pop; done.
    + apply NoDup_cons. done.
    + inversion Hsort; done.
    + lia.
    + rewrite pool_after_pop_length. lia.
Qed.

Lemma try_pop_internal_mismatch fuel k v sz pool sen sn h hn :
  pool !! sen = Some sn -> ptr_of (myNext sn) = Some h ->
  pool !! h = Some hn -> k <> fst (myKeyValuePair hn) ->
  admitted sz = true ->
  try_pop_internal (S fuel) k v true (List_ sz pool sen)
  = Done ((false, (fst (myKeyValuePair hn), v)), List_ (wrap (sz - 1)) pool sen).
Proof.
  intros Hs Hp Hh Hne Hadm.
  unfold admitted in Hadm. apply negb_true_iff in Hadm.
  unfold try_pop_internal. mstep. rewrite Hadm.
  rewrite (try_pop_loop_mismatch fuel k _ pool sen sn h hn) by done.
  reflexivity.
Qed.

(** ** [try_insert], step by step *)

Lemma try_insert_loop_S fuel entry insertionPoint current :
  try_insert_loop (S fuel) entry insertionPoint current =
  match ptr_of current with
  | None => ret (Some (insertionPoint, current))
  | Some c =>
    en <- get_node entry ;
    cn <- get_node c ;
    if tiny_less (fst (myKeyValuePair en)) (fst (myKeyValuePair cn))
    then ret (Some (insertionPoint, current))
    else
      next <- load c ;
      if get_tag next then
        let next' := clear_tag next in
        let expected := current in
        ok <- compare_exchange_strong insertionPoint expected next' ;
        (if ok : bool then store c (set_tag null_ptr) else ret tt) ;;
        current' <- load insertionPoint ;
        if get_tag current' then ret None
        else try_insert_loop fuel entry insertionPoint current'
      else try_insert_loop fuel entry c next
  end.
Proof. reflexivity. Qed.

(** On a chain with untagged links the loop only walks: it leaves the pool
    as it is and stops at the first node with a greater key, or at the end. *)
Lemma try_insert_loop_walks sz pool sen e en :
  pool !! e = Some en ->
  forall lb0 ip ipkv cur,
    pool !! ip = Some (Node ipkv cur) -> tag_of cur = false ->
    lseg pool (ptr_of cur) lb0 None ->
    exists la lb ip' ipkv' cur' pre,
      lb0 = la ++ lb /\
      Forall (fun x => fst (snd x) <= fst (myKeyValuePair en)) la /\
      stops_at (fst (myKeyValuePair en)) lb /\
      pool !! ip' = Some (Node ipkv' cur') /\ tag_of cur' = false /\
      lseg pool (ptr_of cur') lb None /\
      (ip, ipkv) :: la = pre ++ [(ip', ipkv')] /\
      forall fuel, (length la < fuel)%nat ->
        try_insert_loop fuel e ip cur (List_ sz pool sen)
        = Done (Some (ip', cur'), List_ sz pool sen).
Proof.
  intros He. induction lb0 as [|[c ckv] rest IH]; intros ip ipkv cur Hip Htag Hl.
  - simpl in Hl. exists [], [], ip, ipkv, cur, [].
    repeat split; simpl; auto.
    intros [|fuel] Hf; [simpl in Hf; lia|].
    rewrite try_insert_loop_S, Hl. reflexivity.
  - simpl in Hl. destruct Hl as (Hc & cnx & Hcn & Hct & Hrest).
    destruct (tiny_less (fst (myKeyValuePair en)) (fst ckv)) eqn:Hless.
    + exists [], ((c, ckv) :: rest), ip, ipkv, cur, [].
      repeat split; simpl; auto.
      * unfold tiny_less in Hless. apply Z.ltb_lt in Hless. done.
      * exists cnx. done.
      * intros [|fuel] Hf; [simpl in Hf; lia|].
        rewrite try_insert_loop_S, Hc. mstep. rewrite He. mstep.
        rewrite Hcn. mstep. cbn [myKeyValuePair]. rewrite Hless. reflexivity.
    + destruct (IH c ckv cnx Hcn Hct Hrest)
        as (la & lb & ip' & ipkv' & cur' & pre & -> & Hle & Hstop & Hip' & Ht' & Hl' & Hpre & Hrun).
      exists ((c, ckv) :: la), lb, ip', ipkv', cur', ((ip, ipkv) :: pre).
      repeat split; auto.
      * constructor; [|done]. simpl.
        unfold tiny_less in Hless. apply Z.ltb_ge in Hless. done.
      * simpl. rewrite Hpre. reflexivity.
      * intros [|fuel] Hf; [simpl in Hf; lia|].
        rewrite try_insert_loop_S, Hc. mstep. rewrite He. mstep.
        rewrite Hcn. mstep. cbn [myKeyValuePair]. rewrite Hless.
        mstep. rewrite Hcn. mstep. cbn [myNext]. rewrite Hct.
        apply Hrun. simpl in Hf. lia.
Qed.

Lemma lseg_bound pool p l q a :
  lseg pool p l q -> a ∈ fmap fst l -> (a < length pool)%nat.
Proof.
  revert p. induction l as [|[b kv] l IH]; intros p; simpl.
  - intros _ H. inversion H.
  - intros (-> & nx & Hb & Ht & Hl) Hin.
    apply elem_of_cons in Hin as [->|Hin].
    + eapply lookup_lt_Some; eauto.
    + eauto.
Qed.

Lemma sorted_insert_keys (ka kb : list Z) (k : Z) :
  StronglySorted Z.le (ka ++ kb) ->
  Forall (fun x => x <= k) ka ->
  match kb with [] => True | x :: _ => k < x end ->
  StronglySorted Z.le (ka ++ k :: kb) /\ Forall (fun x => k < x) kb.
Proof.
  intros Hs Hle Hstop.
  assert (Hgt : Forall (fun x => k < x) kb).
  { destruct kb as [|x kb]; [constructor|].
    assert (Hsb : StronglySorted Z.le (x :: kb)).
    { clear -Hs. induction ka; simpl in Hs; [done|]. inversion Hs; auto. }
    inversion Hsb as [|? ? _ Hall]; subst. constructor; [done|].
    eapply Forall_impl; [exact Hall|]. simpl. intros; lia. }
  split; [|done].
  induction ka as [|a ka IH]; simpl in *.
  - constructor; [done|]. eapply Forall_impl; [exact Hgt|]. simpl. intros; lia.
  - inversion Hs as [|? ? Hs' Hall]; subst. inversion Hle; subst.
    constructor; [auto|].
    apply Forall_app in Hall as [Ha Hb].
    apply Forall_app. split; [done|]. constructor; [done|done].
Qed.

(** [try_insert] on a chain with untagged links: the walk finds the place,
    the two writes link the entry in, and the CAS succeeds. *)
Lemma try_insert_links sz pool sen e ekv enx skv snx l :
  pool !! e = Some (Node ekv enx) ->
  pool !! sen = Some (Node skv snx) -> tag_of snx = false ->
  lseg pool (ptr_of snx) l None ->
  NoDup (sen :: fmap fst l) -> e ∉ sen :: fmap fst l ->
  exists la lb pool',
    l = la ++ lb /\
    Forall (fun x => fst (snd x) <= fst ekv) la /\
    stops_at (fst ekv) lb /\
    length pool' = length pool /\
    lseg pool' (Some sen) ((sen, skv) :: la ++ (e, ekv) :: lb) None /\
    forall fuel, (length l < fuel)%nat ->
      try_insert fuel (TaggedPtr (Some e) false 0) (List_ sz pool sen)
      = Done (true, List_ sz pool' sen).
Proof.
  intros He Hs Hst Hl Hnd Hfresh.
  destruct (try_insert_loop_walks sz pool sen e _ He l sen skv snx Hs Hst Hl)
    as (la & lb & ip & ipkv & cur & pre & -> & Hle & Hstop & Hip & Hct & Hlb & Hpre & Hrun).
  cbn [myKeyValuePair] in *.
  set (pool1 := <[e := Node ekv (publish enx cur)]> pool).
  set (pool2 := <[ip := Node ipkv (publish cur (TaggedPtr (Some e) false 0))]> pool1).
  assert (Hfull : (sen, skv) :: la ++ lb = pre ++ (ip, ipkv) :: lb).
  { change ((sen, skv) :: la ++ lb) with (((sen, skv) :: la) ++ lb).
    rewrite Hpre, <- app_assoc. reflexivity. }
  assert (Haddrs : sen :: fmap fst (la ++ lb) = fmap fst pre ++ ip :: fmap fst lb).
  { change (sen :: fmap fst (la ++ lb)) with (fmap fst ((sen, skv) :: la ++ lb)).
    rewrite Hfull, fmap_app. reflexivity. }
  rewrite Haddrs in Hnd, Hfresh.
  apply NoDup_app in Hnd as (Hndpre & Hsep & Hndb).
  apply NoDup_cons in Hndb as [Hipb Hndb].
  assert (Hippre : ip ∉ fmap fst pre).
  { intros Hin. apply (Hsep _ Hin). left. }
  assert (Hepre : e ∉ fmap fst pre).
  { intros Hin. apply Hfresh. apply elem_of_app. left. done. }
  assert (Heip : e <> ip).
  { intros ->. apply Hfresh. apply elem_of_app. right. left. }
  assert (Heb : e ∉ fmap fst lb).
  { intros Hin. apply Hfresh. apply elem_of_app. right. right. done. }
  pose proof (lookup_lt_Some _ _ _ He) as Helt.
  pose proof (lookup_lt_Some _ _ _ Hip) as Hiplt.
  exists la, lb, pool2. split_and!; auto.
  - unfold pool2, pool1. rewrite !length_insert. reflexivity.
  - assert (Horig : lseg pool (Some sen) ((sen, skv) :: la ++ lb) None).
    { simpl. split; [done|]. exists snx. done. }
    rewrite Hfull in Horig. apply lseg_app in Horig as (m & Hm1 & Hm2).
    change ((sen, skv) :: la ++ (e, ekv) :: lb)
      with (((sen, skv) :: la) ++ (e, ekv) :: lb).
    rewrite Hpre, <- app_assoc. apply lseg_app. exists m. split.
    + unfold pool2, pool1. repeat apply lseg_frame; done.
    + simpl in Hm2. destruct Hm2 as (-> & nx & _ & _ & _).
      simpl. split; [done|]. eexists. split.
      { unfold pool2. apply list_lookup_insert_eq.
        unfold pool1. rewrite length_insert. done. }
      split; [done|]. simpl. split; [done|]. eexists. split.
      { unfold pool2, pool1. rewrite list_lookup_insert_ne by done.
        apply list_lookup_insert_eq. done. }
      split; [done|]. simpl.
      unfold pool2, pool1. repeat apply lseg_frame; done.
  - intros fuel Hfuel.
    unfold try_insert. mstep. rewrite Hs. mstep. cbn [myNext].
    rewrite Hrun by (rewrite length_app in Hfuel; lia).
    mstep. rewrite He. mstep.
    rewrite list_lookup_insert_ne by done. rewrite Hip. mstep.
    cbn [myNext myKeyValuePair]. rewrite tagged_ptr_eqb_refl. mstep.
    rewrite list_lookup_insert_ne by done. rewrite Hip. mstep.
    reflexivity.
Qed.

(** ** [insert] on a well-formed list *)

Lemma insert_well_formed fuel kv s l :
  well_formed s l -> (length l < fuel)%nat ->
  exists s' la lb,
    insert fuel kv s = Done (tt, s') /\
    l = la ++ lb /\
    Forall (fun x => fst (snd x) <= fst kv) la /\
    Forall (fun x => fst kv < fst (snd x)) lb /\
    well_formed s' (la ++ (length (myMemoryPool s), kv) :: lb) /\
    mySize s' = wrap (mySize s + 1) /\
    myFrontSentry s' = myFrontSentry s.
Proof.
  intros [[skv Hpath] Hnd Hsort [Hsz Hmax] Hlen] Hfuel.
  destruct s as [sz pool sen]. simpl in *.
  destruct Hpath as (_ & snx & Hs & Hst & Hl).
  set (e := length pool).
  set (pool0 := pool ++ [Node (key_min, value_default) null_ptr]).
  set (pool1 := <[e := Node kv null_ptr]> pool0).
  pose proof (lookup_lt_Some _ _ _ Hs) as Hslt.
  assert (Hfresh : e ∉ sen :: fmap fst l).
  { intros Hin. apply elem_of_cons in Hin as [Heq|Hin]; [unfold e in Heq; lia|].
    pose proof (lseg_bound _ _ _ _ _ Hl Hin). unfold e in *. lia. }
  assert (He0 : pool0 !! e = Some (Node (key_min, value_default) null_ptr)).
  { unfold pool0, e. apply list_lookup_middle. reflexivity. }
  assert (He : pool1 !! e = Some (Node kv null_ptr)).
  { unfold pool1. apply list_lookup_insert_eq. eapply lookup_lt_Some; eauto. }
  assert (Hs1 : pool1 !! sen = Some (Node skv snx)).
  { unfold pool1, pool0. rewrite list_lookup_insert_ne by (unfold e; lia).
    rewrite lookup_app_l by done. done. }
  assert (Hl1 : lseg pool1 (ptr_of snx) l None).
  { unfold pool1. apply lseg_frame.
    - apply lseg_grow. done.
    - intros Hin. apply Hfresh. right. done. }
  destruct (try_insert_links sz pool1 sen e kv null_ptr skv snx l He Hs1 Hst Hl1 Hnd Hfresh)
    as (la & lb & pool' & -> & Hle & Hstop & Hlen' & Hpath' & Hrun).
  rewrite fmap_app in Hsort.
  destruct (sorted_insert_keys _ _ (fst kv) Hsort) as [Hsort' Hgt].
  { apply Forall_fmap. exact Hle. }
  { destruct lb as [|x lb]; simpl; [done|]. exact Hstop. }
  exists (List_ (wrap (sz + 1)) pool' sen), la, lb. split_and!; auto.
  - destruct fuel as [|fuel]; [lia|].
    unfold insert. mstep. fold e. fold pool0. rewrite He0. mstep.
    fold pool1. cbn [insert_retry]. mstep.
    rewrite (Hrun (S fuel)) by lia. reflexivity.
  - rewrite Forall_fmap in Hgt. exact Hgt.
  - constructor; simpl.
    + exists skv. exact Hpath'.
    + rewrite fmap_app. simpl. rewrite fmap_app in Hnd.
      apply NoDup_cons in Hnd as [Hsen Hnd].
      apply not_elem_of_cons in Hfresh as [Hes Hel]. rewrite fmap_app in Hel.
      apply NoDup_cons. split.
      * intros Hin. apply elem_of_app in Hin as [Hin|Hin].
        { apply Hsen. apply elem_of_app. left. done. }
        apply elem_of_cons in Hin as [Heq|Hin]; [congruence|].
        apply Hsen. apply elem_of_app. right. done.
      * apply NoDup_app in Hnd as (Hnda & Hsep & Hndb).
        apply NoDup_app. split_and!; [done| |].
        { intros x Hx Hin. apply elem_of_cons in Hin as [->|Hin].
          - apply Hel. apply elem_of_app. left. done.
          - eapply Hsep; eauto. }
        apply NoDup_cons. split; [|done].
        intros Hin. apply Hel. apply elem_of_app. right. done.
    + rewrite fmap_app. exact Hsort'.
    + pose proof (wrap_range (sz + 1)). pose proof (wrap_succ_le sz).
      rewrite length_app in *. simpl. lia.
    + rewrite Hlen'. unfold pool1, pool0.
      rewrite length_insert, !length_app in *. simpl. lia.
Qed.

(** ** [unsafe_clear] on a well-formed list *)

Lemma unsafe_clear_collect_walks sz pool sen :
  forall n l p pkv pnx arr,
    pool !! p = Some (Node pkv pnx) -> lseg pool (ptr_of pnx) l None ->
    (n <= length l)%nat ->
    unsafe_clear_collect n (Some p) arr (List_ sz pool sen)
    = Done (arr ++ fmap Some (fmap fst (take n l)), List_ sz pool sen).
Proof.
  induction n as [|n IH]; intros l p pkv pnx arr Hp Hl Hn.
  - simpl. mstep. rewrite app_nil_r. reflexivity.
  - destruct l as [|[c ckv] l]; [simpl in Hn; lia|].
    simpl in Hl. destruct Hl as (Hc & cnx & Hcn & _ & Hl).
    cbn [unsafe_clear_collect]. mstep. rewrite Hp. mstep. rewrite Hc.
    rewrite (IH l c ckv cnx) by (simpl in Hn; auto; lia).
    simpl. rewrite <- app_assoc. reflexivity.
Qed.

Lemma unsafe_clear_reset_clears sz sen :
  forall its pool,
    (forall it, it ∈ its -> exists a, it = Some a /\ (a < length pool)%nat) ->
    exists pool',
      unsafe_clear_reset its (List_ sz pool sen) = Done (tt, List_ sz pool' sen) /\
      length pool' = length pool /\
      (forall a, Some a ∉ its -> pool' !! a = pool !! a) /\
      (forall a, Some a ∈ its ->
         exists n v, pool !! a = Some n /\
           pool' !! a = Some (Node (myKeyValuePair n) (TaggedPtr None false v))).
Proof.
  induction its as [|it its IH]; intros pool Hits.
  - exists pool. split_and!; auto. intros a Hin. inversion Hin.
  - destruct (Hits it) as (a & -> & Ha); [left|].
    destruct (lookup_lt_is_Some_2 _ _ Ha) as [n Hn].
    set (pool1 := <[a := Node (myKeyValuePair n) (publish (myNext n) null_ptr)]> pool).
    destruct (IH pool1) as (pool' & Hrun & Hlen & Hout & Hin).
    { intros it Hit. destruct (Hits it) as (b & -> & Hb); [right; done|].
      exists b. unfold pool1. rewrite length_insert. done. }
    exists pool'. split_and!.
    + cbn [unsafe_clear_reset]. mstep. rewrite Hn. mstep. exact Hrun.
    + rewrite Hlen. unfold pool1. apply length_insert.
    + intros b Hb. apply not_elem_of_cons in Hb as [Hne Hb].
      rewrite Hout by done. unfold pool1.
      apply list_lookup_insert_ne. congruence.
    + intros b Hb.
      destruct (decide (Some b ∈ its)) as [Hbin|Hbout].
      * destruct (Hin b Hbin) as (n1 & v & Hn1 & Hb').
        destruct (decide (a = b)) as [->|Hne].
        { unfold pool1 in Hn1. rewrite list_lookup_insert_eq in Hn1 by done.
          injection Hn1 as <-. exists n, v. done. }
        unfold pool1 in Hn1. rewrite list_lookup_insert_ne in Hn1 by done.
        exists n1, v. done.
      * apply elem_of_cons in Hb as [Heq|Hb]; [|done].
        injection Heq as <-. rewrite Hout by done.
        exists n, (S (version_of (myNext n))). split; [done|].
        unfold pool1. apply list_lookup_insert_eq. done.
Qed.

Lemma elem_of_rev_cleared (it : option addr) (X : list addr) :
  it ∈ rev (fmap Some X) <-> exists a, it = Some a /\ a ∈ X.
Proof.
  rewrite list_elem_of_In, <- in_rev, <- list_elem_of_In.
  apply list_elem_of_fmap.
Qed.

Lemma elem_of_take_fst (a : addr) n (l : list (addr * (key_type * value_type))) :
  a ∈ fmap fst (take n l) -> a ∈ fmap fst l.
Proof.
  rewrite fmap_take. intros Hin.
  apply elem_of_take in Hin as (i & Hi & _).
  eapply list_elem_of_lookup_2; eauto.
Qed.

Lemma unsafe_clear_well_formed s l :
  well_formed s l ->
  exists s',
    unsafe_clear s = Done (tt, s') /\
    mySize s' = 0 /\
    myFrontSentry s' = myFrontSentry s /\
    myMemoryPool s' !! myFrontSentry s = myMemoryPool s !! myFrontSentry s /\
    well_formed s' (if mySize s =? 0 then l else take 1 l).
Proof.
  intros [[skv Hpath] Hnd Hsort [Hsz Hmax] Hlen].
  destruct s as [sz pool sen]. simpl in *.
  destruct Hpath as (_ & snx & Hs & Hst & Hl).
  apply NoDup_cons in Hnd as [Hsen Hnd].
  set (X := fmap fst (take (Z.to_nat sz) l)).
  destruct (unsafe_clear_reset_clears sz sen (rev (fmap Some X)) pool)
    as (pool' & Hrun & Hlen' & Hout & Hin).
  { intros it Hit. apply elem_of_rev_cleared in Hit as (a & -> & Ha).
    exists a. split; [done|]. eapply lseg_bound; [exact Hl|].
    eapply elem_of_take_fst; eauto. }
  assert (Hsen' : pool' !! sen = pool !! sen).
  { apply Hout. intros Hit. apply elem_of_rev_cleared in Hit as (a & Heq & Ha).
    injection Heq as <-. apply Hsen. eapply elem_of_take_fst; eauto. }
  exists (List_ 0 pool' sen). split_and!; auto.
  - unfold unsafe_clear. mstep.
    rewrite (unsafe_clear_collect_walks sz pool sen (Z.to_nat sz) l sen skv snx [])
      by (auto; lia).
    simpl app. fold X. mstep. rewrite Hrun. reflexivity.
  - destruct (Z.eqb_spec sz 0) as [->|Hnz].
    + assert (pool' = pool) as ->.
      { unfold X in Hrun. simpl in Hrun. unfold ret in Hrun. congruence. }
      constructor; simpl; auto; [|apply NoDup_cons; done].
      exists skv. split; [done|]. exists snx. done.
    + destruct l as [|[h hkv] l]; [simpl in Hsz; lia|].
      simpl in Hl. destruct Hl as (Hp & hnx & Hh & Hht & Hl).
      destruct (Hin h) as (n & v & Hn & Hh').
      { apply elem_of_rev_cleared. exists h. split; [done|]. unfold X.
        destruct (Z.to_nat sz) as [|k] eqn:Hk; [lia|]. simpl. left. }
      rewrite Hh in Hn. injection Hn as <-. simpl in Hh'.
      constructor; simpl.
      * exists skv. split; [done|]. exists snx. rewrite Hsen'.
        split_and!; auto. exists (TaggedPtr None false v). done.
      * apply NoDup_cons. split; [|apply NoDup_cons; split; [|constructor]].
        { intros Hx. apply Hsen. apply elem_of_cons in Hx as [->|Hx]; [left|inversion Hx]. }
        intros Hx. inversion Hx.
      * repeat constructor.
      * unfold size_max. lia.
      * rewrite Hlen'. simpl in Hlen. lia.
Qed.

(** ** [try_peek_top_key] and [size] *)

Lemma try_peek_top_key_well_formed out s l :
  well_formed s l ->
  try_peek_top_key out s
  = Done (match l with
          | [] => (false, out)
          | x :: _ => (true, fst (snd x))
          end, s).
Proof.
  intros [[skv Hpath] _ _ _ _].
  destruct s as [sz pool sen]. simpl in *.
  destruct Hpath as (_ & snx & Hs & Hst & Hl).
  unfold try_peek_top_key. mstep. rewrite Hs. mstep.
  destruct l as [|[h hkv] l]; simpl in Hl.
  - rewrite Hl. reflexivity.
  - destruct Hl as (Hp & hnx & Hh & _). rewrite Hp. mstep. rewrite Hh. reflexivity.
Qed.

(** ** [try_pop_internal] on a well-formed list: the three ways out *)

Lemma try_pop_internal_well_formed fuel k v m s l :
  well_formed s l ->
  exists r s' l',
    try_pop_internal (S fuel) k v m s = Done (r, s') /\
    well_formed s' l' /\ myFrontSentry s' = myFrontSentry s /\
    ((admitted (mySize s) = false /\ r = (false, (k, v)) /\ s' = s /\ l' = l)
     \/
     (admitted (mySize s) = true /\
      exists h kv tl, l = (h, kv) :: tl /\
        ((m = true /\ k <> fst kv /\ r = (false, (fst kv, v)) /\ l' = l /\
          myMemoryPool s' = myMemoryPool s /\ mySize s' = mySize s - 1)
         \/
         (m && negb (k =? fst kv) = false /\ r = (true, kv) /\ l' = tl /\
          mySize s' = mySize s - 1)))).
Proof.
  intros Hwf. destruct (admitted (mySize s)) eqn:Hadm.
  - pose proof Hwf as [[skv Hpath] Hnd Hsort [Hsz Hmax] Hlen].
    apply admitted_spec in Hadm as Hrange; [|lia].
    destruct l as [|[h kv] tl]; [simpl in Hsz; lia|].
    destruct (m && negb (k =? fst kv)) eqn:Hm.
    + apply andb_true_iff in Hm as [-> Hne].
      apply negb_true_iff, Z.eqb_neq in Hne.
      destruct s as [sz pool sen]. simpl in *.
      destruct Hpath as (_ & snx & Hs & Hst & Hp & hnx & Hh & Hht & Hl).
      exists (false, (fst kv, v)), (List_ (wrap (sz - 1)) pool sen), ((h, kv) :: tl).
      rewrite (wrap_small (sz - 1)) by lia.
      split_and!; auto.
      * rewrite (try_pop_internal_mismatch fuel k v sz pool sen
                   (Node skv snx) h (Node kv hnx)) by (simpl; auto).
        simpl. rewrite wrap_small by lia. reflexivity.
      * constructor; simpl; auto; [|lia].
        exists skv. split; [done|]. exists snx. split_and!; auto.
        exists hnx. done.
      * right. split; [done|]. exists h, kv, tl. split; [done|]. left. done.
    + destruct (try_pop_internal_takes_head fuel k v m s h kv tl Hwf Hadm Hm)
        as (s' & Hrun & Hwf' & Hsz' & Hsen').
      exists (true, kv), s', tl. split_and!; auto.
      right. split; [done|]. exists h, kv, tl. split; [done|]. right. done.
  - destruct Hwf as [Hpath Hnd Hsort [Hsz Hmax] Hlen].
    exists (false, (k, v)), s, l. split_and!; auto.
    + apply try_pop_internal_rejected; [lia|done].
    + constructor; auto.
Qed.

(** ** More fuel does not change a result *)

Lemma done_le_refl {A} (m : M A) : done_le m m.
Proof. intros s x H. exact H. Qed.

Lemma done_le_bind {A B} (m m' : M A) (k k' : A -> M B) :
  done_le m m' -> (forall a, done_le (k a) (k' a)) ->
  done_le (bind m k) (bind m' k').
Proof.
  intros Hm Hk s x. unfold bind.
  destruct (m s) as [[a s1]| |] eqn:E; try discriminate.
  rewrite (Hm _ _ E). apply Hk.
Qed.

Lemma try_insert_loop_mono f f' e ip cur :
  (f <= f')%nat ->
  done_le (try_insert_loop f e ip cur) (try_insert_loop f' e ip cur).
Proof.
  revert f' ip cur. induction f as [|f IH]; intros f' ip cur Hle.
  - intros s x H. discriminate.
  - destruct f' as [|f']; [lia|]. rewrite !try_insert_loop_S.
    destruct (ptr_of cur); [|apply done_le_refl].
    apply done_le_bind; [apply done_le_refl|intros en].
    apply done_le_bind; [apply done_le_refl|intros cn].
    destruct (tiny_less _ _); [apply done_le_refl|].
    apply done_le_bind; [apply done_le_refl|intros next].
    destruct (get_tag next); [|apply IH; lia].
    cbv zeta.
    apply done_le_bind; [apply done_le_refl|intros ok].
    apply done_le_bind; [apply done_le_refl|intros _].
    apply done_le_bind; [apply done_le_refl|intros cur'].
    destruct (get_tag cur'); [apply done_le_refl|apply IH; lia].
Qed.

Lemma try_insert_mono f f' entry :
  (f <= f')%nat -> done_le (try_insert f entry) (try_insert f' entry).
Proof.
  intros Hle. unfold try_insert.
  apply done_le_bind; [apply done_le_refl|intros e].
  apply done_le_bind; [apply done_le_refl|intros sentry].
  apply done_le_bind; [apply done_le_refl|intros current].
  apply done_le_bind; [apply try_insert_loop_mono; done|intros r].
  apply done_le_refl.
Qed.

Lemma insert_retry_mono r r' f f' entry :
  (r <= r')%nat -> (f <= f')%nat ->
  done_le (insert_retry r f entry) (insert_retry r' f' entry).
Proof.
  revert r'. induction r as [|r IH]; intros r' Hr Hf.
  - intros s x H. discriminate.
  - destruct r' as [|r']; [lia|]. cbn [insert_retry].
    apply done_le_bind; [apply try_insert_mono; done|intros ok].
    destruct ok; [apply done_le_refl|apply IH; lia].
Qed.

Lemma insert_mono f f' kv :
  (f <= f')%nat -> done_le (insert f kv) (insert f' kv).
Proof.
  intros Hle. unfold insert.
  apply done_le_bind; [apply done_le_refl|intros entry].
  apply done_le_bind; [apply done_le_refl|intros e].
  apply done_le_bind; [apply done_le_refl|intros en].
  apply done_le_bind; [apply done_le_refl|intros _].
  apply done_le_bind; [apply insert_retry_mono; done|intros _].
  apply done_le_refl.
Qed.

Lemma try_pop_loop_mono f f' k m :
  (f <= f')%nat -> done_le (try_pop_loop f k m) (try_pop_loop f' k m).
Proof.
  revert f'. induction f as [|f IH]; intros f' Hle.
  - intros s x H. discriminate.
  - destruct f' as [|f']; [lia|]. rewrite !try_pop_loop_S.
    apply done_le_bind; [apply done_le_refl|intros sentry].
    apply done_le_bind; [apply done_le_refl|intros head].
    apply done_le_bind; [apply done_le_refl|intros h].
    apply done_le_bind; [apply done_le_refl|intros hn].
    cbv zeta. destruct (m && _); [apply done_le_refl|].
    apply done_le_bind; [apply done_le_refl|intros splice].
    apply done_le_bind; [apply done_le_refl|intros ok].
    apply done_le_bind; [apply done_le_refl|intros _].
    destruct (negb _); [apply done_le_refl|apply IH; lia].
Qed.

Lemma try_pop_internal_mono f f' k v m :
  (f <= f')%nat ->
  done_le (try_pop_internal f k v m) (try_pop_internal f' k v m).
Proof.
  intros Hle. unfold try_pop_internal.
  apply done_le_bind; [apply done_le_refl|intros old].
  cbv zeta. destruct (_ <? _); [apply done_le_refl|].
  apply done_le_bind; [apply try_pop_loop_mono; done|intros r].
  apply done_le_refl.
Qed.

Lemma exec_mono f f' o :
  (f <= f')%nat -> done_le (exec f o) (exec f' o).
Proof.
  intros Hle. destruct o; simpl; try apply done_le_refl.
  - apply done_le_bind; [apply insert_mono; done|intros _; apply done_le_refl].
  - apply done_le_bind; [|intros r; apply done_le_refl].
    unfold try_pop_value.
    apply done_le_bind; [apply try_pop_internal_mono; done|intros r; apply done_le_refl].
  - apply done_le_bind; [apply try_pop_internal_mono; done|intros r; apply done_le_refl].
  - apply done_le_bind; [apply try_pop_internal_mono; done|intros r; apply done_le_refl].
Qed.

(** ** Every reachable state is well formed *)

Lemma new_list_well_formed : well_formed new_list [].
Proof.
  constructor; simpl.
  - exists (key_min, value_default). split; [done|].
    exists null_ptr. done.
  - apply NoDup_cons. split; [|constructor]. intros H. inversion H.
  - constructor.
  - unfold size_max. lia.
  - lia.
Qed.

Lemma exec_well_formed fuel o s l :
  well_formed s l -> (length l < fuel)%nat ->
  exists r s' l',
    exec fuel o s = Done (r, s') /\ well_formed s' l' /\
    (length l' <= S (length l))%nat.
Proof.
  intros Hwf Hfuel. destruct o as [kv|out|out|out|out| |]; cbn [exec].
  - destruct (insert_well_formed fuel kv s l Hwf Hfuel)
      as (s' & la & lb & Hrun & -> & _ & _ & Hwf' & _).
    exists RetVoid, s', (la ++ (length (myMemoryPool s), kv) :: lb).
    split_and!; [|done|].
    + unfold bind. rewrite Hrun. reflexivity.
    + rewrite !length_app. simpl. lia.
  - destruct fuel as [|fuel]; [lia|].
    destruct (try_pop_internal_well_formed fuel 0 out false s l Hwf)
      as (r & s' & l' & Hrun & Hwf' & _ & Hcase).
    exists (RetPopValue (fst r) (snd (snd r))), s', l'. split_and!; [|done|].
    + unfold try_pop_value, bind. rewrite Hrun. reflexivity.
    + destruct Hcase as [(_ & _ & _ & ->)|(_ & h & kv & tl & -> & [H|H])];
        [lia| |]; destruct H as (_ & _ & H); [destruct H as (_ & -> & _)|destruct H as (-> & _)];
        simpl; lia.
  - destruct fuel as [|fuel]; [lia|].
    destruct (try_pop_internal_well_formed fuel (fst out) (snd out) false s l Hwf)
      as (r & s' & l' & Hrun & Hwf' & _ & Hcase).
    exists (RetPop (fst r) (snd r)), s', l'. split_and!; [|done|].
    + unfold try_pop, bind. rewrite Hrun. reflexivity.
    + destruct Hcase as [(_ & _ & _ & ->)|(_ & h & kv & tl & -> & [H|H])];
        [lia| |]; destruct H as (_ & _ & H); [destruct H as (_ & -> & _)|destruct H as (-> & _)];
        simpl; lia.
  - destruct fuel as [|fuel]; [lia|].
    destruct (try_pop_internal_well_formed fuel (fst out) (snd out) true s l Hwf)
      as (r & s' & l' & Hrun & Hwf' & _ & Hcase).
    exists (RetPop (fst r) (snd r)), s', l'. split_and!; [|done|].
    + unfold compare_try_pop, bind. rewrite Hrun. reflexivity.
    + destruct Hcase as [(_ & _ & _ & ->)|(_ & h & kv & tl & -> & [H|H])];
        [lia| |]; destruct H as (_ & _ & H); [destruct H as (_ & -> & _)|destruct H as (-> & _)];
        simpl; lia.
  - eexists _, s, l. split_and!; [|done|lia].
    unfold bind. rewrite (try_peek_top_key_well_formed out s l Hwf). reflexivity.
  - destruct (unsafe_clear_well_formed s l Hwf) as (s' & Hrun & _ & _ & _ & Hwf').
    eexists RetVoid, s', _. split_and!; [|exact Hwf'|].
    + unfold bind. rewrite Hrun. reflexivity.
    + destruct (mySize s =? 0); [lia|]. rewrite length_take. lia.
  - exists (RetSize (mySize s)), s, l. split_and!; [reflexivity|done|lia].
Qed.

Lemma reachable_well_formed s : reachable s -> exists l, well_formed s l.
Proof.
  induction 1 as [|s fuel o r s' Hreach [l Hwf] Hexec].
  - exists []. apply new_list_well_formed.
  - destruct (exec_well_formed (Nat.max fuel (S (length l))) o s l Hwf)
      as (r2 & s2 & l2 & Hrun & Hwf2 & _); [lia|].
    apply (exec_mono fuel (Nat.max fuel (S (length l)))) in Hexec; [|lia].
    rewrite Hexec in Hrun. injection Hrun as <- <-. exists l2. exact Hwf2.
Qed.

Lemma one_node_list_reachable kv : reachable (one_node_list 1 kv).
Proof.
  eapply reachable_exec with (fuel := 1%nat) (o := Insert kv) (r := RetVoid);
    [apply reachable_new|reflexivity].
Qed.

Lemma run_reachable ops : forall fuel s rs s',
  reachable s -> run fuel ops s = Done (rs, s') -> reachable s'.
Proof.
  induction ops as [|o ops IH]; intros fuel s rs s' Hreach Hrun.
  - simpl in Hrun. unfold ret in Hrun. injection Hrun as <- <-. exact Hreach.
  - cbn [run] in Hrun. unfold bind in Hrun.
    destruct (exec fuel o s) as [[r s1]| |] eqn:Hexec; try discriminate.
    destruct (run fuel ops s1) as [[rs1 s2]| |] eqn:Hrest; try discriminate.
    unfold ret in Hrun. injection Hrun as <- <-.
    eapply IH; [|exact Hrest]. eapply reachable_exec; eauto.
Qed.

(** Every history runs to completion when the fuel exceeds its length. *)
Lemma run_well_formed ops : forall fuel s l,
  well_formed s l -> (length l + length ops < fuel)%nat ->
  exists rs s' l', run fuel ops s = Done (rs, s') /\ well_formed s' l'.
Proof.
  induction ops as [|o ops IH]; intros fuel s l Hwf Hfuel.
  - exists [], s, l. split; [reflexivity|done].
  - simpl in Hfuel.
    destruct (exec_well_formed fuel o s l Hwf) as (r & s1 & l1 & Hexec & Hwf1 & Hlen1); [lia|].
    destruct (IH fuel s1 l1 Hwf1) as (rs & s2 & l2 & Hrun & Hwf2); [lia|].
    exists (r :: rs), s2, l2. split; [|done].
    cbn [run]. unfold bind. rewrite Hexec, Hrun. reflexivity.
Qed.

Lemma run_completes ops fuel :
  (length ops < fuel)%nat ->
  exists rs s, run fuel ops new_list = Done (rs, s) /\ reachable s.
Proof.
  intros Hfuel.
  destruct (run_well_formed ops fuel new_list [] new_list_well_formed)
    as (rs & s & l & Hrun & _); [simpl; lia|].
  exists rs, s. split; [done|].
  eapply run_reachable; [apply reachable_new|exact Hrun].
Qed.

Lemma sorted_keys_non_decreasing (ks : list key_type) :
  StronglySorted Z.le ks -> non_decreasing ks.
Proof.
  intros Hs. apply StronglySorted_Sorted in Hs. unfold non_decreasing.
  induction Hs as [|a ks Hs IH Hhd]; constructor; [done|].
  destruct Hhd as [|b ks' Hab]; constructor.
  unfold tiny_less. apply Z.ltb_ge. exact Hab.
Qed.

Lemma chain_keys_well_formed s l :
  well_formed s l -> chain_keys s = fmap (fun x => fst (snd x)) l.
Proof.
  intros Hwf. unfold chain_keys, chain_pairs.
  rewrite (chain_well_formed s l Hwf), map_map. reflexivity.
Qed.

(** ** The scenarios of the specification, evaluated *)

Example scenario_singleton (a v0 : value_type) :
  exists s,
    run 2 [Insert (5, a); TryPeekTopKey 0; TryPopValue v0; TryPopValue v0; Size]
        new_list
    = Done ([RetVoid; RetPeek true 5; RetPopValue true a;
             RetPopValue false v0; RetSize 0], s).
Proof. eexists. vm_compute. reflexivity. Qed.

Example scenario_duplicate_keys (x y v0 : value_type) :
  exists s,
    run 3 [Insert (3, x); Insert (3, y); TryPop (0, v0); TryPop (0, v0); Size]
        new_list
    = Done ([RetVoid; RetVoid; RetPop true (3, x); RetPop true (3, y);
             RetSize 0], s).
Proof. eexists. vm_compute. reflexivity. Qed.

Example scenario_compare_try_pop_success (v v0 : value_type) :
  exists s,
    run 2 [Insert (4, v); CompareTryPop (4, v0); Size] new_list
    = Done ([RetVoid; RetPop true (4, v); RetSize 0], s) /\
    chain s = [].
Proof. eexists. split; vm_compute; reflexivity. Qed.

(** After [unsafe_clear] the former head is still linked: the next pop after
    a later insert hands out the stale pair first. *)
Example scenario_unsafe_clear_then_insert (v w v0 : value_type) :
  exists s,
    run 3 [Insert (4, v); Insert (6, w); UnsafeClear; Size;
           Insert (9, w); TryPop (0, v0); Size] new_list
    = Done ([RetVoid; RetVoid; RetVoid; RetSize 0;
             RetVoid; RetPop true (4, v); RetSize 0], s) /\
    chain_pairs s = [(9, w)].
Proof. eexists. split; vm_compute; reflexivity. Qed.

(** ** The properties of the specification *)

(** C3. On a list whose size counter is zero, [try_pop] (both overloads) and
    [compare_try_pop] return false and leave the whole state, and the
    caller's slots, as they were: the decrement wraps to the maximum, the
    admission test takes it for a wrap, and the [+1] brings the counter
    back. *)
Theorem pop_on_empty_leaves_no_trace (s : concurrent_sorted_list)
    (fuel : nat) (out : key_type * value_type) (v : value_type) :
  mySize s = 0 ->
  wrap (mySize s - 1) = size_max /\
  admitted (mySize s) = false /\
  wrap (wrap (mySize s - 1) + 1) = mySize s /\
  try_pop_value fuel v s = Done ((false, v), s) /\
  try_pop fuel out s = Done ((false, out), s) /\
  compare_try_pop fuel out s = Done ((false, out), s).
Proof.
  intros Hz.
  assert (Hr : 0 <= mySize s <= size_max) by (rewrite Hz; unfold size_max; lia).
  assert (Ha : admitted (mySize s) = false) by (rewrite Hz; reflexivity).
  split_and!.
  - rewrite Hz. reflexivity.
  - exact Ha.
  - rewrite Hz. reflexivity.
  - unfold try_pop_value, bind.
    rewrite try_pop_internal_rejected by done. reflexivity.
  - unfold try_pop. rewrite try_pop_internal_rejected by done.
    destruct out; reflexivity.
  - unfold compare_try_pop. rewrite try_pop_internal_rejected by done.
    destruct out; reflexivity.
Qed.

(** C4. After every history of completed operations on a fresh list, the
    keys met by following [myNext] from the sentinel are non-decreasing
    under [tiny_less]: no key is less than the one before it. *)
Theorem chain_sorted_at_quiescence (fuel : nat) (ops : list op)
    (rs : list result) (s : concurrent_sorted_list) :
  run fuel ops new_list = Done (rs, s) ->
  non_decreasing (chain_keys s).
Proof.
  intros Hrun.
  destruct (reachable_well_formed s) as [l Hwf].
  { eapply run_reachable; [apply reachable_new|exact Hrun]. }
  rewrite (chain_keys_well_formed s l Hwf).
  apply sorted_keys_non_decreasing. apply Hwf.
Qed.

(** C5. [insert] never fails: on every reachable list and for every pair it
    returns (given fuel for the walk along the chain), the new pair sits in
    the chain after nodes whose keys are all less than or equal to the new
    key and before nodes whose keys are all greater, the rest of the chain
    is as before, and the size counter went up by one. *)
Theorem insert_never_fails (s : concurrent_sorted_list)
    (kv : key_type * value_type) (fuel : nat) :
  reachable s -> (length (chain s) < fuel)%nat ->
  exists s' l1 l2,
    insert fuel kv s = Done (tt, s') /\
    chain_pairs s = l1 ++ l2 /\
    chain_pairs s' = l1 ++ kv :: l2 /\
    Forall (fun p => fst p <= fst kv) l1 /\
    Forall (fun p => tiny_less (fst kv) (fst p) = true) l2 /\
    mySize s' = wrap (mySize s + 1) /\
    (mySize s < size_max -> mySize s' = mySize s + 1).
Proof.
  intros Hreach Hfuel.
  destruct (reachable_well_formed s Hreach) as [l Hwf].
  rewrite (chain_well_formed s l Hwf) in Hfuel.
  destruct (insert_well_formed fuel kv s l Hwf Hfuel)
    as (s' & la & lb & Hrun & -> & Hle & Hgt & Hwf' & Hsz & _).
  exists s', (map snd la), (map snd lb). split_and!.
  - exact Hrun.
  - unfold chain_pairs. rewrite (chain_well_formed s _ Hwf). apply map_app.
  - unfold chain_pairs. rewrite (chain_well_formed s' _ Hwf').
    rewrite map_app. reflexivity.
  - apply List.Forall_map. exact Hle.
  - apply List.Forall_map. eapply Forall_impl; [exact Hgt|].
    simpl. intros x Hx. unfold tiny_less. apply Z.ltb_lt. exact Hx.
  - exact Hsz.
  - intros Hlt. rewrite Hsz. apply wrap_small.
    destruct Hwf as [_ _ _ [Hz _] _]. lia.
Qed.

(** C8. [try_peek_top_key] reads the sentinel's [myNext] once: on an empty
    chain it returns false and leaves the out-slot alone, on a non-empty
    chain it returns true with the key of the head, which is the least key
    of the chain; the state it returns is the state it was given. *)
Theorem try_peek_top_key_reads_head (s : concurrent_sorted_list) (out : key_type) :
  reachable s ->
  try_peek_top_key out s
  = Done (match chain_keys s with
          | [] => (false, out)
          | k :: _ => (true, k)
          end, s) /\
  (forall k ks, chain_keys s = k :: ks -> Forall (fun k' => k <= k') ks).
Proof.
  intros Hreach.
  destruct (reachable_well_formed s Hreach) as [l Hwf].
  rewrite (chain_keys_well_formed s l Hwf).
  split.
  - rewrite (try_peek_top_key_well_formed out s l Hwf).
    destruct l; reflexivity.
  - intros k ks Heq. destruct Hwf as [_ _ Hsort _ _].
    rewrite Heq in Hsort. inversion Hsort; done.
Qed.

(** C9. On every reachable list, a pop whose admission decrement is kept
    finds a node behind the sentinel: the load of the sentinel's [myNext]
    is not null and points to a node of the pool, so the read of the head's
    key does not fault, whatever the fuel and the arguments. *)
Theorem admitted_pop_finds_head (s : concurrent_sorted_list) :
  reachable s -> admitted (mySize s) = true ->
  (exists sn h hn,
      load (myFrontSentry s) s = Done (myNext sn, s) /\
      ptr_of (myNext sn) = Some h /\
      myMemoryPool s !! h = Some hn) /\
  (forall fuel k v m, try_pop_internal fuel k v m s <> Fault).
Proof.
  intros Hreach Hadm.
  destruct (reachable_well_formed s Hreach) as [l Hwf].
  split.
  - pose proof Hwf as [[skv Hpath] _ _ [Hsz Hmax] _].
    apply admitted_spec in Hadm; [|lia].
    destruct l as [|[h kv] tl]; [simpl in Hsz; lia|].
    destruct Hpath as (_ & snx & Hs & _ & Hp & hnx & Hh & _).
    exists (Node skv snx), h, (Node kv hnx). split_and!; auto.
    unfold load, bind, get_node, ret. rewrite Hs. reflexivity.
  - intros [|fuel] k v m.
    + unfold admitted in Hadm. apply negb_true_iff in Hadm.
      clear Hreach Hwf. destruct s as [sz pool sen]. simpl in Hadm.
      unfold try_pop_internal. mstep. rewrite Hadm. discriminate.
    + destruct (try_pop_internal_well_formed fuel k v m s l Hwf)
        as (r & s' & l' & Hrun & _). rewrite Hrun. discriminate.
Qed.

(** *** Inserts first, pops afterwards *)

Lemma run_app ops1 : forall ops2 fuel s rs1 s1 rs2 s2,
  run fuel ops1 s = Done (rs1, s1) ->
  run fuel ops2 s1 = Done (rs2, s2) ->
  run fuel (ops1 ++ ops2) s = Done (rs1 ++ rs2, s2).
Proof.
  induction ops1 as [|o ops1 IH]; intros ops2 fuel s rs1 s1 rs2 s2 H1 H2.
  - simpl in H1. unfold ret in H1. injection H1 as <- <-. exact H2.
  - cbn [run app] in *. unfold bind in *.
    destruct (exec fuel o s) as [[r s0]| |]; try discriminate.
    destruct (run fuel ops1 s0) as [[rs0 s0']| |] eqn:Hrest; try discriminate.
    unfold ret in H1. injection H1 as <- <-.
    rewrite (IH ops2 fuel s0 rs0 s0' rs2 s2 Hrest H2). reflexivity.
Qed.

Lemma popped_keys_app rs1 rs2 :
  popped_keys (rs1 ++ rs2) = popped_keys rs1 ++ popped_keys rs2.
Proof.
  induction rs1 as [|r rs1 IH]; [reflexivity|].
  destruct r as [| | [|] out | |]; simpl; rewrite IH; reflexivity.
Qed.

Lemma run_inserts kvs : forall fuel s l,
  well_formed s l -> (length l + length kvs < fuel)%nat ->
  exists rs s' l',
    run fuel (map Insert kvs) s = Done (rs, s') /\ well_formed s' l' /\
    popped_keys rs = [].
Proof.
  induction kvs as [|kv kvs IH]; intros fuel s l Hwf Hfuel.
  - exists [], s, l. split_and!; [reflexivity|done|reflexivity].
  - simpl in Hfuel.
    destruct (insert_well_formed fuel kv s l Hwf)
      as (s1 & la & lb & Hrun & -> & _ & _ & Hwf1 & _); [lia|].
    destruct (IH fuel s1 _ Hwf1) as (rs & s2 & l2 & Hrest & Hwf2 & Hkeys).
    { rewrite length_app in *. simpl. lia. }
    exists (RetVoid :: rs), s2, l2. split_and!; [|done|exact Hkeys].
    cbn [run map exec]. unfold bind. rewrite Hrun.
    unfold ret. rewrite Hrest. reflexivity.
Qed.

Lemma run_pops outs : forall fuel s l,
  well_formed s l ->
  exists rs s' lp l',
    run (S fuel) (map TryPop outs) s = Done (rs, s') /\
    l = lp ++ l' /\ well_formed s' l' /\
    popped_keys rs = fmap (fun x => fst (snd x)) lp.
Proof.
  induction outs as [|out outs IH]; intros fuel s l Hwf.
  - exists [], s, [], l. split_and!; [reflexivity|reflexivity|done|reflexivity].
  - destruct (try_pop_internal_well_formed fuel (fst out) (snd out) false s l Hwf)
      as (r & s1 & l1 & Hrun & Hwf1 & _ & Hcase).
    destruct (IH fuel s1 l1 Hwf1) as (rs & s2 & lp & l2 & Hrest & Hl1 & Hwf2 & Hkeys).
    assert (Hstep : run (S fuel) (map TryPop (out :: outs)) s
                    = Done (RetPop (fst r) (snd r) :: rs, s2)).
    { cbn [run map exec]. unfold try_pop, bind. rewrite Hrun.
      unfold ret. rewrite Hrest. reflexivity. }
    destruct Hcase as [(_ & -> & _ & ->)|(_ & h & kv & tl & -> & [H|H])].
    + exists (RetPop false out :: rs), s2, lp, l2.
      split_and!; [destruct out; exact Hstep|done|done|exact Hkeys].
    + destruct H as (Hm & _). discriminate.
    + destruct H as (_ & -> & -> & _).
      exists (RetPop true kv :: rs), s2, ((h, kv) :: lp), l2.
      split_and!; [exact Hstep| |done|].
      * rewrite Hl1. reflexivity.
      * simpl. rewrite Hkeys. reflexivity.
Qed.

(** C6. In a history that inserts first and then only calls
    [try_pop(pair&)], the keys handed back by the successful pops are
    non-decreasing; inserting the keys 7, 2, 5, 9, 2 in this order and
    draining hands back 2, 2, 5, 7, 9, and the pop after the last one
    fails. *)
Theorem pops_after_inserts_are_monotone :
  (forall (kvs outs : list (key_type * value_type)) (fuel : nat),
      (length kvs < fuel)%nat ->
      exists rs s,
        run fuel (map Insert kvs ++ map TryPop outs) new_list = Done (rs, s) /\
        non_decreasing (popped_keys rs)) /\
  (forall (v1 v2 v3 v4 v5 v0 : value_type) (k0 : key_type),
      exists s,
        run 6 (map Insert [(7, v1); (2, v2); (5, v3); (9, v4); (2, v5)]
               ++ repeat (TryPop (k0, v0)) 6) new_list
        = Done ([RetVoid; RetVoid; RetVoid; RetVoid; RetVoid;
                 RetPop true (2, v2); RetPop true (2, v5);
                 RetPop true (5, v3); RetPop true (7, v1);
                 RetPop true (9, v4); RetPop false (k0, v0)], s) /\
        mySize s = 0 /\ chain s = []).
Proof.
  split.
  - intros kvs outs fuel Hfuel.
    destruct (run_inserts kvs fuel new_list [] new_list_well_formed)
      as (rs1 & s1 & l1 & Hrun1 & Hwf1 & Hk1); [simpl; lia|].
    destruct fuel as [|fuel]; [lia|].
    destruct (run_pops outs fuel s1 l1 Hwf1)
      as (rs2 & s2 & lp & l2 & Hrun2 & -> & Hwf2 & Hk2).
    exists (rs1 ++ rs2), s2. split.
    + eapply run_app; eauto.
    + rewrite popped_keys_app, Hk1, Hk2. simpl.
      apply sorted_keys_non_decreasing.
      destruct Hwf1 as [_ _ Hsort _ _]. rewrite fmap_app in Hsort.
      eapply StronglySorted_app_1_l. exact Hsort.
  - intros v1 v2 v3 v4 v5 v0 k0. eexists.
    split; [vm_compute; reflexivity|]. split; vm_compute; reflexivity.
Qed.

(** C7. When [compare_try_pop] fails on a reachable list although its
    admission decrement was kept, the failure is a key mismatch: the chain
    has a head whose key differs from the expected one, the caller's key
    slot holds exactly that key, the value slot is untouched, and no node
    was removed: pool, sentinel and chain are what they were. *)
Theorem compare_try_pop_mismatch_contract (s s' : concurrent_sorted_list)
    (fuel : nat) (out out' : key_type * value_type) :
  reachable s -> admitted (mySize s) = true ->
  compare_try_pop fuel out s = Done ((false, out'), s') ->
  exists h kv tl,
    chain s = (h, kv) :: tl /\
    fst kv <> fst out /\
    out' = (fst kv, snd out) /\
    myMemoryPool s' = myMemoryPool s /\
    myFrontSentry s' = myFrontSentry s /\
    chain s' = chain s.
Proof.
  intros Hreach Hadm Hrun.
  destruct (reachable_well_formed s Hreach) as [l Hwf].
  unfold compare_try_pop in Hrun.
  apply (try_pop_internal_mono fuel (S fuel)) in Hrun; [|lia].
  destruct (try_pop_internal_well_formed fuel (fst out) (snd out) true s l Hwf)
    as (r & s1 & l1 & Hrun1 & Hwf1 & Hsen & Hcase).
  rewrite Hrun in Hrun1. injection Hrun1 as <- <-.
  destruct Hcase as [(Hrej & _)|(_ & h & kv & tl & -> & [H|H])].
  - congruence.
  - destruct H as (_ & Hne & Hr & _ & Hpool & _).
    injection Hr as ->.
    exists h, kv, tl. split_and!; auto.
    + apply (chain_well_formed s _ Hwf).
    + unfold chain. rewrite Hpool, Hsen. reflexivity.
  - destruct H as (_ & Hr & _). discriminate.
Qed.

(** X24. The same failure seen from the size counter: on every reachable
    list a [compare_try_pop] that returns false after a kept admission
    decrement leaves the counter one lower than it found it. *)
Lemma compare_try_pop_mismatch_size (s s' : concurrent_sorted_list)
    (fuel : nat) (out out' : key_type * value_type) :
  reachable s -> admitted (mySize s) = true ->
  compare_try_pop fuel out s = Done ((false, out'), s') ->
  mySize s' = mySize s - 1.
Proof.
  intros Hreach Hadm Hrun.
  destruct (reachable_well_formed s Hreach) as [l Hwf].
  unfold compare_try_pop in Hrun.
  apply (try_pop_internal_mono fuel (S fuel)) in Hrun; [|lia].
  destruct (try_pop_internal_well_formed fuel (fst out) (snd out) true s l Hwf)
    as (r & s1 & l1 & Hrun1 & _ & _ & Hcase).
  rewrite Hrun in Hrun1. injection Hrun1 as <- <-.
  destruct Hcase as [(Hrej & _)|(_ & h & kv & tl & -> & [H|H])].
  - congruence.
  - destruct H as (_ & _ & _ & _ & _ & Hsz). exact Hsz.
  - destruct H as (_ & Hr & _). discriminate.
Qed.

(** C10. [unsafe_clear] does not write the sentinel's [myNext]: on every
    reachable list with a non-empty chain it returns with the size counter
    at zero and the sentinel's node as it was, so the former head, whose
    key was the least of the chain, is still the head; a following
    [try_peek_top_key] returns true with that key, and a following
    [try_pop] returns false. *)
Theorem unsafe_clear_keeps_sentinel_link (s : concurrent_sorted_list) :
  reachable s -> chain s <> [] ->
  exists s' h kv,
    unsafe_clear s = Done (tt, s') /\
    head (chain s) = Some (h, kv) /\
    Forall (fun x => fst kv <= fst (snd x)) (chain s) /\
    mySize s' = 0 /\
    myFrontSentry s' = myFrontSentry s /\
    myMemoryPool s' !! myFrontSentry s = myMemoryPool s !! myFrontSentry s /\
    head (chain s') = Some (h, kv) /\
    (forall out, try_peek_top_key out s' = Done ((true, fst kv), s')) /\
    (forall fuel out, try_pop fuel out s' = Done ((false, out), s')) /\
    (forall fuel v, try_pop_value fuel v s' = Done ((false, v), s')).
Proof.
  intros Hreach Hne.
  destruct (reachable_well_formed s Hreach) as [l Hwf].
  rewrite (chain_well_formed s l Hwf) in *.
  destruct l as [|[h kv] tl]; [done|].
  destruct (unsafe_clear_well_formed s _ Hwf)
    as (s' & Hrun & Hsz & Hsen & Hnode & Hwf').
  assert (Hwf'' : exists tl', well_formed s' ((h, kv) :: tl')).
  { destruct (mySize s =? 0); [exists tl|exists (take 0 tl)]; exact Hwf'. }
  destruct Hwf'' as [tl' Hwf''].
  assert (Hr : 0 <= mySize s' <= size_max) by (rewrite Hsz; unfold size_max; lia).
  assert (Ha : admitted (mySize s') = false) by (rewrite Hsz; reflexivity).
  exists s', h, kv. split_and!; auto.
  - destruct Hwf as [_ _ Hsort _ _]. simpl in Hsort.
    inversion Hsort as [|? ? _ Hall]; subst.
    constructor; [simpl; lia|]. rewrite Forall_fmap in Hall. exact Hall.
  - rewrite (chain_well_formed s' _ Hwf''). reflexivity.
  - intros out. rewrite (try_peek_top_key_well_formed out s' _ Hwf''). reflexivity.
  - intros fuel out. unfold try_pop.
    rewrite try_pop_internal_rejected by done. destruct out; reflexivity.
  - intros fuel v. unfold try_pop_value, bind.
    rewrite try_pop_internal_rejected by done. reflexivity.
Qed.

(** *** Where the code departs from the specification *)

(** C1. The list holds one node with key 4 and its size counter reads 1.
    [compare_try_pop] with expected key 3 returns false and writes 4 to the
    expected-key slot, the node stays in the chain, but the size counter
    reads 0 afterwards: the key-mismatch return does not undo the admission
    decrement. *)
Theorem compare_try_pop_mismatch_keeps_decrement (v v0 : value_type) :
  exists s1 s2,
    insert 1 (4, v) new_list = Done (tt, s1) /\
    mySize s1 = 1 /\
    compare_try_pop 1 (3, v0) s1 = Done ((false, (4, v0)), s2) /\
    chain_pairs s2 = [(4, v)] /\
    mySize s2 = 0.
Proof.
  eexists. eexists.
  split; [vm_compute; reflexivity|].
  split; [vm_compute; reflexivity|].
  split; [vm_compute; reflexivity|].
  split; vm_compute; reflexivity.
Qed.

(** C2. After the history insert (4, v), compare_try_pop with expected key
    3, size: one insert and no pop succeeded and the chain holds one node,
    but [size] returns 0. *)
Theorem conservation_fails_after_mismatch (v v0 : value_type) :
  exists rs s,
    run 1 [Insert (4, v); CompareTryPop (3, v0); Size] new_list = Done (rs, s) /\
    rs = [RetVoid; RetPop false (4, v0); RetSize 0] /\
    successful_inserts [Insert (4, v); CompareTryPop (3, v0); Size]
      - successful_pops rs = 1 /\
    Z.of_nat (length (chain s)) = 1 /\
    mySize s = 0.
Proof.
  eexists. eexists.
  split; [vm_compute; reflexivity|].
  split; [reflexivity|].
  split; [vm_compute; reflexivity|].
  split; vm_compute; reflexivity.
Qed.

(** *** Conservation on the histories that avoid the defect *)

Lemma plain_pop_step fuel k v s l r s1 :
  well_formed s l -> mySize s = Z.of_nat (length l) ->
  Z.of_nat (length l) <= 2 ^ 63 ->
  try_pop_internal fuel k v false s = Done (r, s1) ->
  exists l1, well_formed s1 l1 /\ mySize s1 = Z.of_nat (length l1) /\
    Z.of_nat (length l1)
    = Z.of_nat (length l) - (if fst r then 1 else 0).
Proof.
  intros Hwf Hsz Hbound Hrun.
  apply (try_pop_internal_mono fuel (S fuel)) in Hrun; [|lia].
  destruct (try_pop_internal_well_formed fuel k v false s l Hwf)
    as (r' & s' & l' & Hrun' & Hwf' & _ & Hcase).
  rewrite Hrun in Hrun'. injection Hrun' as <- <-.
  destruct Hcase as [(_ & -> & -> & ->)|(_ & h & kv & tl & -> & [H|H])].
  - exists l. split_and!; [done|done|simpl; lia].
  - destruct H as (Hm & _). discriminate.
  - destruct H as (_ & -> & -> & Hsz').
    exists tl. split_and!; [done| |]; simpl in *; lia.
Qed.

Lemma plain_step fuel o s l r s1 :
  well_formed s l -> mySize s = Z.of_nat (length l) ->
  Z.of_nat (length l) < 2 ^ 63 ->
  plain_op o = true -> exec fuel o s = Done (r, s1) ->
  exists l1, well_formed s1 l1 /\ mySize s1 = Z.of_nat (length l1) /\
    Z.of_nat (length l1)
    = Z.of_nat (length l) + (if successful_insert o then 1 else 0)
      - (if successful_pop r then 1 else 0).
Proof.
  intros Hwf Hsz Hbound Hplain Hexec.
  destruct o as [kv|out|out|out|out| |]; try discriminate; cbn [exec] in Hexec.
  - apply (exec_mono fuel (Nat.max fuel (S (length l))) (Insert kv)) in Hexec; [|lia].
    destruct (insert_well_formed (Nat.max fuel (S (length l))) kv s l Hwf)
      as (s' & la & lb & Hrun & -> & _ & _ & Hwf' & Hsz' & _); [lia|].
    cbn [exec] in Hexec. unfold bind in Hexec. rewrite Hrun in Hexec.
    unfold ret in Hexec. injection Hexec as <- <-.
    eexists. split; [exact Hwf'|].
    rewrite Hsz', Hsz. rewrite !length_app in *. simpl length in *.
    rewrite wrap_small by (unfold size_max; lia). simpl. lia.
  - unfold try_pop_value, bind in Hexec.
    destruct (try_pop_internal fuel 0 out false s) as [[r0 s0]| |] eqn:Hrun;
      try discriminate.
    unfold ret in Hexec. injection Hexec as <- <-.
    destruct (plain_pop_step fuel 0 out s l r0 s0 Hwf Hsz) as (l1 & H1 & H2 & H3);
      [lia|done|].
    exists l1. simpl. split_and!; [done|done|lia].
  - unfold try_pop, bind in Hexec.
    destruct (try_pop_internal fuel (fst out) (snd out) false s) as [[r0 s0]| |] eqn:Hrun;
      try discriminate.
    unfold ret in Hexec. injection Hexec as <- <-.
    destruct (plain_pop_step fuel (fst out) (snd out) s l r0 s0 Hwf Hsz) as (l1 & H1 & H2 & H3);
      [lia|done|].
    exists l1. simpl. split_and!; [done|done|lia].
  - unfold bind in Hexec.
    rewrite (try_peek_top_key_well_formed out s l Hwf) in Hexec.
    unfold ret in Hexec. injection Hexec as <- <-.
    exists l. simpl. split_and!; [done|done|lia].
  - unfold bind, size, load_size, ret in Hexec. injection Hexec as <- <-.
    exists l. simpl. split_and!; [done|done|lia].
Qed.

Lemma plain_history_conserves ops : forall fuel s l rs s',
  well_formed s l -> mySize s = Z.of_nat (length l) ->
  Z.of_nat (length l) + Z.of_nat (length ops) <= 2 ^ 63 ->
  forallb plain_op ops = true ->
  run fuel ops s = Done (rs, s') ->
  exists l', well_formed s' l' /\ mySize s' = Z.of_nat (length l') /\
    successful_inserts ops - successful_pops rs
    = Z.of_nat (length l') - Z.of_nat (length l).
Proof.
  induction ops as [|o ops IH]; intros fuel s l rs s' Hwf Hsz Hbound Hplain Hrun.
  - simpl in Hrun. unfold ret in Hrun. injection Hrun as <- <-.
    exists l. split_and!; [done|done|]. unfold successful_inserts, successful_pops.
    simpl. lia.
  - cbn [run] in Hrun. unfold bind in Hrun.
    destruct (exec fuel o s) as [[r s1]| |] eqn:Hexec; try discriminate.
    destruct (run fuel ops s1) as [[rs1 s2]| |] eqn:Hrest; try discriminate.
    unfold ret in Hrun. injection Hrun as <- <-.
    simpl in Hplain. apply andb_true_iff in Hplain as [Ho Hops].
    simpl length in Hbound.
    destruct (plain_step fuel o s l r s1 Hwf Hsz) as (l1 & Hwf1 & Hsz1 & Hlen1);
      [lia|done|done|].
    destruct (IH fuel s1 l1 rs1 s2 Hwf1 Hsz1) as (l2 & Hwf2 & Hsz2 & Hcount);
      [destruct (successful_insert o), (successful_pop r); lia|done|done|].
    exists l2. split_and!; [done|done|].
    unfold successful_inserts, successful_pops in *. simpl.
    destruct (successful_insert o), (successful_pop r); simpl length; lia.
Qed.

(** X23. On the histories without [compare_try_pop] and [unsafe_clear] (and
    short of 2^63 operations) the conservation property holds: successful
    inserts minus successful pops, the number of nodes in the chain and the
    size counter agree. *)
Lemma conservation_without_mismatch fuel ops rs s :
  forallb plain_op ops = true -> Z.of_nat (length ops) <= 2 ^ 63 ->
  run fuel ops new_list = Done (rs, s) ->
  successful_inserts ops - successful_pops rs = Z.of_nat (length (chain s)) /\
  mySize s = Z.of_nat (length (chain s)).
Proof.
  intros Hplain Hbound Hrun.
  destruct (plain_history_conserves ops fuel new_list [] rs s
              new_list_well_formed eq_refl) as (l & Hwf & Hsz & Hcount);
    [simpl; lia|done|done|].
  rewrite (chain_well_formed s l Hwf). simpl in Hcount. split; [lia|done].
Qed.

(** ** Further properties of the list operations *)

Lemma try_pop_internal_takes_head_exact fuel k v m sz pool sen skv nx h kv hx :
  pool !! sen = Some (Node skv nx) -> ptr_of nx = Some h ->
  pool !! h = Some (Node kv hx) -> h <> sen -> tag_of hx = false ->
  0 <= sz <= size_max -> admitted sz = true ->
  m && negb (k =? fst kv) = false ->
  try_pop_internal (S fuel) k v m (List_ sz pool sen)
  = Done ((true, kv),
          List_ (sz - 1) (pool_after_pop pool sen h (Node skv nx) (Node kv hx)) sen).
Proof.
  intros Hs Hp Hh Hne Hht Hsz Hadm Hm.
  apply admitted_spec in Hadm as Hadm'; [|lia].
  unfold admitted in Hadm. apply negb_true_iff in Hadm.
  unfold try_pop_internal. mstep. rewrite Hadm.
  rewrite (try_pop_loop_takes_head fuel k m _ pool sen (Node skv nx) h (Node kv hx))
    by (simpl; auto).
  mstep. rewrite Hp. mstep.
  unfold pool_after_pop at 1.
  rewrite list_lookup_insert_eq
    by (rewrite !length_insert; eapply lookup_lt_Some; eauto).
  mstep. simpl. rewrite wrap_small by lia. destruct kv; reflexivity.
Qed.

(** X7. On every reachable list [size] returns a value between zero and the
    number of nodes in the chain: the counter may lag behind the chain but
    never runs ahead of it. *)
Theorem size_never_exceeds_chain (s : concurrent_sorted_list) :
  reachable s ->
  exists n, size s = Done (n, s) /\ 0 <= n <= Z.of_nat (length (chain s)).
Proof.
  intros Hreach. destruct (reachable_well_formed s Hreach) as [l Hwf].
  exists (mySize s). split; [reflexivity|].
  rewrite (chain_well_formed s l Hwf). destruct Hwf as [_ _ _ [Hsz _] _]. exact Hsz.
Qed.

(** X8. On every reachable list a [try_pop] whose admission decrement is
    kept returns true with the pair of the head node, which carries the
    least key and is the key [try_peek_top_key] reports; afterwards the chain
    is the former tail, the counter is one lower, and the removed node's
    [myNext] holds the tagged null marker. *)
Theorem try_pop_hands_out_head (s : concurrent_sorted_list) (fuel : nat)
    (out : key_type * value_type) :
  reachable s -> admitted (mySize s) = true ->
  exists h kv tl s' nx,
    chain s = (h, kv) :: tl /\
    try_pop (S fuel) out s = Done ((true, kv), s') /\
    try_peek_top_key (fst out) s = Done ((true, fst kv), s) /\
    Forall (fun x => fst kv <= fst (snd x)) (chain s) /\
    chain s' = tl /\
    mySize s' = mySize s - 1 /\
    myMemoryPool s' !! h = Some (Node kv nx) /\
    ptr_of nx = None /\ tag_of nx = true.
Proof.
  intros Hreach Hadm.
  destruct (reachable_well_formed s Hreach) as [l Hwf].
  pose proof Hwf as [[skv Hpath] Hnd Hsort [Hsz Hmax] Hlen].
  apply admitted_spec in Hadm as Hrange; [|lia].
  destruct l as [|[h kv] tl]; [simpl in Hsz; lia|].
  destruct (try_pop_internal_takes_head fuel (fst out) (snd out) false s h kv tl Hwf Hadm)
    as (s' & Hrun & Hwf' & Hsz' & Hsen'); [reflexivity|].
  rewrite (chain_well_formed s _ Hwf).
  destruct s as [sz pool sen]. simpl in *.
  destruct Hpath as (_ & snx & Hs & Hst & Hp & hnx & Hh & Hht & Hl).
  apply NoDup_cons in Hnd as [Hsen Hnd].
  apply not_elem_of_cons in Hsen as [Hne Hsen].
  rewrite (try_pop_internal_takes_head_exact fuel (fst out) (snd out) false
             sz pool sen skv snx h kv hnx) in Hrun by (auto; lia).
  injection Hrun as <-.
  exists h, kv, tl, (List_ (sz - 1) (pool_after_pop pool sen h (Node skv snx) (Node kv hnx)) sen),
    (publish (set_tag hnx) (set_tag null_ptr)).
  split_and!; auto.
  - unfold try_pop. simpl.
    apply (try_pop_internal_takes_head_exact fuel (fst out) (snd out) false
             sz pool sen skv snx h kv hnx); auto; lia.
  - rewrite (try_peek_top_key_well_formed (fst out) _ _ Hwf). reflexivity.
  - simpl in Hsort. inversion Hsort as [|? ? _ Hall]; subst.
    constructor; [simpl; lia|]. rewrite Forall_fmap in Hall. exact Hall.
  - apply (chain_well_formed _ _ Hwf').
  - simpl. unfold pool_after_pop. apply list_lookup_insert_eq.
    rewrite !length_insert. eapply lookup_lt_Some; eauto.
Qed.

(** X9. On every reachable list a [compare_try_pop] whose admission decrement
    is kept and whose expected key equals the key of the head returns true
    with the head's pair, unlinks exactly the head and lowers the counter by
    one. *)
Theorem compare_try_pop_match_pops (s : concurrent_sorted_list) (fuel : nat)
    (out : key_type * value_type) (h : addr) (kv : key_type * value_type)
    (tl : list (addr * (key_type * value_type))) :
  reachable s -> admitted (mySize s) = true ->
  chain s = (h, kv) :: tl -> fst out = fst kv ->
  exists s',
    compare_try_pop (S fuel) out s = Done ((true, kv), s') /\
    chain s' = tl /\
    mySize s' = mySize s - 1.
Proof.
  intros Hreach Hadm Hchain Hkey.
  destruct (reachable_well_formed s Hreach) as [l Hwf].
  rewrite (chain_well_formed s l Hwf) in Hchain. subst l.
  destruct (try_pop_internal_takes_head fuel (fst out) (snd out) true s h kv tl Hwf Hadm)
    as (s' & Hrun & Hwf' & Hsz' & _).
  { rewrite Hkey, Z.eqb_refl. reflexivity. }
  exists s'. split_and!; [exact Hrun| |exact Hsz'].
  apply (chain_well_formed _ _ Hwf').
Qed.

(** X10. Round trip: on a reachable list whose counter is below 2^63,
    inserting a pair whose key is less than every key in the chain and then
    calling [try_pop] hands back that pair and restores the chain and the
    counter. *)
Theorem insert_then_try_pop_round_trip (s : concurrent_sorted_list)
    (fuel : nat) (kv out : key_type * value_type) :
  reachable s -> mySize s < 2 ^ 63 ->
  Forall (fun x => fst kv < fst (snd x)) (chain s) ->
  (length (chain s) < fuel)%nat ->
  exists s1 s2,
    insert fuel kv s = Done (tt, s1) /\
    try_pop fuel out s1 = Done ((true, kv), s2) /\
    chain_pairs s2 = chain_pairs s /\
    mySize s2 = mySize s.
Proof.
  intros Hreach Hbound Hmin Hfuel.
  destruct (reachable_well_formed s Hreach) as [l Hwf].
  rewrite (chain_well_formed s l Hwf) in Hmin, Hfuel.
  destruct (insert_well_formed fuel kv s l Hwf Hfuel)
    as (s1 & la & lb & Hrun & -> & Hle & _ & Hwf1 & Hsz1 & _).
  assert (la = []) as ->.
  { destruct la as [|x la]; [done|].
    inversion Hle; subst. inversion Hmin; subst. lia. }
  simpl in *.
  pose proof Hwf as [_ _ _ [Hsz Hmax] _].
  change (2 ^ 63) with 9223372036854775808 in Hbound.
  assert (Hsz1' : mySize s1 = mySize s + 1).
  { rewrite Hsz1. apply wrap_small. unfold size_max.
    change (2 ^ 64) with 18446744073709551616. lia. }
  assert (Hadm : admitted (mySize s1) = true).
  { apply admitted_spec.
    - rewrite Hsz1'. unfold size_max.
      change (2 ^ 64) with 18446744073709551616. lia.
    - rewrite Hsz1'. change (2 ^ 63) with 9223372036854775808. lia. }
  destruct fuel as [|fuel]; [lia|].
  destruct (try_pop_internal_takes_head fuel (fst out) (snd out) false s1 _ kv lb Hwf1 Hadm)
    as (s2 & Hpop & Hwf2 & Hsz2 & _); [reflexivity|].
  exists s1, s2. split_and!; [exact Hrun|exact Hpop| |lia].
  unfold chain_pairs.
  rewrite (chain_well_formed s2 _ Hwf2), (chain_well_formed s _ Hwf). reflexivity.
Qed.

(** X11. [unsafe_clear] on a reachable list: when the counter is zero the
    chain stays as it is, whatever it holds; otherwise exactly the former
    head stays linked and every other node is cut off. The counter is zero
    afterwards. *)
Theorem unsafe_clear_leaves_head (s : concurrent_sorted_list) :
  reachable s ->
  exists s',
    unsafe_clear s = Done (tt, s') /\
    chain s' = (if mySize s =? 0 then chain s else take 1 (chain s)) /\
    mySize s' = 0.
Proof.
  intros Hreach.
  destruct (reachable_well_formed s Hreach) as [l Hwf].
  destruct (unsafe_clear_well_formed s l Hwf) as (s' & Hrun & Hsz & _ & _ & Hwf').
  exists s'. split_and!; [exact Hrun| |exact Hsz].
  rewrite (chain_well_formed s' _ Hwf'), (chain_well_formed s l Hwf). reflexivity.
Qed.

(** With [matchKey] false the expected key plays no part in the loop. *)
Lemma try_pop_loop_ignores_key fuel : forall k k' s,
  try_pop_loop fuel k false s = try_pop_loop fuel k' false s.
Proof.
  induction fuel as [|fuel IH]; intros k k' s; [reflexivity|].
  rewrite !try_pop_loop_S. unfold bind.
  destruct (front_sentry s) as [[sentry s0]| |]; [|reflexivity|reflexivity].
  destruct (load sentry s0) as [[head s1]| |]; [|reflexivity|reflexivity].
  destruct (arrow (ptr_of head) s1) as [[h s2]| |]; [|reflexivity|reflexivity].
  destruct (get_node h s2) as [[hn s3]| |]; [|reflexivity|reflexivity].
  cbn [andb].
  destruct (load_and_tag h s3) as [[splice s4]| |]; [|reflexivity|reflexivity].
  destruct (compare_exchange_strong sentry head (clear_tag splice) s4)
    as [[ok s5]| |]; [|reflexivity|reflexivity].
  destruct ((if ok then store h (set_tag null_ptr) else ret tt) s5)
    as [[u s6]| |]; [|reflexivity|reflexivity].
  destruct (negb (get_tag splice)); [reflexivity|apply IH].
Qed.

(** X12. The two [try_pop] overloads agree on every state and for every
    fuel: [try_pop(value&)] returns the flag and the value of
    [try_pop(pair&)] and leaves the same list, whatever key the pair
    held. *)
Theorem try_pop_overloads_agree (s : concurrent_sorted_list) (fuel : nat)
    (k : key_type) (v : value_type) :
  try_pop_value fuel v s
  = match try_pop fuel (k, v) s with
    | Done (r, s') => Done ((fst r, snd (snd r)), s')
    | Fault => Fault
    | OutOfFuel => OutOfFuel
    end.
Proof.
  unfold try_pop_value, try_pop, try_pop_internal, bind. cbn [fst snd].
  destruct (fetch_sub 1 s) as [[old s0]| |]; [|reflexivity|reflexivity].
  cbv zeta.
  destruct (wrap (size_max - wrap (old - 1)) <? size_max / 2).
  - destruct (fetch_add 1 s0) as [[u s1]| |]; reflexivity.
  - rewrite (try_pop_loop_ignores_key fuel 0 k s0).
    destruct (try_pop_loop fuel k false s0) as [[[key|head] s1]| |];
      [reflexivity| |reflexivity|reflexivity].
    destruct (arrow (ptr_of head) s1) as [[h s2]| |]; [|reflexivity|reflexivity].
    destruct (get_node h s2) as [[hn s3]| |]; reflexivity.
Qed.

(** ** A pop overtaken by another operation *)

Lemma try_pop_internal_cut fuel k v m s :
  try_pop_internal (S fuel) k v m s
  = (r <- try_pop_internal_begin k v m ;
     match r with
     | inl res => ret res
     | inr (head, splice) => try_pop_internal_end fuel k v m head splice
     end) s.
Proof.
  destruct s as [sz pool sen].
  unfold try_pop_internal, try_pop_internal_begin, try_pop_internal_end.
  rewrite try_pop_loop_S. mstep.
  destruct (wrap (size_max - wrap (sz - 1)) <? size_max / 2); [reflexivity|].
  mstep.
  destruct (pool !! sen) as [sn|] eqn:Hs; mstep; [|reflexivity].
  destruct (ptr_of (myNext sn)) as [h|] eqn:Hp; mstep; [|reflexivity].
  destruct (pool !! h) as [hn|] eqn:Hh; mstep; [|reflexivity].
  destruct (m && negb (k =? fst (myKeyValuePair hn))); [reflexivity|].
  mstep. rewrite Hh. mstep. rewrite Hp. mstep.
  repeat match goal with
  | |- context [@lookup nat node (list node) _ ?i ?x] =>
      destruct (x !! i) eqn:?; mstep; try rewrite Hp; try reflexivity
  | |- context [tagged_ptr_eqb ?a ?b] =>
      destruct (tagged_ptr_eqb a b) eqn:?; mstep; try reflexivity
  | |- context [negb ?a] =>
      destruct (negb a) eqn:?; mstep; try rewrite Hp; try reflexivity
  end.
Qed.

(** The first piece on a list whose head is there: the counter is
    decremented, the head's [myNext] is tagged, and the locals are the
    sentinel's and the head's former [myNext]. *)
Lemma try_pop_internal_begin_tags k v m sz pool sen sn h hn :
  pool !! sen = Some sn -> ptr_of (myNext sn) = Some h ->
  pool !! h = Some hn ->
  0 <= sz <= size_max -> admitted sz = true ->
  m && negb (k =? fst (myKeyValuePair hn)) = false ->
  try_pop_internal_begin k v m (List_ sz pool sen)
  = Done (inr (myNext sn, myNext hn),
          List_ (sz - 1)
                (<[h := Node (myKeyValuePair hn) (set_tag (myNext hn))]> pool) sen).
Proof.
  intros Hs Hp Hh Hsz Hadm Hm.
  apply admitted_spec in Hadm as Hrange; [|done].
  unfold admitted in Hadm. apply negb_true_iff in Hadm.
  unfold try_pop_internal_begin. mstep. rewrite Hadm. mstep.
  rewrite Hs. mstep. rewrite Hp. mstep. rewrite Hh. mstep. rewrite Hm.
  mstep. rewrite Hh. mstep. rewrite wrap_small by lia. reflexivity.
Qed.

(** One turn of the loop on a head that another pop has tagged: the turn
    unlinks that head on the other pop's behalf and the loop goes on. *)
Lemma try_pop_loop_helps fuel k m sz pool sen sn h hn :
  pool !! sen = Some sn -> ptr_of (myNext sn) = Some h ->
  pool !! h = Some hn -> h <> sen -> tag_of (myNext hn) = true ->
  m && negb (k =? fst (myKeyValuePair hn)) = false ->
  try_pop_loop (S fuel) k m (List_ sz pool sen)
  = try_pop_loop fuel k m (List_ sz (pool_after_pop pool sen h sn hn) sen).
Proof.
  intros Hs Hp Hh Hne Htag Hm.
  pose proof (lookup_lt_Some _ _ _ Hs) as Hlts.
  pose proof (lookup_lt_Some _ _ _ Hh) as Hlth.
  rewrite try_pop_loop_S. mstep.
  rewrite Hs. mstep. rewrite Hp. mstep. rewrite Hh. mstep. rewrite Hm.
  mstep. rewrite Hh. mstep.
  rewrite list_lookup_insert_ne by done. rewrite Hs. mstep.
  rewrite tagged_ptr_eqb_refl. mstep.
  rewrite list_lookup_insert_ne by done. rewrite Hs. mstep.
  rewrite list_lookup_insert_ne by done.
  rewrite list_lookup_insert_eq by done. mstep.
  rewrite Htag. reflexivity.
Qed.

Lemma try_pop_internal_helps fuel k v m sz pool sen sn h hn :
  pool !! sen = Some sn -> ptr_of (myNext sn) = Some h ->
  pool !! h = Some hn -> h <> sen -> tag_of (myNext hn) = true ->
  m && negb (k =? fst (myKeyValuePair hn)) = false ->
  admitted sz = true ->
  try_pop_internal (S fuel) k v m (List_ sz pool sen)
  = try_pop_internal fuel k v m (List_ sz (pool_after_pop pool sen h sn hn) sen).
Proof.
  intros Hs Hp Hh Hne Htag Hm Hadm.
  unfold admitted in Hadm. apply negb_true_iff in Hadm.
  unfold try_pop_internal. mstep. rewrite Hadm.
  rewrite (try_pop_loop_helps fuel k m _ pool sen sn h hn) by done.
  reflexivity.
Qed.

Lemma pool_after_pop_head pool sen h sn hn :
  pool !! h = Some hn ->
  pool_after_pop pool sen h sn hn !! h
  = Some (Node (myKeyValuePair hn)
               (publish (set_tag (myNext hn)) (set_tag null_ptr))).
Proof.
  intros Hh. unfold pool_after_pop. apply list_lookup_insert_eq.
  rewrite !length_insert. eapply lookup_lt_Some; eauto.
Qed.

Lemma pool_after_pop_other pool sen h sn hn a :
  a <> h -> a <> sen -> pool_after_pop pool sen h sn hn !! a = pool !! a.
Proof.
  intros Hh Hs. unfold pool_after_pop.
  rewrite !list_lookup_insert_ne by done. reflexivity.
Qed.

(** A snapshot taken before a publish does not match the slot afterwards. *)
Lemma tagged_ptr_eqb_stale (p q : tagged_ptr) :
  (version_of q < version_of p)%nat -> tagged_ptr_eqb p q = false.
Proof.
  intros Hv. unfold tagged_ptr_eqb.
  destruct (Nat.eqb_spec (version_of p) (version_of q)); [lia|].
  apply andb_false_r.
Qed.

(** The second piece of a pop whose head was its own to take, when the
    sentinel's [myNext] is no longer the snapshot: the compare-exchange
    fails, nothing is written, and the call returns the pair of its head. *)
Lemma try_pop_internal_end_overtaken fuel k v m head splice sz pool sen sn h hn :
  pool !! sen = Some sn -> tagged_ptr_eqb (myNext sn) head = false ->
  tag_of splice = false -> ptr_of head = Some h -> pool !! h = Some hn ->
  try_pop_internal_end fuel k v m head splice (List_ sz pool sen)
  = Done ((true, myKeyValuePair hn), List_ sz pool sen).
Proof.
  intros Hs Hstale Hmine Hp Hh.
  unfold try_pop_internal_end. mstep. rewrite Hp. mstep. rewrite Hs. mstep.
  rewrite Hstale. mstep. rewrite Hmine. cbn [negb]. mstep. rewrite Hp. mstep.
  rewrite Hh. mstep. destruct (myKeyValuePair hn). reflexivity.
Qed.

(** X13. Two overlapping pops. On a reachable list with at least two nodes
    and a counter of at least two, let a first [try_pop] run up to the
    tagging of the head, then a second [try_pop] run from start to end, then
    the first one finish. The second call finds the head tagged, unlinks it
    on behalf of the first, and hands out the second node; the first call's
    compare-exchange fails and it hands out the first node. Both return
    true, the chain is the tail after the two nodes, and the counter is two
    lower. *)
Theorem overlapping_pops_take_distinct_nodes (s : concurrent_sorted_list)
    (fuelA fuelB : nat) (outA outB : key_type * value_type)
    (h1 h2 : addr) (kv1 kv2 : key_type * value_type)
    (tl : list (addr * (key_type * value_type))) :
  reachable s -> chain s = (h1, kv1) :: (h2, kv2) :: tl ->
  2 <= mySize s <= 2 ^ 63 ->
  exists head splice s1 s2,
    try_pop_internal_begin (fst outA) (snd outA) false s
    = Done (inr (head, splice), s1) /\
    try_pop (S (S fuelB)) outB s1 = Done ((true, kv2), s2) /\
    try_pop_internal_end fuelA (fst outA) (snd outA) false head splice s2
    = Done ((true, kv1), s2) /\
    chain s2 = tl /\
    mySize s2 = mySize s - 2.
Proof.
  intros Hreach Hchain Hsize.
  destruct (reachable_well_formed s Hreach) as [l Hwf].
  rewrite (chain_well_formed s l Hwf) in Hchain. subst l.
  destruct Hwf as [[skv Hpath] Hnd Hsort [Hsz Hmax] Hlen].
  destruct s as [sz pool sen]. simpl in *.
  change (2 ^ 63) with 9223372036854775808 in Hsize.
  destruct Hpath as (_ & snx & Hs & Hst & Hp1 & hx1 & Hh1 & Ht1 & Hp2 & hx2 & Hh2 & Ht2 & Hl).
  apply NoDup_cons in Hnd as [Hsen Hnd].
  apply NoDup_cons in Hnd as [Hh1l Hnd].
  apply NoDup_cons in Hnd as [Hh2l Hnd].
  apply not_elem_of_cons in Hsen as [Hne1 Hsen].
  apply not_elem_of_cons in Hsen as [Hne2 Hsen].
  apply not_elem_of_cons in Hh1l as [Hne12 Hh1l].
  assert (Hadm1 : admitted sz = true).
  { apply admitted_spec; [lia|]. change (2 ^ 63) with 9223372036854775808. lia. }
  assert (Hadm2 : admitted (sz - 1) = true).
  { apply admitted_spec; [lia|]. change (2 ^ 63) with 9223372036854775808. lia. }
  set (pool1 := <[h1 := Node kv1 (set_tag hx1)]> pool).
  set (sn2 := Node skv (publish snx (clear_tag (set_tag hx1)))).
  set (pool2 := pool_after_pop pool1 sen h1 (Node skv snx) (Node kv1 (set_tag hx1))).
  set (pool3 := pool_after_pop pool2 sen h2 sn2 (Node kv2 hx2)).
  assert (Hs1 : pool1 !! sen = Some (Node skv snx)).
  { unfold pool1. rewrite list_lookup_insert_ne by done. exact Hs. }
  assert (Hh11 : pool1 !! h1 = Some (Node kv1 (set_tag hx1))).
  { unfold pool1. apply list_lookup_insert_eq. eapply lookup_lt_Some; eauto. }
  assert (Hs2 : pool2 !! sen = Some sn2).
  { unfold pool2. rewrite (pool_after_pop_sentry pool1 sen h1 _ _ Hs1) by done.
    reflexivity. }
  assert (Hh22 : pool2 !! h2 = Some (Node kv2 hx2)).
  { unfold pool2. rewrite pool_after_pop_other by done.
    unfold pool1. rewrite list_lookup_insert_ne by done. exact Hh2. }
  assert (Hs3 : pool3 !! sen
                = Some (Node skv (publish (myNext sn2) (clear_tag hx2)))).
  { unfold pool3. rewrite (pool_after_pop_sentry pool2 sen h2 _ _ Hs2) by done.
    reflexivity. }
  assert (Hh13 : pool3 !! h1
                 = Some (Node kv1 (publish (set_tag (set_tag hx1)) (set_tag null_ptr)))).
  { unfold pool3. rewrite pool_after_pop_other by done.
    unfold pool2. rewrite (pool_after_pop_head pool1 sen h1 _ _ Hh11). reflexivity. }
  exists snx, hx1, (List_ (sz - 1) pool1 sen), (List_ (sz - 1 - 1) pool3 sen).
  split_and!.
  - apply (try_pop_internal_begin_tags (fst outA) (snd outA) false sz pool sen
             (Node skv snx) h1 (Node kv1 hx1)); auto; lia.
  - unfold try_pop.
    rewrite (try_pop_internal_helps (S fuelB) (fst outB) (snd outB) false (sz - 1)
               pool1 sen (Node skv snx) h1 (Node kv1 (set_tag hx1))) by done.
    fold pool2.
    apply (try_pop_internal_takes_head_exact fuelB (fst outB) (snd outB) false
             (sz - 1) pool2 sen skv (publish snx (clear_tag (set_tag hx1)))
             h2 kv2 hx2); auto; lia.
  - apply (try_pop_internal_end_overtaken fuelA (fst outA) (snd outA) false snx hx1
             (sz - 1 - 1) pool3 sen _ h1
             (Node kv1 (publish (set_tag (set_tag hx1)) (set_tag null_ptr))) Hs3);
      auto.
    apply tagged_ptr_eqb_stale. simpl. lia.
  - apply chain_well_formed. constructor; simpl.
    + exists skv. split; [done|]. eexists. split; [exact Hs3|].
      split; [done|]. simpl.
      unfold pool3, pool2. repeat apply lseg_pool_after_pop; try done.
      unfold pool1. apply lseg_frame; done.
    + apply NoDup_cons. done.
    + inversion Hsort as [|? ? Hsort' _]; subst. inversion Hsort'; done.
    + lia.
    + unfold pool3, pool2, pool1.
      rewrite !pool_after_pop_length, length_insert. lia.
  - simpl. lia.
Qed.

(** ** An insert that overtakes a pop *)

Lemma chain_lseg sz pool sen skv l :
  lseg pool (Some sen) ((sen, skv) :: l) None -> (length l < length pool)%nat ->
  chain (List_ sz pool sen) = l.
Proof.
  intros (_ & nx & Hs & _ & Hl) Hlen.
  unfold chain. simpl. rewrite Hs. simpl. apply walk_lseg; [done|lia].
Qed.

(** One turn of the [while (current)] loop on a head that a pop has tagged
    and whose key is not above the entry's: the turn unlinks the head on the
    pop's behalf, and the rest is a [try_insert] on the list without it. *)
Lemma try_insert_helps fuel entry e en sz pool sen sn h hn :
  ptr_of entry = Some e -> pool !! e = Some en ->
  pool !! sen = Some sn -> ptr_of (myNext sn) = Some h ->
  pool !! h = Some hn -> h <> sen -> tag_of (myNext hn) = true ->
  tiny_less (fst (myKeyValuePair en)) (fst (myKeyValuePair hn)) = false ->
  try_insert (S fuel) entry (List_ sz pool sen)
  = try_insert fuel entry (List_ sz (pool_after_help pool sen h sn hn) sen).
Proof.
  intros Hpe He Hs Hp Hh Hne Htag Hless.
  pose proof (lookup_lt_Some _ _ _ Hs) as Hlts.
  pose proof (lookup_lt_Some _ _ _ Hh) as Hlth.
  assert (Hs' : pool_after_help pool sen h sn hn !! sen
                = Some (Node (myKeyValuePair sn)
                             (publish (myNext sn) (clear_tag (myNext hn))))).
  { unfold pool_after_help. rewrite list_lookup_insert_ne by done.
    apply list_lookup_insert_eq. done. }
  unfold try_insert. mstep. rewrite Hpe. mstep. rewrite Hs, Hs'. mstep.
  rewrite try_insert_loop_S, Hp. mstep. rewrite He. mstep. rewrite Hh. mstep.
  rewrite Hless. mstep. rewrite Hh. mstep. rewrite Htag. mstep.
  rewrite Hs. mstep. rewrite tagged_ptr_eqb_refl. mstep. rewrite Hs. mstep.
  rewrite list_lookup_insert_ne by done. rewrite Hh. mstep.
  fold (pool_after_help pool sen h sn hn). rewrite Hs'. mstep.
  reflexivity.
Qed.

(** [try_insert_links], with what it leaves alone: the nodes outside the
    chain, the entry apart. *)
Lemma try_insert_links_frame sz pool sen e ekv enx skv snx l :
  pool !! e = Some (Node ekv enx) ->
  pool !! sen = Some (Node skv snx) -> tag_of snx = false ->
  lseg pool (ptr_of snx) l None ->
  NoDup (sen :: fmap fst l) -> e ∉ sen :: fmap fst l ->
  exists la lb pool',
    l = la ++ lb /\
    Forall (fun x => fst (snd x) <= fst ekv) la /\
    stops_at (fst ekv) lb /\
    length pool' = length pool /\
    lseg pool' (Some sen) ((sen, skv) :: la ++ (e, ekv) :: lb) None /\
    (forall a, a <> e -> a ∉ sen :: fmap fst l -> pool' !! a = pool !! a) /\
    forall fuel, (length l < fuel)%nat ->
      try_insert fuel (TaggedPtr (Some e) false 0) (List_ sz pool sen)
      = Done (true, List_ sz pool' sen).
Proof.
  intros He Hs Hst Hl Hnd Hfresh.
  destruct (try_insert_loop_walks sz pool sen e _ He l sen skv snx Hs Hst Hl)
    as (la & lb & ip & ipkv & cur & pre & -> & Hle & Hstop & Hip & Hct & Hlb & Hpre & Hrun).
  cbn [myKeyValuePair] in *.
  set (pool1 := <[e := Node ekv (publish enx cur)]> pool).
  set (pool2 := <[ip := Node ipkv (publish cur (TaggedPtr (Some e) false 0))]> pool1).
  assert (Hfull : (sen, skv) :: la ++ lb = pre ++ (ip, ipkv) :: lb).
  { change ((sen, skv) :: la ++ lb) with (((sen, skv) :: la) ++ lb).
    rewrite Hpre, <- app_assoc. reflexivity. }
  assert (Haddrs : sen :: fmap fst (la ++ lb) = fmap fst pre ++ ip :: fmap fst lb).
  { change (sen :: fmap fst (la ++ lb)) with (fmap fst ((sen, skv) :: la ++ lb)).
    rewrite Hfull, fmap_app. reflexivity. }
  rewrite Haddrs in Hnd, Hfresh.
  apply NoDup_app in Hnd as (Hndpre & Hsep & Hndb).
  apply NoDup_cons in Hndb as [Hipb Hndb].
  assert (Hippre : ip ∉ fmap fst pre).
  { intros Hin. apply (Hsep _ Hin). left. }
  assert (Hepre : e ∉ fmap fst pre).
  { intros Hin. apply Hfresh. apply elem_of_app. left. done. }
  assert (Heip : e <> ip).
  { intros ->. apply Hfresh. apply elem_of_app. right. left. }
  assert (Heb : e ∉ fmap fst lb).
  { intros Hin. apply Hfresh. apply elem_of_app. right. right. done. }
  pose proof (lookup_lt_Some _ _ _ He) as Helt.
  pose proof (lookup_lt_Some _ _ _ Hip) as Hiplt.
  exists la, lb, pool2. split_and!; auto.
  - unfold pool2, pool1. rewrite !length_insert. reflexivity.
  - assert (Horig : lseg pool (Some sen) ((sen, skv) :: la ++ lb) None).
    { simpl. split; [done|]. exists snx. done. }
    rewrite Hfull in Horig. apply lseg_app in Horig as (m & Hm1 & Hm2).
    change ((sen, skv) :: la ++ (e, ekv) :: lb)
      with (((sen, skv) :: la) ++ (e, ekv) :: lb).
    rewrite Hpre, <- app_assoc. apply lseg_app. exists m. split.
    + unfold pool2, pool1. repeat apply lseg_frame; done.
    + simpl in Hm2. destruct Hm2 as (-> & nx & _ & _ & _).
      simpl. split; [done|]. eexists. split.
      { unfold pool2. apply list_lookup_insert_eq.
        unfold pool1. rewrite length_insert. done. }
      split; [done|]. simpl. split; [done|]. eexists. split.
      { unfold pool2, pool1. rewrite list_lookup_insert_ne by done.
        apply list_lookup_insert_eq. done. }
      split; [done|]. simpl.
      unfold pool2, pool1. repeat apply lseg_frame; done.
  - intros a Hae Hout. rewrite Haddrs in Hout.
    assert (Haip : ip <> a).
    { intros ->. apply Hout. apply elem_of_app. right. left. }
    unfold pool2, pool1. rewrite !list_lookup_insert_ne by done. reflexivity.
  - intros fuel Hfuel.
    unfold try_insert. mstep. rewrite Hs. mstep. cbn [myNext].
    rewrite Hrun by (rewrite length_app in Hfuel; lia).
    mstep. rewrite He. mstep.
    rewrite list_lookup_insert_ne by done. rewrite Hip. mstep.
    cbn [myNext myKeyValuePair]. rewrite tagged_ptr_eqb_refl. mstep.
    rewrite list_lookup_insert_ne by done. rewrite Hip. mstep.
    reflexivity.
Qed.

(** X14. A pop overtaken by an insert behind its head. On a reachable list
    let a [try_pop] run up to the tagging of the head, then an [insert] of
    a pair whose key is not below the head's run from start to end, then the
    pop finish. The insert meets the tagged head on its walk, unlinks it on
    the pop's behalf and links its node into the rest of the chain at its
    sorted place; the pop's compare-exchange fails and it hands out the head.
    The counter is back at its value before the two calls. *)
Theorem insert_helps_pending_pop (s : concurrent_sorted_list)
    (fuel fuelA : nat) (outA kv : key_type * value_type)
    (h1 : addr) (kv1 : key_type * value_type)
    (tl : list (addr * (key_type * value_type))) :
  reachable s -> chain s = (h1, kv1) :: tl ->
  admitted (mySize s) = true -> fst kv1 <= fst kv ->
  (length (chain s) < fuel)%nat ->
  exists head splice s1 s2 la lb,
    try_pop_internal_begin (fst outA) (snd outA) false s
    = Done (inr (head, splice), s1) /\
    insert fuel kv s1 = Done (tt, s2) /\
    try_pop_internal_end fuelA (fst outA) (snd outA) false head splice s2
    = Done ((true, kv1), s2) /\
    map snd tl = la ++ lb /\
    chain_pairs s2 = la ++ kv :: lb /\
    Forall (fun p => fst p <= fst kv) la /\
    Forall (fun p => fst kv < fst p) lb /\
    mySize s2 = mySize s.
Proof.
  intros Hreach Hchain Hadm Hkey Hfuel.
  destruct (reachable_well_formed s Hreach) as [l Hwf].
  rewrite (chain_well_formed s l Hwf) in Hchain, Hfuel. subst l.
  destruct Hwf as [[skv Hpath] Hnd Hsort [Hsz Hmax] Hlen].
  destruct s as [sz pool sen]. simpl in *.
  apply admitted_spec in Hadm as Hrange; [|lia].
  destruct Hpath as (_ & snx & Hs & Hst & Hp1 & hx1 & Hh1 & Ht1 & Hl).
  apply NoDup_cons in Hnd as [Hsen Hnd].
  apply NoDup_cons in Hnd as [Hh1l Hnd].
  apply not_elem_of_cons in Hsen as [Hne1 Hsen].
  pose proof (lookup_lt_Some _ _ _ Hs) as Hslt.
  pose proof (lookup_lt_Some _ _ _ Hh1) as Hh1lt.
  set (e := length pool).
  set (pool1 := <[h1 := Node kv1 (set_tag hx1)]> pool).
  set (pool1a := pool1 ++ [Node (key_min, value_default) null_ptr]).
  set (pool1b := <[e := Node kv null_ptr]> pool1a).
  set (pool2 := pool_after_help pool1b sen h1 (Node skv snx) (Node kv1 (set_tag hx1))).
  assert (Hlen1 : length pool1 = e) by (unfold pool1; apply length_insert).
  assert (He0 : pool1a !! e = Some (Node (key_min, value_default) null_ptr)).
  { unfold pool1a. apply list_lookup_middle. done. }
  assert (Hs1b : pool1b !! sen = Some (Node skv snx)).
  { unfold pool1b, pool1a, pool1. rewrite list_lookup_insert_ne by (unfold e; lia).
    rewrite lookup_app_l by (rewrite length_insert; done).
    rewrite list_lookup_insert_ne by done. exact Hs. }
  assert (Hh1b : pool1b !! h1 = Some (Node kv1 (set_tag hx1))).
  { unfold pool1b, pool1a, pool1. rewrite list_lookup_insert_ne by (unfold e; lia).
    rewrite lookup_app_l by (rewrite length_insert; done).
    apply list_lookup_insert_eq. done. }
  assert (He1b : pool1b !! e = Some (Node kv null_ptr)).
  { unfold pool1b. apply list_lookup_insert_eq. eapply lookup_lt_Some; eauto. }
  assert (Hetl : e ∉ fmap fst tl).
  { intros Hin. pose proof (lseg_bound _ _ _ _ _ Hl Hin). unfold e in *. lia. }
  assert (He2 : pool2 !! e = Some (Node kv null_ptr)).
  { unfold pool2, pool_after_help.
    rewrite !list_lookup_insert_ne by (unfold e; lia). exact He1b. }
  assert (Hs2 : pool2 !! sen
                = Some (Node skv (publish snx (clear_tag (set_tag hx1))))).
  { unfold pool2, pool_after_help. rewrite list_lookup_insert_ne by done.
    apply list_lookup_insert_eq. eapply lookup_lt_Some; eauto. }
  assert (Hh12 : pool2 !! h1
                 = Some (Node kv1 (publish (set_tag hx1) (set_tag null_ptr)))).
  { unfold pool2, pool_after_help. apply list_lookup_insert_eq.
    rewrite length_insert. eapply lookup_lt_Some; eauto. }
  assert (Hl2 : lseg pool2 (ptr_of hx1) tl None).
  { unfold pool2, pool_after_help, pool1b, pool1a, pool1.
    repeat apply lseg_frame; try done. apply lseg_grow.
    apply lseg_frame; done. }
  assert (Hfresh : e ∉ sen :: fmap fst tl).
  { apply not_elem_of_cons. split; [unfold e; lia|done]. }
  destruct (try_insert_links_frame (wrap (sz - 1)) pool2 sen e kv null_ptr skv
              (publish snx (clear_tag (set_tag hx1))) tl He2 Hs2 eq_refl Hl2)
    as (la & lb & pool' & -> & Hle & Hstop & Hlen' & Hpath' & Hframe & Hrun);
    [apply NoDup_cons; done|done|].
  inversion Hsort as [|? ? Hsort' Hall]; subst.
  rewrite fmap_app in Hsort'.
  destruct (sorted_insert_keys _ _ (fst kv) Hsort') as [_ Hgt].
  { apply Forall_fmap. exact Hle. }
  { destruct lb as [|x lb]; simpl; [done|]. exact Hstop. }
  assert (Hh1' : pool' !! h1
                 = Some (Node kv1 (publish (set_tag hx1) (set_tag null_ptr)))).
  { rewrite Hframe; [exact Hh12|unfold e; lia|].
    apply not_elem_of_cons. split; [done|]. exact Hh1l. }
  pose proof Hpath' as (_ & snx' & Hs' & _ & Hfirst).
  exists snx, hx1, (List_ (sz - 1) pool1 sen), (List_ sz pool' sen),
    (map snd la), (map snd lb).
  split_and!.
  - apply (try_pop_internal_begin_tags (fst outA) (snd outA) false sz pool sen
             (Node skv snx) h1 (Node kv1 hx1)); auto; lia.
  - destruct fuel as [|fuel]; [lia|].
    unfold insert. mstep. rewrite Hlen1. fold pool1a. rewrite He0. mstep.
    fold pool1b. cbn [insert_retry]. mstep.
    rewrite (try_insert_helps fuel _ e (Node kv null_ptr) _ pool1b sen
               (Node skv snx) h1 (Node kv1 (set_tag hx1))); auto.
    + fold pool2. rewrite <- (wrap_small (sz - 1)) by lia.
      rewrite Hrun by (simpl in Hfuel; lia).
      mstep. rewrite (wrap_small (sz - 1)) by lia.
      rewrite wrap_small by lia. do 3 f_equal. lia.
    + simpl. unfold tiny_less. apply Z.ltb_ge. exact Hkey.
  - apply (try_pop_internal_end_overtaken fuelA (fst outA) (snd outA) false snx hx1
             sz pool' sen _ h1
             (Node kv1 (publish (set_tag hx1) (set_tag null_ptr))) Hs'); auto.
    unfold tagged_ptr_eqb. cbn [myNext]. rewrite Hp1.
    assert (Hfst : exists a, ptr_of snx' = Some a /\ a <> h1).
    { destruct la as [|[a akv] la]; simpl in Hfirst.
      - exists e. split; [apply Hfirst|unfold e; lia].
      - exists a. split; [apply Hfirst|].
        intros ->. apply Hh1l. simpl. left. }
    destruct Hfst as (a & -> & Hneq). simpl.
    destruct (Nat.eqb_spec a h1); [done|reflexivity].
  - apply map_app.
  - unfold chain_pairs.
    rewrite (chain_lseg sz pool' sen skv _ Hpath').
    + rewrite map_app. reflexivity.
    + rewrite Hlen'. unfold pool2, pool_after_help, pool1b, pool1a, pool1.
      rewrite !length_insert, !length_app, length_insert in *. simpl in *. lia.
  - change (map snd la) with (snd <$> la). rewrite Forall_fmap. exact Hle.
  - change (map snd lb) with (snd <$> lb). rewrite Forall_fmap.
    rewrite Forall_fmap in Hgt. exact Hgt.
  - reflexivity.
Qed.

(** X15. A pop overtaken by an insert in front of its head. On a reachable
    list let a [try_pop] run up to the tagging of the head, then an [insert]
    of a pair whose key is below the head's run from start to end, then the
    pop finish. The insert links its node between the sentinel and the
    tagged head; the pop's compare-exchange fails, nothing unlinks the head,
    and the pop hands out the head's pair all the same. After both calls the
    head is still the second node of the chain, with its tag set, while the
    counter is at its value before the two calls; once a later [try_pop] has
    taken the new node, [try_peek_top_key] reports the key of the pair that
    was handed out before. *)
Theorem insert_in_front_of_pending_pop (s : concurrent_sorted_list)
    (fuel fuelA fuelC : nat) (outA outC kv : key_type * value_type)
    (out : key_type) (h1 : addr) (kv1 : key_type * value_type)
    (tl : list (addr * (key_type * value_type))) :
  reachable s -> chain s = (h1, kv1) :: tl ->
  admitted (mySize s) = true -> fst kv < fst kv1 -> (0 < fuel)%nat ->
  exists head splice s1 s2 s3 nx,
    try_pop_internal_begin (fst outA) (snd outA) false s
    = Done (inr (head, splice), s1) /\
    insert fuel kv s1 = Done (tt, s2) /\
    try_pop_internal_end fuelA (fst outA) (snd outA) false head splice s2
    = Done ((true, kv1), s2) /\
    chain s2 = (length (myMemoryPool s), kv) :: (h1, kv1) :: tl /\
    myMemoryPool s2 !! h1 = Some (Node kv1 nx) /\ tag_of nx = true /\
    mySize s2 = mySize s /\
    try_pop (S fuelC) outC s2 = Done ((true, kv), s3) /\
    try_peek_top_key out s3 = Done ((true, fst kv1), s3) /\
    mySize s3 = mySize s - 1.
Proof.
  intros Hreach Hchain Hadm Hkey Hfuel.
  destruct (reachable_well_formed s Hreach) as [l Hwf].
  rewrite (chain_well_formed s l Hwf) in Hchain. subst l.
  destruct Hwf as [[skv Hpath] Hnd Hsort [Hsz Hmax] Hlen].
  destruct s as [sz pool sen]. simpl in *.
  apply admitted_spec in Hadm as Hrange; [|lia].
  destruct Hpath as (_ & snx & Hs & Hst & Hp1 & hx1 & Hh1 & Ht1 & Hl).
  apply NoDup_cons in Hnd as [Hsen Hnd].
  apply NoDup_cons in Hnd as [Hh1l Hnd].
  apply not_elem_of_cons in Hsen as [Hne1 Hsen].
  pose proof (lookup_lt_Some _ _ _ Hs) as Hslt.
  pose proof (lookup_lt_Some _ _ _ Hh1) as Hh1lt.
  set (e := length pool).
  set (entry := TaggedPtr (Some e) false 0).
  set (pool1 := <[h1 := Node kv1 (set_tag hx1)]> pool).
  set (pool1a := pool1 ++ [Node (key_min, value_default) null_ptr]).
  set (pool1b := <[e := Node kv null_ptr]> pool1a).
  set (pool1c := <[e := Node kv (publish null_ptr snx)]> pool1b).
  set (pool1d := <[sen := Node skv (publish snx entry)]> pool1c).
  assert (Hlen1 : length pool1 = e) by (unfold pool1; apply length_insert).
  assert (Hlen1a : length pool1a = S e).
  { unfold pool1a. rewrite length_app, Hlen1. simpl. lia. }
  assert (He0 : pool1a !! e = Some (Node (key_min, value_default) null_ptr)).
  { unfold pool1a. apply list_lookup_middle. done. }
  assert (Hs1b : pool1b !! sen = Some (Node skv snx)).
  { unfold pool1b, pool1a, pool1. rewrite list_lookup_insert_ne by (unfold e; lia).
    rewrite lookup_app_l by (rewrite length_insert; done).
    rewrite list_lookup_insert_ne by done. exact Hs. }
  assert (Hh1b : pool1b !! h1 = Some (Node kv1 (set_tag hx1))).
  { unfold pool1b, pool1a, pool1. rewrite list_lookup_insert_ne by (unfold e; lia).
    rewrite lookup_app_l by (rewrite length_insert; done).
    apply list_lookup_insert_eq. done. }
  assert (He1b : pool1b !! e = Some (Node kv null_ptr)).
  { unfold pool1b. apply list_lookup_insert_eq. lia. }
  assert (Hs1c : pool1c !! sen = Some (Node skv snx)).
  { unfold pool1c. rewrite list_lookup_insert_ne by (unfold e; lia). exact Hs1b. }
  assert (Hsd : pool1d !! sen = Some (Node skv (publish snx entry))).
  { unfold pool1d. apply list_lookup_insert_eq.
    unfold pool1c, pool1b. rewrite !length_insert. lia. }
  assert (Hed : pool1d !! e = Some (Node kv (publish null_ptr snx))).
  { unfold pool1d. rewrite list_lookup_insert_ne by (unfold e; lia).
    unfold pool1c. apply list_lookup_insert_eq.
    unfold pool1b. rewrite length_insert. lia. }
  assert (Hh1d : pool1d !! h1 = Some (Node kv1 (set_tag hx1))).
  { unfold pool1d, pool1c. rewrite !list_lookup_insert_ne by (unfold e; lia || done).
    exact Hh1b. }
  assert (Hetl : e ∉ fmap fst tl).
  { intros Hin. pose proof (lseg_bound _ _ _ _ _ Hl Hin). unfold e in *. lia. }
  assert (Hld : lseg pool1d (ptr_of hx1) tl None).
  { unfold pool1d, pool1c, pool1b, pool1a, pool1.
    repeat apply lseg_frame; try done. apply lseg_grow.
    apply lseg_frame; done. }
  assert (Hlend : length pool1d = S (S (e - 1))).
  { unfold pool1d, pool1c, pool1b. rewrite !length_insert. lia. }
  set (pool3 := pool_after_pop pool1d sen e (Node skv (publish snx entry))
                  (Node kv (publish null_ptr snx))).
  exists snx, hx1, (List_ (sz - 1) pool1 sen), (List_ sz pool1d sen),
    (List_ (sz - 1) pool3 sen), (set_tag hx1).
  split_and!.
  - apply (try_pop_internal_begin_tags (fst outA) (snd outA) false sz pool sen
             (Node skv snx) h1 (Node kv1 hx1)); auto; lia.
  - destruct fuel as [|fuel]; [lia|].
    unfold insert. mstep. rewrite Hlen1. fold pool1a. rewrite He0. mstep.
    fold pool1b. cbn [insert_retry]. unfold try_insert. mstep.
    rewrite Hs1b. mstep. rewrite try_insert_loop_S, Hp1. mstep.
    rewrite He1b. mstep. rewrite Hh1b. mstep.
    unfold tiny_less. apply Z.ltb_lt in Hkey. rewrite Hkey. mstep.
    rewrite He1b. mstep. fold pool1c. rewrite Hs1c. mstep.
    rewrite tagged_ptr_eqb_refl. mstep. rewrite Hs1c. mstep.
    fold entry. fold pool1d. rewrite wrap_small by lia.
    do 3 f_equal. lia.
  - apply (try_pop_internal_end_overtaken fuelA (fst outA) (snd outA) false snx hx1
             sz pool1d sen _ h1 (Node kv1 (set_tag hx1)) Hsd); auto.
    unfold tagged_ptr_eqb. cbn [myNext]. rewrite Hp1. simpl.
    destruct (Nat.eqb_spec e h1); [unfold e in *; lia|reflexivity].
  - unfold chain. simpl. rewrite Hsd. simpl. rewrite Hlend. cbn [walk].
    rewrite Hed. cbn [myKeyValuePair myNext publish ptr_of]. rewrite Hp1.
    rewrite Hh1d. cbn [myKeyValuePair myNext set_tag ptr_of].
    do 2 f_equal. apply walk_lseg; [done|]. unfold e. lia.
  - exact Hh1d.
  - reflexivity.
  - reflexivity.
  - unfold try_pop.
    apply (try_pop_internal_takes_head_exact fuelC (fst outC) (snd outC) false
             sz pool1d sen skv (publish snx entry) e kv (publish null_ptr snx));
      auto; try lia.
  - unfold try_peek_top_key. mstep.
    unfold pool3. rewrite (pool_after_pop_sentry pool1d sen e _ _ Hsd)
      by (unfold e; lia).
    mstep. cbn [publish clear_tag ptr_of]. rewrite Hp1. mstep.
    rewrite pool_after_pop_other by (unfold e; lia || done).
    rewrite Hh1d. reflexivity.
  - reflexivity.
Qed.

(** ** The list as a priority queue *)

Lemma place_split (kv : key_type * value_type) (la lb : list (key_type * value_type)) :
  Forall (fun p => fst p <= fst kv) la -> Forall (fun p => fst kv < fst p) lb ->
  place kv (la ++ lb) = la ++ kv :: lb.
Proof.
  intros Hla Hlb. induction la as [|x la IH]; simpl.
  - destruct lb as [|y lb]; [reflexivity|]. simpl.
    inversion Hlb; subst. unfold tiny_less.
    destruct (Z.ltb_spec (fst kv) (fst y)); [reflexivity|lia].
  - inversion Hla; subst. unfold tiny_less.
    destruct (Z.ltb_spec (fst kv) (fst x)); [lia|].
    f_equal. apply IH. done.
Qed.

Lemma length_place (kv : key_type * value_type) (acc : list (key_type * value_type)) :
  length (place kv acc) = S (length acc).
Proof.
  induction acc as [|x acc IH]; simpl; [reflexivity|].
  destruct (tiny_less (fst kv) (fst x)); simpl; [reflexivity|].
  rewrite IH. reflexivity.
Qed.

Lemma length_fold_place (kvs : list (key_type * value_type)) :
  forall acc : list (key_type * value_type),
    length (fold_left (fun acc kv => place kv acc) kvs acc)
    = (length acc + length kvs)%nat.
Proof.
  induction kvs as [|kv kvs IH]; intros acc; simpl; [lia|].
  rewrite IH, length_place. lia.
Qed.

Lemma place_permutation (kv : key_type * value_type)
    (l : list (key_type * value_type)) :
  place kv l ≡ₚ kv :: l.
Proof.
  induction l as [|x l IH]; simpl; [reflexivity|].
  destruct (tiny_less (fst kv) (fst x)); [reflexivity|].
  eapply perm_trans; [apply perm_skip; exact IH|apply perm_swap].
Qed.

Lemma place_sorted (kv : key_type * value_type)
    (l : list (key_type * value_type)) :
  StronglySorted (fun a b => fst a <= fst b) l ->
  StronglySorted (fun a b => fst a <= fst b) (place kv l).
Proof.
  induction 1 as [|x l Hs IH Hall]; simpl.
  - constructor; constructor.
  - unfold tiny_less. destruct (Z.ltb_spec (fst kv) (fst x)).
    + constructor; [constructor; done|].
      constructor; [lia|]. eapply Forall_impl; [exact Hall|].
      simpl. intros; lia.
    + constructor; [exact IH|].
      apply Forall_forall. intros y Hy. apply list_elem_of_In in Hy.
      apply (Permutation_in _ (place_permutation kv l)) in Hy.
      destruct Hy as [<-|Hy]; [done|].
      rewrite Forall_forall in Hall. apply Hall. apply list_elem_of_In. exact Hy.
Qed.

Lemma fold_place_sorts (kvs : list (key_type * value_type)) :
  forall acc : list (key_type * value_type),
    StronglySorted (fun a b => fst a <= fst b) acc ->
    StronglySorted (fun a b => fst a <= fst b)
      (fold_left (fun acc kv => place kv acc) kvs acc) /\
    fold_left (fun acc kv => place kv acc) kvs acc ≡ₚ kvs ++ acc.
Proof.
  induction kvs as [|kv kvs IH]; intros acc Hs; simpl; [done|].
  destruct (IH (place kv acc) (place_sorted kv acc Hs)) as [Hs' Hp].
  split; [exact Hs'|].
  eapply perm_trans; [exact Hp|].
  eapply perm_trans; [apply Permutation_app_head; apply place_permutation|].
  symmetry. apply Permutation_middle.
Qed.

Lemma run_inserts_place kvs : forall fuel s l,
  well_formed s l -> mySize s = Z.of_nat (length l) ->
  Z.of_nat (length l + length kvs) < 2 ^ 63 ->
  (length l + length kvs < fuel)%nat ->
  exists s' l',
    run fuel (map Insert kvs) s = Done (map (fun _ => RetVoid) kvs, s') /\
    well_formed s' l' /\ mySize s' = Z.of_nat (length l') /\
    map snd l' = fold_left (fun acc kv => place kv acc) kvs (map snd l).
Proof.
  induction kvs as [|kv kvs IH]; intros fuel s l Hwf Hsz Hmax Hfuel.
  - exists s, l. split_and!; done.
  - simpl length in *.
    change (2 ^ 63) with 9223372036854775808 in Hmax.
    destruct (insert_well_formed fuel kv s l Hwf)
      as (s1 & la & lb & Hrun & -> & Hle & Hgt & Hwf1 & Hsz1 & _); [lia|].
    assert (Hsz1' : mySize s1
                    = Z.of_nat (length (la ++ (length (myMemoryPool s), kv) :: lb))).
    { rewrite Hsz1, Hsz. rewrite !length_app. simpl length.
      rewrite length_app in Hmax. rewrite wrap_small; [lia|].
      unfold size_max. change (2 ^ 64) with 18446744073709551616. lia. }
    destruct (IH fuel s1 _ Hwf1 Hsz1') as (s2 & l2 & Hrest & Hwf2 & Hsz2 & Hl2).
    { rewrite !length_app in *. simpl length.
      change (2 ^ 63) with 9223372036854775808. lia. }
    { rewrite !length_app in *. simpl length. lia. }
    exists s2, l2. split_and!; [|done|done|].
    + cbn [run map exec]. unfold bind. rewrite Hrun.
      unfold ret. rewrite Hrest. reflexivity.
    + rewrite Hl2. cbn [fold_left]. f_equal.
      rewrite !map_app. cbn [map snd]. symmetry. apply place_split.
      * change (map snd la) with (snd <$> la). rewrite Forall_fmap. exact Hle.
      * change (map snd lb) with (snd <$> lb). rewrite Forall_fmap. exact Hgt.
Qed.

Lemma run_pops_drain fuel out l : forall s,
  well_formed s l -> mySize s = Z.of_nat (length l) ->
  Z.of_nat (length l) <= 2 ^ 63 ->
  exists s',
    run (S fuel) (map TryPop (repeat out (length l))) s
    = Done (map (fun x => RetPop true (snd x)) l, s') /\
    well_formed s' [] /\ mySize s' = 0.
Proof.
  induction l as [|[h kv] l IH]; intros s Hwf Hsz Hmax.
  - exists s. split_and!; done.
  - simpl length in *.
    change (2 ^ 63) with 9223372036854775808 in Hmax.
    assert (Hadm : admitted (mySize s) = true).
    { apply admitted_spec.
      - rewrite Hsz. unfold size_max.
        change (2 ^ 64) with 18446744073709551616. lia.
      - rewrite Hsz. change (2 ^ 63) with 9223372036854775808. lia. }
    destruct (try_pop_internal_takes_head fuel (fst out) (snd out) false s h kv l Hwf Hadm)
      as (s1 & Hrun & Hwf1 & Hsz1 & _); [reflexivity|].
    destruct (IH s1 Hwf1) as (s2 & Hrest & Hwf2 & Hsz2).
    { lia. }
    { change (2 ^ 63) with 9223372036854775808. lia. }
    exists s2. split_and!; [|done|done].
    cbn [repeat run map exec]. unfold try_pop, bind. rewrite Hrun.
    unfold ret. cbn [fst snd]. rewrite Hrest. reflexivity.
Qed.

(** X25. The list used by one thread is a priority queue that keeps equal
    keys in insertion order: after inserting any pairs on a fresh list (fewer
    than 2^63), as many [try_pop] calls all return true and hand back the
    same pairs in non-decreasing key order, namely in the order in which
    placing each pair behind the last pair whose key is not greater arranges
    them; the list is empty afterwards. *)
Theorem inserts_then_pops_sort_stably (fuel : nat)
    (kvs : list (key_type * value_type)) (out : key_type * value_type) :
  Z.of_nat (length kvs) < 2 ^ 63 -> (length kvs < fuel)%nat ->
  exists sorted s,
    run fuel (map Insert kvs ++ map TryPop (repeat out (length kvs))) new_list
    = Done (map (fun _ => RetVoid) kvs ++ map (RetPop true) sorted, s) /\
    sorted = fold_left (fun acc kv => place kv acc) kvs [] /\
    sorted ≡ₚ kvs /\
    StronglySorted (fun a b => fst a <= fst b) sorted /\
    chain s = [] /\ mySize s = 0.
Proof.
  intros Hmax Hfuel.
  destruct (run_inserts_place kvs fuel new_list [] new_list_well_formed)
    as (s1 & l1 & Hrun1 & Hwf1 & Hsz1 & Hl1); [reflexivity|done|simpl; lia|].
  simpl in Hl1.
  assert (Hlen : length l1 = length kvs).
  { rewrite <- (length_map snd l1), Hl1, length_fold_place. reflexivity. }
  destruct fuel as [|fuel]; [lia|].
  destruct (run_pops_drain fuel out l1 s1 Hwf1 Hsz1) as (s2 & Hrun2 & Hwf2 & Hsz2).
  { rewrite Hlen. lia. }
  destruct (fold_place_sorts kvs []) as [Hsorted Hperm]; [constructor|].
  rewrite app_nil_r in Hperm.
  exists (fold_left (fun acc kv => place kv acc) kvs []), s2.
  split_and!; [|reflexivity|exact Hperm|exact Hsorted
               |apply (chain_well_formed _ _ Hwf2)|done].
  rewrite <- Hlen.
  rewrite (run_app _ _ _ _ _ _ _ _ Hrun1 Hrun2). do 3 f_equal.
  rewrite <- Hl1, map_map. reflexivity.
Qed.

End List.

(** ** The theorems at concrete inputs

    Keys and values are integers and naturals; the sentinel carries
    [(0, 0)]. *)

Lemma pop_on_empty_leaves_no_trace_witness :
  wrap (mySize (new_list 0%nat 0) - 1) = size_max /\
  admitted (mySize (new_list 0%nat 0)) = false /\
  wrap (wrap (mySize (new_list 0%nat 0) - 1) + 1) = mySize (new_list 0%nat 0) /\
  try_pop_value 1 5%nat (new_list 0%nat 0) = Done ((false, 5%nat), new_list 0%nat 0) /\
  try_pop 1 (3, 5%nat) (new_list 0%nat 0) = Done ((false, (3, 5%nat)), new_list 0%nat 0) /\
  compare_try_pop 1 (3, 5%nat) (new_list 0%nat 0)
  = Done ((false, (3, 5%nat)), new_list 0%nat 0).
Proof.
  apply (pop_on_empty_leaves_no_trace (new_list 0%nat 0) 1 (3, 5%nat) 5%nat).
  reflexivity.
Defined.

Lemma chain_sorted_at_quiescence_witness :
  exists rs s,
    run 0%nat 0 3
        [Insert (7, 1%nat); Insert (2, 2%nat); TryPop (0, 0%nat); Insert (5, 3%nat)]
        (new_list 0%nat 0) = Done (rs, s) /\
    chain_keys s = [5; 7] /\
    non_decreasing (chain_keys s).
Proof.
  eexists. eexists.
  split; [vm_compute; reflexivity|].
  split; [vm_compute; reflexivity|].
  apply (chain_sorted_at_quiescence 0%nat 0 3
           [Insert (7, 1%nat); Insert (2, 2%nat); TryPop (0, 0%nat); Insert (5, 3%nat)]
           [RetVoid; RetVoid; RetPop true (2, 2%nat); RetVoid]).
  vm_compute. reflexivity.
Defined.

Lemma insert_never_fails_witness :
  exists s' l1 l2,
    insert 0%nat 0 2 (9, 8%nat) (one_node_list 0%nat 0 1 (4, 7%nat)) = Done (tt, s') /\
    chain_pairs (one_node_list 0%nat 0 1 (4, 7%nat)) = l1 ++ l2 /\
    chain_pairs s' = l1 ++ (9, 8%nat) :: l2 /\
    Forall (fun p => fst p <= fst (9, 8%nat)) l1 /\
    Forall (fun p => tiny_less (fst (9, 8%nat)) (fst p) = true) l2 /\
    mySize s' = wrap (mySize (one_node_list 0%nat 0 1 (4, 7%nat)) + 1) /\
    (mySize (one_node_list 0%nat 0 1 (4, 7%nat)) < size_max ->
     mySize s' = mySize (one_node_list 0%nat 0 1 (4, 7%nat)) + 1).
Proof.
  apply (insert_never_fails 0%nat 0 (one_node_list 0%nat 0 1 (4, 7%nat)) (9, 8%nat) 2).
  - apply one_node_list_reachable.
  - vm_compute. lia.
Defined.

Lemma pops_after_inserts_are_monotone_witness :
  exists rs s,
    run 0%nat 0 3
        (map Insert [(7, 1%nat); (2, 2%nat)] ++ map TryPop [(0, 0%nat); (0, 0%nat)])
        (new_list 0%nat 0) = Done (rs, s) /\
    non_decreasing (popped_keys rs).
Proof.
  apply (proj1 (pops_after_inserts_are_monotone 0%nat 0)
               [(7, 1%nat); (2, 2%nat)] [(0, 0%nat); (0, 0%nat)] 3%nat).
  simpl. lia.
Defined.

Lemma compare_try_pop_mismatch_contract_witness :
  exists h kv tl,
    chain (one_node_list 0%nat 0 1 (4, 7%nat)) = (h, kv) :: tl /\
    fst kv <> fst (3, 5%nat) /\
    (4, 5%nat) = (fst kv, snd (3, 5%nat)) /\
    myMemoryPool (one_node_list 0%nat 0 0 (4, 7%nat))
    = myMemoryPool (one_node_list 0%nat 0 1 (4, 7%nat)) /\
    myFrontSentry (one_node_list 0%nat 0 0 (4, 7%nat))
    = myFrontSentry (one_node_list 0%nat 0 1 (4, 7%nat)) /\
    chain (one_node_list 0%nat 0 0 (4, 7%nat))
    = chain (one_node_list 0%nat 0 1 (4, 7%nat)).
Proof.
  apply (compare_try_pop_mismatch_contract 0%nat 0
           (one_node_list 0%nat 0 1 (4, 7%nat))
           (one_node_list 0%nat 0 0 (4, 7%nat)) 1 (3, 5%nat) (4, 5%nat)).
  - apply one_node_list_reachable.
  - reflexivity.
  - vm_compute. reflexivity.
Defined.

Lemma try_peek_top_key_reads_head_witness :
  try_peek_top_key 0 (one_node_list 0%nat 0 1 (4, 7%nat))
  = Done (match chain_keys (one_node_list 0%nat 0 1 (4, 7%nat)) with
          | [] => (false, 0)
          | k :: _ => (true, k)
          end, one_node_list 0%nat 0 1 (4, 7%nat)) /\
  (forall k ks, chain_keys (one_node_list 0%nat 0 1 (4, 7%nat)) = k :: ks ->
                Forall (fun k' => k <= k') ks).
Proof.
  apply (try_peek_top_key_reads_head 0%nat 0 (one_node_list 0%nat 0 1 (4, 7%nat)) 0).
  apply one_node_list_reachable.
Defined.

Lemma admitted_pop_finds_head_witness :
  (exists (sn : @node nat) (h : nat) (hn : @node nat),
      load (myFrontSentry (one_node_list 0%nat 0 1 (4, 7%nat)))
           (one_node_list 0%nat 0 1 (4, 7%nat))
      = Done (myNext sn, one_node_list 0%nat 0 1 (4, 7%nat)) /\
      ptr_of (myNext sn) = Some h /\
      myMemoryPool (one_node_list 0%nat 0 1 (4, 7%nat)) !! h = Some hn) /\
  (forall fuel k v m,
      try_pop_internal fuel k v m (one_node_list 0%nat 0 1 (4, 7%nat)) <> Fault).
Proof.
  apply (admitted_pop_finds_head 0%nat 0 (one_node_list 0%nat 0 1 (4, 7%nat))).
  - apply one_node_list_reachable.
  - reflexivity.
Defined.

Lemma unsafe_clear_keeps_sentinel_link_witness :
  exists s' h kv,
    unsafe_clear (one_node_list 0%nat 0 1 (4, 7%nat)) = Done (tt, s') /\
    head (chain (one_node_list 0%nat 0 1 (4, 7%nat))) = Some (h, kv) /\
    Forall (fun x => fst kv <= fst (snd x)) (chain (one_node_list 0%nat 0 1 (4, 7%nat))) /\
    mySize s' = 0 /\
    myFrontSentry s' = myFrontSentry (one_node_list 0%nat 0 1 (4, 7%nat)) /\
    myMemoryPool s' !! myFrontSentry (one_node_list 0%nat 0 1 (4, 7%nat))
    = myMemoryPool (one_node_list 0%nat 0 1 (4, 7%nat))
        !! myFrontSentry (one_node_list 0%nat 0 1 (4, 7%nat)) /\
    head (chain s') = Some (h, kv) /\
    (forall out, try_peek_top_key out s' = Done ((true, fst kv), s')) /\
    (forall fuel out, try_pop fuel out s' = Done ((false, out), s')) /\
    (forall fuel v, try_pop_value fuel v s' = Done ((false, v), s')).
Proof.
  apply (unsafe_clear_keeps_sentinel_link 0%nat 0 (one_node_list 0%nat 0 1 (4, 7%nat))).
  - apply one_node_list_reachable.
  - vm_compute. discriminate.
Defined.

(** * Facts about the heap *)

Section HeapFacts.

Context {T : Type}.
Implicit Types (st : list (Z * T)).

Lemma heap_at_lookup st (i : nat) x :
  st !! i = Some x -> Heap.at_ st (Z.of_nat i) = Done x.
Proof. intros H. unfold Heap.at_. rewrite Nat2Z.id, H. reflexivity. Qed.

Lemma heap_swap_lookup st (a b : nat) x y :
  st !! a = Some x -> st !! b = Some y ->
  Heap.swap st (Z.of_nat a) (Z.of_nat b) = Done (<[a := y]> (<[b := x]> st)).
Proof.
  intros Ha Hb. unfold Heap.swap.
  rewrite (heap_at_lookup _ _ _ Ha), (heap_at_lookup _ _ _ Hb). simpl.
  rewrite !Nat2Z.id. reflexivity.
Qed.

Lemma lookup_swapped st (a b i : nat) x y :
  st !! a = Some x -> st !! b = Some y ->
  <[a := y]> (<[b := x]> st) !! i
  = if decide (i = a) then Some y
    else if decide (i = b) then Some x else st !! i.
Proof.
  intros Ha Hb.
  pose proof (lookup_lt_Some _ _ _ Ha). pose proof (lookup_lt_Some _ _ _ Hb).
  destruct (decide (i = a)) as [->|Hia].
  - apply list_lookup_insert_eq. rewrite length_insert. done.
  - rewrite list_lookup_insert_ne by done.
    destruct (decide (i = b)) as [->|Hib].
    + apply list_lookup_insert_eq. done.
    + apply list_lookup_insert_ne. done.
Qed.

Lemma swapped_permutation st (a b : nat) x y :
  st !! a = Some x -> st !! b = Some y ->
  <[a := y]> (<[b := x]> st) ≡ₚ st.
Proof. intros Ha Hb. apply Permutation_insert_swap; done. Qed.

Lemma parent_is_parent (k : nat) : (0 < k)%nat -> Heap.child ((k - 1) / 2) k.
Proof.
  intros Hk. unfold Heap.child.
  pose proof (Nat.div_mod_eq (k - 1) 2).
  pose proof (Nat.mod_upper_bound (k - 1) 2). lia.
Qed.

Lemma parent_index (k : nat) :
  (0 < k)%nat -> Z.of_nat k <= 2 ^ 64 ->
  wrap (Z.of_nat k - 1) / 2 = Z.of_nat ((k - 1) / 2).
Proof.
  intros Hk Hmax. rewrite wrap_small by (unfold size_max; lia).
  rewrite Nat2Z.inj_div, Nat2Z.inj_sub by lia. reflexivity.
Qed.

Lemma heap_ordered_le st :
  Heap.heap_ordered st <->
  (forall i j x y, Heap.child i j -> st !! i = Some x -> st !! j = Some y ->
                   fst x <= fst y).
Proof.
  unfold Heap.heap_ordered, Heap.TinyLess.
  split; intros H i j x y Hc Hi Hj; specialize (H i j x y Hc Hi Hj).
  - apply Z.ltb_ge in H. exact H.
  - apply Z.ltb_ge. exact H.
Qed.

Lemma heap_orderedb_sound st :
  Heap.heap_orderedb st = true -> Heap.heap_ordered st.
Proof.
  unfold Heap.heap_orderedb. rewrite forallb_forall.
  intros Hall i j x y Hc Hi Hj.
  pose proof (lookup_lt_Some _ _ _ Hj) as Hlt.
  assert (Hp : ((j - 1) / 2)%nat = i).
  { unfold Heap.child in Hc. destruct Hc as [-> | ->].
    - replace (2 * i + 1 - 1)%nat with (i * 2)%nat by lia. apply Nat.div_mul. lia.
    - replace (2 * i + 2 - 1)%nat with (1 + i * 2)%nat by lia.
      rewrite Nat.div_add by lia. reflexivity. }
  specialize (Hall j). rewrite Hp, Hi, Hj in Hall.
  apply negb_true_iff, Hall, in_seq. unfold Heap.child in Hc. lia.
Qed.

(** One swap of [bubble]: the disorder moves from [k] to its parent [p]. *)
Lemma bubble_step_ordered st (k p : nat) x y :
  Heap.child p k -> st !! k = Some x -> st !! p = Some y ->
  fst x < fst y ->
  Heap.ordered_but_up st k ->
  Heap.ordered_but_up (<[k := y]> (<[p := x]> st)) p.
Proof.
  intros Hpk Hk Hp Hlt [Hpairs Hgrand].
  split.
  - intros i j xi yj Hc Hjp Hi Hj.
    rewrite (lookup_swapped st k p i x y Hk Hp) in Hi.
    rewrite (lookup_swapped st k p j x y Hk Hp) in Hj.
    destruct (decide (j = p)) as [|_]; [done|].
    destruct (decide (i = k)) as [->|Hik].
    + injection Hi as <-.
      destruct (decide (j = k)) as [->|Hjk]; [unfold Heap.child in *; lia|].
      eapply Hgrand; eauto.
    + destruct (decide (i = p)) as [->|Hip].
      * injection Hi as <-.
        destruct (decide (j = k)) as [->|Hjk].
        { injection Hj as <-. lia. }
        specialize (Hpairs p j y yj Hc Hjk Hp Hj). lia.
      * destruct (decide (j = k)) as [->|Hjk].
        { unfold Heap.child in *. lia. }
        eapply Hpairs; eauto.
  - intros g j xg yj Hgp Hpj Hg Hj.
    rewrite (lookup_swapped st k p g x y Hk Hp) in Hg.
    rewrite (lookup_swapped st k p j x y Hk Hp) in Hj.
    destruct (decide (g = k)) as [->|_]; [unfold Heap.child in *; lia|].
    destruct (decide (g = p)) as [->|_]; [unfold Heap.child in *; lia|].
    assert (Hgy : fst xg <= fst y).
    { apply (Hpairs g p xg y Hgp); [unfold Heap.child in *; lia|done|done]. }
    destruct (decide (j = k)) as [->|Hjk].
    + injection Hj as <-. exact Hgy.
    + destruct (decide (j = p)) as [->|_]; [unfold Heap.child in *; lia|].
      specialize (Hpairs p j y yj Hpj Hjk Hp Hj). lia.
Qed.

Lemma bubble_loop_restores (fuel : nat) : forall (k : nat) (p : Z) st,
  (k < length st)%nat -> (k < fuel)%nat -> Z.of_nat (length st) <= 2 ^ 64 ->
  ((0 < k)%nat -> p = Z.of_nat ((k - 1) / 2)) ->
  Heap.ordered_but_up st k ->
  exists st',
    Heap.bubble_loop fuel (Z.of_nat k) p st = Done st' /\
    Heap.heap_ordered st' /\ st' ≡ₚ st.
Proof.
  induction fuel as [|fuel IH]; intros k p st Hk Hfuel Hmax Hp Hinv; [lia|].
  cbn [Heap.bubble_loop].
  destruct (Z.eqb_spec (Z.of_nat k) 0) as [Hz|Hnz].
  - exists st. split_and!; [done| |done].
    apply heap_ordered_le. intros i j x y Hc Hi Hj.
    destruct Hinv as [Hpairs _]. apply (Hpairs i j x y Hc); [|done|done].
    unfold Heap.child in Hc. lia.
  - assert (Hk0 : (0 < k)%nat) by lia.
    rewrite (Hp Hk0).
    pose proof (parent_is_parent k Hk0) as Hchild.
    set (q := ((k - 1) / 2)%nat) in *.
    assert (Hq : (q < k)%nat) by (unfold Heap.child in Hchild; lia).
    destruct (lookup_lt_is_Some_2 st k Hk) as [x Hx].
    destruct (lookup_lt_is_Some_2 st q ltac:(lia)) as [y Hy].
    rewrite (heap_at_lookup _ _ _ Hx), (heap_at_lookup _ _ _ Hy).
    cbn [outcome_bind]. unfold Heap.TinyLess.
    destruct (Z.ltb_spec (fst x) (fst y)) as [Hlt|Hge]; cbn [negb].
    + rewrite (heap_swap_lookup _ _ _ _ _ Hx Hy). cbn [outcome_bind].
      destruct (IH q (wrap (Z.of_nat q - 1) / 2) (<[k := y]> (<[q := x]> st)))
        as (st' & Hrun & Hord & Hperm).
      * rewrite !length_insert. lia.
      * lia.
      * rewrite !length_insert. done.
      * intros Hq0. apply parent_index; [done|lia].
      * apply bubble_step_ordered; done.
      * exists st'. split_and!; [done|done|].
        rewrite Hperm. apply swapped_permutation; done.
    + exists st. split_and!; [done| |done].
      apply heap_ordered_le. intros i j xi yj Hc Hi Hj.
      destruct Hinv as [Hpairs _].
      destruct (decide (j = k)) as [->|Hjk].
      * assert (i = q) as -> by (unfold Heap.child in *; lia).
        rewrite Hx in Hj. rewrite Hy in Hi. injection Hi as <-. injection Hj as <-. lia.
      * eapply Hpairs; eauto.
Qed.

(** One swap of [trickle]: the disorder moves from [k] to its least child. *)
Lemma trickle_step_ordered st (k t : nat) x y :
  Heap.child k t -> st !! k = Some x -> st !! t = Some y ->
  fst y < fst x ->
  (forall o z, Heap.child k o -> st !! o = Some z -> fst y <= fst z) ->
  Heap.ordered_but_down st k ->
  Heap.ordered_but_down (<[k := y]> (<[t := x]> st)) t.
Proof.
  intros Hkt Hk Ht Hlt Hmin [Hpairs Hgrand].
  split.
  - intros i j xi yj Hc Hit Hi Hj.
    rewrite (lookup_swapped st k t i x y Hk Ht) in Hi.
    rewrite (lookup_swapped st k t j x y Hk Ht) in Hj.
    destruct (decide (i = k)) as [->|Hik].
    + injection Hi as <-.
      destruct (decide (j = k)) as [->|_]; [unfold Heap.child in *; lia|].
      destruct (decide (j = t)) as [->|_].
      * injection Hj as <-. lia.
      * eapply Hmin; eauto.
    + destruct (decide (i = t)) as [|_]; [done|].
      destruct (decide (j = k)) as [->|Hjk].
      * injection Hj as <-. eapply Hgrand; eauto.
      * destruct (decide (j = t)) as [->|_]; [unfold Heap.child in *; lia|].
        eapply Hpairs; eauto.
  - intros g j xg yj Hgt Htj Hg Hj.
    rewrite (lookup_swapped st k t g x y Hk Ht) in Hg.
    rewrite (lookup_swapped st k t j x y Hk Ht) in Hj.
    assert (g = k) as -> by (unfold Heap.child in *; lia).
    destruct (decide (k = k)) as [_|]; [|done]. injection Hg as <-.
    destruct (decide (j = k)) as [->|_]; [unfold Heap.child in *; lia|].
    destruct (decide (j = t)) as [->|_]; [unfold Heap.child in *; lia|].
    apply (Hpairs t j y yj Htj); [unfold Heap.child in *; lia|done|done].
Qed.

Lemma lxor_index_eqb (a b : Z) : (Z.lxor a b =? 0) = (a =? b).
Proof.
  destruct (Z.eqb_spec a b) as [->|Hne].
  - rewrite Z.lxor_nilpotent. reflexivity.
  - apply Z.eqb_neq. intros H. apply Z.lxor_eq in H. done.
Qed.

Lemma trickle_loop_restores (fuel : nat) : forall (k : nat) st,
  (k < length st)%nat -> (length st - k <= fuel)%nat ->
  Z.of_nat (length st) < 2 ^ 63 ->
  Heap.ordered_but_down st k ->
  exists st',
    Heap.trickle_loop fuel (Z.of_nat (length st)) (Z.of_nat k) st = Done st' /\
    Heap.heap_ordered st' /\ st' ≡ₚ st.
Proof.
  induction fuel as [|fuel IH]; intros k st Hk Hfuel Hmax Hinv; [lia|].
  cbn [Heap.trickle_loop].
  destruct (Z.ltb_spec (Z.of_nat k) (Z.of_nat (length st))) as [_|]; [|lia].
  change (2 ^ 63) with 9223372036854775808 in Hmax.
  rewrite !wrap_small
    by (unfold size_max; change (2 ^ 64) with 18446744073709551616; lia).
  set (li := if decide (2 * k + 1 < length st)%nat then (2 * k + 1)%nat else k).
  set (ri := if decide (2 * k + 2 < length st)%nat then (2 * k + 2)%nat else k).
  assert (Hli : (if Z.of_nat k * 2 + 1 <? Z.of_nat (length st)
                 then Z.of_nat k * 2 + 1 else Z.of_nat k) = Z.of_nat li).
  { unfold li. destruct (Z.ltb_spec (Z.of_nat k * 2 + 1) (Z.of_nat (length st)));
      destruct (decide (2 * k + 1 < length st)%nat); lia. }
  assert (Hri : (if Z.of_nat k * 2 + 2 <? Z.of_nat (length st)
                 then Z.of_nat k * 2 + 2 else Z.of_nat k) = Z.of_nat ri).
  { unfold ri. destruct (Z.ltb_spec (Z.of_nat k * 2 + 2) (Z.of_nat (length st)));
      destruct (decide (2 * k + 2 < length st)%nat); lia. }
  rewrite Hli, Hri.
  assert (Hlilt : (li < length st)%nat)
    by (unfold li; destruct (decide (2 * k + 1 < length st)%nat); lia).
  assert (Hrilt : (ri < length st)%nat)
    by (unfold ri; destruct (decide (2 * k + 2 < length st)%nat); lia).
  destruct (lookup_lt_is_Some_2 st li Hlilt) as [l Hl].
  destruct (lookup_lt_is_Some_2 st ri Hrilt) as [r Hr].
  destruct (lookup_lt_is_Some_2 st k Hk) as [x Hx].
  rewrite (heap_at_lookup _ _ _ Hl), (heap_at_lookup _ _ _ Hr),
    (heap_at_lookup _ _ _ Hx).
  cbn [outcome_bind].
  assert (Hlk : li = k -> fst l = fst x) by (intros E; rewrite E in Hl; congruence).
  assert (Hrk : ri = k -> fst r = fst x) by (intros E; rewrite E in Hr; congruence).
  assert (Hleft : forall z, st !! (2 * k + 1)%nat = Some z -> z = l).
  { intros z Hz. pose proof (lookup_lt_Some _ _ _ Hz).
    unfold li in Hl. destruct (decide (2 * k + 1 < length st)%nat); [congruence|lia]. }
  assert (Hright : forall z, st !! (2 * k + 2)%nat = Some z -> z = r).
  { intros z Hz. pose proof (lookup_lt_Some _ _ _ Hz).
    unfold ri in Hr. destruct (decide (2 * k + 2 < length st)%nat); [congruence|lia]. }
  assert (Hchild : forall o z, Heap.child k o -> st !! o = Some z -> z = l \/ z = r).
  { intros o z [->| ->] Hz; [left; apply Hleft|right; apply Hright]; exact Hz. }
  assert (Hswap : forall (t : nat) y,
             Heap.child k t -> st !! t = Some y -> fst y < fst x ->
             fst y <= fst l -> fst y <= fst r ->
             exists st',
               outcome_bind (Heap.swap st (Z.of_nat k) (Z.of_nat t))
                 (fun st1 => Heap.trickle_loop fuel (Z.of_nat (length st))
                                               (Z.of_nat t) st1) = Done st' /\
               Heap.heap_ordered st' /\ st' ≡ₚ st).
  { intros t y Hkt Ht Hyx Hyl Hyr.
    pose proof (lookup_lt_Some _ _ _ Ht) as Htlt.
    rewrite (heap_swap_lookup _ _ _ _ _ Hx Ht). cbn [outcome_bind].
    destruct (IH t (<[k := y]> (<[t := x]> st))) as (st' & Hrun & Hord & Hperm).
    - rewrite !length_insert. done.
    - rewrite !length_insert. unfold Heap.child in Hkt. lia.
    - rewrite !length_insert. exact Hmax.
    - apply trickle_step_ordered; try done.
      intros o z Ho Hz. destruct (Hchild o z Ho Hz) as [->| ->]; done.
    - rewrite !length_insert in Hrun. exists st'. split_and!; [done|done|].
      rewrite Hperm. apply swapped_permutation; done. }
  unfold Heap.TinyLess.
  destruct (Z.ltb_spec (fst l) (fst x)) as [Hlx|Hxl].
  - assert (Hlic : Heap.child k li).
    { unfold li in *. destruct (decide (2 * k + 1 < length st)%nat); [left; reflexivity|].
      specialize (Hlk eq_refl). lia. }
    destruct (Z.ltb_spec (fst r) (fst l)) as [Hrl|Hlr].
    + assert (Hric : Heap.child k ri).
      { unfold ri in *. destruct (decide (2 * k + 2 < length st)%nat); [right; reflexivity|].
        specialize (Hrk eq_refl). lia. }
      rewrite lxor_index_eqb.
      destruct (Z.eqb_spec (Z.of_nat ri) (Z.of_nat k)) as [E|_];
        [unfold Heap.child in Hric; lia|].
      apply (Hswap ri r); [done|done|lia|lia|lia].
    + rewrite lxor_index_eqb.
      destruct (Z.eqb_spec (Z.of_nat li) (Z.of_nat k)) as [E|_];
        [unfold Heap.child in Hlic; lia|].
      apply (Hswap li l); [done|done|lia|lia|lia].
  - destruct (Z.ltb_spec (fst r) (fst x)) as [Hrx|Hxr].
    + assert (Hric : Heap.child k ri).
      { unfold ri in *. destruct (decide (2 * k + 2 < length st)%nat); [right; reflexivity|].
        specialize (Hrk eq_refl). lia. }
      rewrite lxor_index_eqb.
      destruct (Z.eqb_spec (Z.of_nat ri) (Z.of_nat k)) as [E|_];
        [unfold Heap.child in Hric; lia|].
      apply (Hswap ri r); [done|done|lia|lia|lia].
    + rewrite lxor_index_eqb, Z.eqb_refl.
      exists st. split_and!; [done| |done].
      apply heap_ordered_le. intros i j xi yj Hc Hi Hj.
      destruct Hinv as [Hpairs _].
      destruct (decide (i = k)) as [->|Hik]; [|eapply Hpairs; eauto].
      rewrite Hx in Hi. injection Hi as <-.
      destruct (Hchild j yj Hc Hj) as [->| ->]; done.
Qed.

Lemma heap_top_is_least st x :
  Heap.heap_ordered st -> st !! 0%nat = Some x ->
  forall y, y ∈ st -> fst x <= fst y.
Proof.
  intros Hord Hx. rewrite heap_ordered_le in Hord.
  assert (H : forall n j y, (j <= n)%nat -> st !! j = Some y -> fst x <= fst y).
  { induction n as [|n IH]; intros j y Hj Hy.
    - assert (j = 0%nat) as -> by lia. rewrite Hx in Hy. injection Hy as <-. lia.
    - destruct (decide (j = 0%nat)) as [->|Hnz].
      { rewrite Hx in Hy. injection Hy as <-. lia. }
      pose proof (parent_is_parent j ltac:(lia)) as Hc.
      pose proof (lookup_lt_Some _ _ _ Hy) as Hlt.
      set (q := ((j - 1) / 2)%nat) in *.
      assert (Hq : (q < j)%nat) by (unfold Heap.child in Hc; lia).
      destruct (lookup_lt_is_Some_2 st q) as [z Hz]; [lia|].
      specialize (IH q z ltac:(lia) Hz).
      specialize (Hord _ _ z y Hc Hz Hy). lia. }
  intros y Hy. apply list_elem_of_lookup in Hy as [j Hj].
  apply (H j j y); [lia|done].
Qed.

Lemma bubble_after_emplace_back (fuel : nat) st kv :
  Heap.heap_ordered st -> Z.of_nat (length st) < 2 ^ 64 ->
  (length st < fuel)%nat ->
  exists st',
    Heap.bubble fuel (wrap (Heap.storage_size (st ++ [kv]) - 1)) (st ++ [kv])
    = Done st' /\
    Heap.heap_ordered st' /\ st' ≡ₚ kv :: st.
Proof.
  intros Hord Hmax Hfuel. rewrite heap_ordered_le in Hord.
  unfold Heap.storage_size, Heap.bubble. rewrite length_app. simpl length.
  replace (Z.of_nat (length st + 1) - 1) with (Z.of_nat (length st)) by lia.
  change (2 ^ 64) with 18446744073709551616 in Hmax.
  rewrite (wrap_small (Z.of_nat (length st)))
    by (unfold size_max; change (2 ^ 64) with 18446744073709551616; lia).
  destruct (bubble_loop_restores fuel (length st)
              (wrap (Z.of_nat (length st) - 1) / 2) (st ++ [kv]))
    as (st' & Hrun & Hord' & Hperm).
  - rewrite length_app. simpl. lia.
  - done.
  - rewrite length_app. simpl length.
    change (2 ^ 64) with 18446744073709551616. lia.
  - intros Hk. apply parent_index; [done|].
    change (2 ^ 64) with 18446744073709551616. lia.
  - split.
    + intros i j x y Hc Hj Hi Hy.
      pose proof (lookup_lt_Some _ _ _ Hy) as Hjlt.
      rewrite length_app in Hjlt. simpl in Hjlt.
      rewrite lookup_app_l in Hy by lia.
      rewrite lookup_app_l in Hi by (unfold Heap.child in Hc; lia).
      eapply Hord; eauto.
    + intros g j x y _ Hc _ Hy.
      pose proof (lookup_lt_Some _ _ _ Hy) as Hjlt.
      rewrite length_app in Hjlt. simpl in Hjlt.
      unfold Heap.child in Hc. lia.
  - exists st'. split_and!; [done|done|].
    rewrite Hperm. rewrite Permutation_app_comm. reflexivity.
Qed.

(** X1. [push] returns (with fuel above the number of stored pairs), stores
    exactly one more pair, the pushed one, and leaves the storage in heap
    order if it was. *)
Theorem heap_push_keeps_order (fuel : nat) (in_ : T) (key : Z) (h : @Heap.heap T) :
  Heap.heap_ordered (Heap.myStorage h) ->
  Heap.size h < 2 ^ 63 ->
  (length (Heap.myStorage h) < fuel)%nat ->
  exists h',
    Heap.push fuel in_ key h = Done h' /\
    Heap.heap_ordered (Heap.myStorage h') /\
    Heap.myStorage h' ≡ₚ (key, in_) :: Heap.myStorage h /\
    Heap.size h' = Heap.size h + 1.
Proof.
  intros Hord Hmax Hfuel. unfold Heap.size, Heap.storage_size in *.
  destruct (bubble_after_emplace_back fuel (Heap.myStorage h) (key, in_))
    as (st' & Hrun & Hord' & Hperm); [done| |done|].
  { change (2 ^ 63) with 9223372036854775808 in Hmax.
    change (2 ^ 64) with 18446744073709551616. lia. }
  exists (Heap.Heap_ st'). unfold Heap.push. rewrite Hrun. simpl.
  split_and!; [done|done|done|].
  apply Permutation_length in Hperm. rewrite Hperm. simpl length. lia.
Qed.

(** The storage after [pop_internal] has swapped the top with the last pair
    and dropped it. *)
Lemma swap_pop_back st x :
  st !! 0%nat = Some x -> Z.of_nat (length st) < 2 ^ 64 ->
  exists st2,
    outcome_bind
      (Heap.swap st 0 (wrap (Heap.storage_size st - 1))) Heap.pop_back
    = Done st2 /\
    st ≡ₚ x :: st2 /\
    length st = S (length st2) /\
    (forall i z, (0 < i)%nat -> st2 !! i = Some z -> st !! i = Some z).
Proof.
  intros Hx Hmax.
  pose proof (lookup_lt_Some _ _ _ Hx) as Hlen.
  destruct (length st) as [|m] eqn:Hm; [lia|].
  destruct (lookup_lt_is_Some_2 st m ltac:(lia)) as [y Hy].
  unfold Heap.storage_size. rewrite Hm.
  change (2 ^ 64) with 18446744073709551616 in Hmax.
  rewrite wrap_small
    by (unfold size_max; change (2 ^ 64) with 18446744073709551616; lia).
  replace (Z.of_nat (S m) - 1) with (Z.of_nat m) by lia.
  change 0 with (Z.of_nat 0).
  rewrite (heap_swap_lookup st 0 m x y Hx Hy). cbn [outcome_bind].
  set (st1 := <[0%nat := y]> (<[m := x]> st)).
  assert (Hlen1 : length st1 = S m) by (unfold st1; rewrite !length_insert; done).
  assert (Hlast : st1 !! m = Some x).
  { unfold st1. rewrite (lookup_swapped st 0 m m x y Hx Hy).
    destruct (decide (m = 0%nat)) as [->|_]; [congruence|].
    destruct (decide (m = m)); done. }
  assert (Hsplit : st1 = take m st1 ++ [x]).
  { rewrite <- (take_S_r st1 m x Hlast). rewrite take_ge by lia. reflexivity. }
  exists (take m st1). split_and!.
  - unfold Heap.pop_back. destruct st1 as [|z st1'] eqn:E; [simpl in Hlen1; lia|].
    rewrite Hlen1. replace (S m - 1)%nat with m by lia. reflexivity.
  - rewrite <- (swapped_permutation st 0 m x y Hx Hy). fold st1.
    rewrite Hsplit at 1. rewrite Permutation_app_comm. reflexivity.
  - rewrite length_take, Hlen1. lia.
  - intros i z Hi Hz.
    pose proof (lookup_lt_Some _ _ _ Hz) as Hilt.
    rewrite length_take, Hlen1 in Hilt.
    rewrite lookup_take_lt in Hz by lia.
    unfold st1 in Hz. rewrite (lookup_swapped st 0 m i x y Hx Hy) in Hz.
    destruct (decide (i = 0%nat)); [lia|].
    destruct (decide (i = m)); [lia|]. exact Hz.
Qed.

Lemma trickle_after_pop (fuel : nat) st st2 :
  Heap.heap_ordered st -> Z.of_nat (length st2) < 2 ^ 63 ->
  (length st2 < fuel)%nat ->
  (forall i z, (0 < i)%nat -> st2 !! i = Some z -> st !! i = Some z) ->
  exists st3,
    Heap.trickle fuel 0 st2 = Done st3 /\
    Heap.heap_ordered st3 /\ st3 ≡ₚ st2.
Proof.
  intros Hord Hmax Hfuel Hsame. rewrite heap_ordered_le in Hord.
  assert (Hdown : Heap.ordered_but_down st2 0).
  { split.
    - intros i j x y Hc Hi Hx Hy.
      apply Hsame in Hx; [|lia]. apply Hsame in Hy; [|unfold Heap.child in Hc; lia].
      eapply Hord; eauto.
    - intros g j x y Hc. unfold Heap.child in Hc. lia. }
  unfold Heap.trickle, Heap.storage_size.
  destruct st2 as [|a st2'] eqn:E.
  - exists []. destruct fuel; [lia|]. split_and!; [reflexivity| |done].
    intros i j x y _ Hi. inversion Hi.
  - rewrite <- E in *.
    assert (Hpos : (0 < length st2)%nat) by (rewrite E; simpl; lia).
    change (2 ^ 63) with 9223372036854775808 in Hmax.
    rewrite wrap_small
      by (unfold size_max; change (2 ^ 64) with 18446744073709551616; lia).
    destruct (Z.eqb_spec 0 (Z.of_nat (length st2) - 1)) as [Hone|_].
    + exists st2. split_and!; [done| |done].
      intros i j x y Hc _ Hj.
      pose proof (lookup_lt_Some _ _ _ Hj) as Hjlt.
      unfold Heap.child in Hc. lia.
    + change 0 with (Z.of_nat 0).
      apply trickle_loop_restores; [lia|lia|done|done].
Qed.

Lemma pop_internal_least (fuel : nat) (h : @Heap.heap T) x :
  Heap.heap_ordered (Heap.myStorage h) ->
  Heap.myStorage h !! 0%nat = Some x ->
  Heap.size h < 2 ^ 63 ->
  (length (Heap.myStorage h) <= fuel)%nat ->
  exists h',
    Heap.pop_internal fuel h = Done ((snd x, fst x), h') /\
    Heap.heap_ordered (Heap.myStorage h') /\
    Heap.myStorage h ≡ₚ x :: Heap.myStorage h' /\
    Heap.size h' = Heap.size h - 1.
Proof.
  intros Hord Hx Hmax Hfuel. destruct h as [st]. simpl in *.
  unfold Heap.size, Heap.storage_size in *. simpl in *.
  destruct (swap_pop_back st x Hx) as (st2 & Hsw & Hperm & Hlen & Hsame).
  { change (2 ^ 63) with 9223372036854775808 in Hmax.
    change (2 ^ 64) with 18446744073709551616. lia. }
  destruct (trickle_after_pop fuel st st2 Hord) as (st3 & Htr & Hord3 & Hperm3);
    [lia|lia|done|].
  exists (Heap.Heap_ st3). unfold Heap.pop_internal. simpl.
  change 0 with (Z.of_nat 0) at 1. rewrite (heap_at_lookup st 0 x Hx).
  cbn [outcome_bind].
  unfold Heap.storage_size in *.
  destruct (Heap.swap st 0 (wrap (Z.of_nat (length st) - 1))) as [st1| |] eqn:Hswap;
    cbn [outcome_bind] in Hsw; try discriminate.
  cbn [outcome_bind]. rewrite Hsw. cbn [outcome_bind]. rewrite Htr.
  cbn [outcome_bind]. split_and!; [done|done| |].
  - eapply perm_trans; [exact Hperm|]. apply perm_skip. symmetry. exact Hperm3.
  - apply Permutation_length in Hperm3. rewrite Hperm3. lia.
Qed.

(** X2. [try_pop] on a non-empty heap in heap order returns true, hands out
    the pair stored at the top, whose key is the least of the heap, removes
    exactly that pair and leaves the rest in heap order. *)
Theorem heap_try_pop_least (fuel : nat) (outValue : T) (outKey : Z)
    (h : @Heap.heap T) :
  Heap.heap_ordered (Heap.myStorage h) ->
  Heap.myStorage h <> [] ->
  Heap.size h < 2 ^ 63 ->
  (length (Heap.myStorage h) <= fuel)%nat ->
  exists v k h',
    Heap.try_pop fuel outValue outKey h = Done (true, (v, k), h') /\
    Heap.myStorage h !! 0%nat = Some (k, v) /\
    (forall y, y ∈ Heap.myStorage h -> k <= fst y) /\
    Heap.heap_ordered (Heap.myStorage h') /\
    Heap.myStorage h ≡ₚ (k, v) :: Heap.myStorage h' /\
    Heap.size h' = Heap.size h - 1.
Proof.
  intros Hord Hne Hmax Hfuel.
  destruct (Heap.myStorage h) as [|[k v] rest] eqn:Hst; [done|].
  assert (Hx : Heap.myStorage h !! 0%nat = Some (k, v)) by (rewrite Hst; reflexivity).
  rewrite <- Hst in *.
  destruct (pop_internal_least fuel h (k, v) Hord Hx Hmax Hfuel)
    as (h' & Hrun & Hord' & Hperm & Hsz).
  exists v, k, h'. split_and!; auto.
  - unfold Heap.try_pop, Heap.storage_size. rewrite Hst at 1. simpl length.
    destruct (Z.eqb_spec (Z.of_nat (S (length rest))) 0); [lia|].
    rewrite Hrun. reflexivity.
  - intros y Hy. apply (heap_top_is_least _ (k, v) Hord Hx y Hy).
Qed.

(** X3. On an empty heap [try_pop] (both overloads), [compare_try_pop] and
    [try_peek_top_key] return false and change neither the heap nor the
    caller's slots, whatever the fuel. *)
Theorem heap_empty_returns_false (fuel : nat) (v : T) (k : Z) (h : @Heap.heap T) :
  Heap.myStorage h = [] ->
  Heap.try_pop fuel v k h = Done (false, (v, k), h) /\
  Heap.try_pop_value fuel v h = Done (false, v, h) /\
  Heap.compare_try_pop fuel v k h = Done (false, (v, k), h) /\
  Heap.try_peek_top_key k h = Done (false, k).
Proof.
  intros Hst.
  unfold Heap.try_pop_value, Heap.try_pop, Heap.compare_try_pop,
    Heap.try_peek_top_key, Heap.storage_size.
  rewrite Hst. simpl. done.
Qed.

(** X4. [try_peek_top_key] on a non-empty heap in heap order returns true with
    the least key of the heap. *)
Theorem heap_peek_is_least (out : Z) (h : @Heap.heap T) :
  Heap.heap_ordered (Heap.myStorage h) ->
  Heap.myStorage h <> [] ->
  exists k v,
    Heap.try_peek_top_key out h = Done (true, k) /\
    (k, v) ∈ Heap.myStorage h /\
    (forall y, y ∈ Heap.myStorage h -> k <= fst y).
Proof.
  intros Hord Hne.
  destruct (Heap.myStorage h) as [|[k v] rest] eqn:Hst; [done|].
  exists k, v. split_and!.
  - unfold Heap.try_peek_top_key, Heap.storage_size. rewrite Hst. reflexivity.
  - left.
  - intros y Hy. rewrite <- Hst in *.
    apply (heap_top_is_least _ (k, v) Hord); [rewrite Hst; reflexivity|done].
Qed.

(** X5. [compare_try_pop] on a non-empty heap: when the expected key differs
    from the top key it returns false, writes the top key to the expected-key
    slot and leaves the heap and the value slot alone; when they are equal it
    does what [try_pop] does. *)
Theorem heap_compare_try_pop_cases (fuel : nat) (outValue : T)
    (expectedKey : Z) (h : @Heap.heap T) (top : Z * T) :
  Heap.myStorage h !! 0%nat = Some top ->
  (fst top <> expectedKey ->
   Heap.compare_try_pop fuel outValue expectedKey h
   = Done (false, (outValue, fst top), h)) /\
  (fst top = expectedKey ->
   Heap.compare_try_pop fuel outValue expectedKey h
   = Heap.try_pop fuel outValue expectedKey h).
Proof.
  intros Htop.
  pose proof (lookup_lt_Some _ _ _ Htop) as Hlen.
  unfold Heap.compare_try_pop, Heap.try_pop, Heap.storage_size.
  destruct (Z.eqb_spec (Z.of_nat (length (Heap.myStorage h))) 0); [lia|].
  change 0 with (Z.of_nat 0). rewrite (heap_at_lookup _ 0 top Htop).
  cbn [outcome_bind]. split; intros Hk.
  - apply Z.eqb_neq in Hk. rewrite Hk. reflexivity.
  - apply Z.eqb_eq in Hk. rewrite Hk. reflexivity.
Qed.

(** *** Pushing and draining *)

Lemma push_all_keeps_order (fuel : nat) (kvs : list (Z * T)) : forall h : @Heap.heap T,
  Heap.heap_ordered (Heap.myStorage h) ->
  Heap.size h + Z.of_nat (length kvs) < 2 ^ 63 ->
  (length (Heap.myStorage h) + length kvs <= fuel)%nat ->
  exists h',
    Heap.push_all fuel kvs h = Done h' /\
    Heap.heap_ordered (Heap.myStorage h') /\
    Heap.myStorage h' ≡ₚ kvs ++ Heap.myStorage h.
Proof.
  induction kvs as [|[k v] kvs IH]; intros h Hord Hmax Hfuel.
  - exists h. split_and!; [reflexivity|done|done].
  - simpl length in *.
    assert (exists h1, Heap.push fuel v k h = Done h1 /\
                       Heap.heap_ordered (Heap.myStorage h1) /\
                       Heap.myStorage h1 ≡ₚ (k, v) :: Heap.myStorage h)
      as (h1 & Hrun & Hord1 & Hperm1).
    { unfold Heap.size, Heap.storage_size in Hmax.
      destruct (bubble_after_emplace_back fuel (Heap.myStorage h) (k, v))
        as (st' & Hrun & Hord' & Hperm); [done| |lia|].
      { change (2 ^ 63) with 9223372036854775808 in Hmax.
        change (2 ^ 64) with 18446744073709551616. lia. }
      exists (Heap.Heap_ st'). unfold Heap.push. rewrite Hrun. done. }
    destruct (IH h1 Hord1) as (h2 & Hrun2 & Hord2 & Hperm2).
    + unfold Heap.size, Heap.storage_size in *.
      rewrite (Permutation_length Hperm1). simpl length. lia.
    + apply Permutation_length in Hperm1. rewrite Hperm1. simpl. lia.
    + exists h2. split_and!; [|done|].
      * cbn [Heap.push_all]. simpl fst. simpl snd. rewrite Hrun.
        cbn [outcome_bind]. exact Hrun2.
      * eapply perm_trans; [exact Hperm2|].
        eapply perm_trans; [apply Permutation_app_head; exact Hperm1|].
        symmetry. apply Permutation_middle.
Qed.

Lemma drain_sorted (n : nat) : forall (fuel : nat) (v : T) (k : Z) (h : @Heap.heap T),
  Heap.heap_ordered (Heap.myStorage h) ->
  Heap.size h < 2 ^ 63 ->
  (length (Heap.myStorage h) <= fuel)%nat ->
  (length (Heap.myStorage h) <= n)%nat ->
  exists out h',
    Heap.drain fuel n v k h = Done (out, h') /\
    out ≡ₚ Heap.myStorage h /\
    StronglySorted (fun a b => fst a <= fst b) out /\
    Heap.myStorage h' = [].
Proof.
  induction n as [|n IH]; intros fuel v k h Hord Hmax Hfuel Hn.
  - exists [], h. destruct (Heap.myStorage h) eqn:E; [|simpl in Hn; lia].
    split_and!; [reflexivity|done|constructor|done].
  - destruct (decide (Heap.myStorage h = [])) as [Hemp|Hne].
    + destruct (IH fuel v k h Hord Hmax Hfuel) as (out & h' & Hrun & Hperm & Hsort & Hfin).
      { rewrite Hemp. simpl. lia. }
      exists out, h'. split_and!; [|done|done|done].
      cbn [Heap.drain].
      unfold Heap.try_pop, Heap.storage_size. rewrite Hemp.
      change (Z.of_nat (length []) =? 0) with true. cbv iota.
      cbn [outcome_bind fst snd]. rewrite Hrun. reflexivity.
    + destruct (Heap.myStorage h) as [|[k1 v1] rest] eqn:Hst; [done|].
      assert (Hx : Heap.myStorage h !! 0%nat = Some (k1, v1))
        by (rewrite Hst; reflexivity).
      rewrite <- Hst in *.
      destruct (pop_internal_least fuel h (k1, v1) Hord Hx Hmax Hfuel)
        as (h1 & Hpop & Hord1 & Hperm1 & Hsz1).
      pose proof (heap_top_is_least _ (k1, v1) Hord Hx) as Hleast.
      assert (Hrun1 : Heap.try_pop fuel v k h = Done (true, (v1, k1), h1)).
      { unfold Heap.try_pop, Heap.storage_size. rewrite Hst at 1. simpl length.
        destruct (Z.eqb_spec (Z.of_nat (S (length rest))) 0); [lia|].
        rewrite Hpop. reflexivity. }
      assert (Hlen1 : length (Heap.myStorage h) = S (length (Heap.myStorage h1))).
      { apply Permutation_length in Hperm1. exact Hperm1. }
      destruct (IH fuel v k h1 Hord1) as (out & h' & Hrun & Hperm & Hsort & Hfin);
        [lia|lia|lia|].
      exists ((k1, v1) :: out), h'. split_and!; [|  |  |done].
      * cbn [Heap.drain]. rewrite Hrun1. cbn [outcome_bind fst snd].
        rewrite Hrun. reflexivity.
      * symmetry. eapply perm_trans; [exact Hperm1|].
        apply perm_skip. symmetry. exact Hperm.
      * constructor; [done|].
        apply Forall_forall. intros y Hy. simpl.
        apply Hleast. apply list_elem_of_In.
        eapply Permutation_in; [symmetry; exact Hperm1|]. right.
        eapply Permutation_in; [exact Hperm|]. apply list_elem_of_In. exact Hy.
Qed.

(** X6. Heap sort: pushing any pairs on a fresh heap and then calling
    [try_pop] once per pair hands the pairs back in non-decreasing key
    order, each pair once, and leaves the heap empty. *)
Theorem heap_push_then_drain_sorts (fuel : nat) (kvs : list (Z * T))
    (v : T) (k : Z) :
  Z.of_nat (length kvs) < 2 ^ 63 -> (length kvs <= fuel)%nat ->
  exists h out h',
    Heap.push_all fuel kvs (@Heap.new_heap T) = Done h /\
    Heap.drain fuel (length kvs) v k h = Done (out, h') /\
    out ≡ₚ kvs /\
    StronglySorted (fun a b => fst a <= fst b) out /\
    Heap.myStorage h' = [].
Proof.
  intros Hmax Hfuel.
  destruct (push_all_keeps_order fuel kvs (@Heap.new_heap T))
    as (h & Hpush & Hord & Hperm).
  { intros i j x y _ Hi. inversion Hi. }
  { unfold Heap.size, Heap.storage_size. simpl. lia. }
  { simpl. lia. }
  rewrite app_nil_r in Hperm.
  pose proof (Permutation_length Hperm) as Hlen.
  destruct (drain_sorted (length kvs) fuel v k h Hord)
    as (out & h' & Hdrain & Hperm' & Hsort & Hfin).
  { unfold Heap.size, Heap.storage_size. lia. }
  { lia. }
  { lia. }
  exists h, out, h'. split_and!; [done|done| |done|done].
  eapply perm_trans; [exact Hperm'|exact Hperm].
Qed.

End HeapFacts.

(** * Facts about the heap with a size counter *)

Section SizedHeapFacts.

Context {T : Type}.

(** The invariant between calls: heap order, and the counter at the number
    of stored pairs. *)
Lemma sized_push_step (fuel : nat) (in_ : T) (key : Z) (h : @SizedHeap.heap T) :
  Heap.heap_ordered (SizedHeap.myStorage h) ->
  SizedHeap.mySize h = Z.of_nat (length (SizedHeap.myStorage h)) ->
  Z.of_nat (length (SizedHeap.myStorage h)) < 2 ^ 63 ->
  (length (SizedHeap.myStorage h) < fuel)%nat ->
  exists h',
    SizedHeap.push fuel in_ key h = Done h' /\
    Heap.heap_ordered (SizedHeap.myStorage h') /\
    length (SizedHeap.myStorage h') = S (length (SizedHeap.myStorage h)) /\
    SizedHeap.mySize h' = SizedHeap.mySize h + 1.
Proof.
  intros Hord Hsz Hmax Hfuel.
  change (2 ^ 63) with 9223372036854775808 in Hmax.
  destruct (bubble_after_emplace_back fuel (SizedHeap.myStorage h) (key, in_))
    as (st' & Hrun & Hord' & Hperm); [done| |done|].
  { change (2 ^ 64) with 18446744073709551616. lia. }
  exists (SizedHeap.Heap_ st' (wrap (SizedHeap.mySize h + 1))).
  unfold SizedHeap.push. rewrite Hrun. simpl.
  split_and!; [done|done| |].
  - apply Permutation_length in Hperm. rewrite Hperm. reflexivity.
  - apply wrap_small. unfold size_max.
    change (2 ^ 64) with 18446744073709551616. lia.
Qed.

Lemma sized_pop_internal_step (fuel : nat) (h : @SizedHeap.heap T) x :
  Heap.heap_ordered (SizedHeap.myStorage h) ->
  SizedHeap.mySize h = Z.of_nat (length (SizedHeap.myStorage h)) ->
  SizedHeap.myStorage h !! 0%nat = Some x ->
  Z.of_nat (length (SizedHeap.myStorage h)) < 2 ^ 63 ->
  (length (SizedHeap.myStorage h) <= fuel)%nat ->
  exists h',
    SizedHeap.pop_internal fuel h = Done ((snd x, fst x), h') /\
    Heap.heap_ordered (SizedHeap.myStorage h') /\
    S (length (SizedHeap.myStorage h')) = length (SizedHeap.myStorage h) /\
    SizedHeap.mySize h' = SizedHeap.mySize h - 1.
Proof.
  intros Hord Hsz Hx Hmax Hfuel.
  destruct (pop_internal_least fuel (Heap.Heap_ (SizedHeap.myStorage h)) x)
    as (h1 & Hrun & Hord1 & Hperm & _); [done|done|done|done|].
  pose proof (lookup_lt_Some _ _ _ Hx) as Hlt.
  change (2 ^ 63) with 9223372036854775808 in Hmax.
  exists (SizedHeap.Heap_ (Heap.myStorage h1) (wrap (SizedHeap.mySize h - 1))).
  unfold Heap.pop_internal in Hrun. unfold SizedHeap.pop_internal.
  simpl in Hrun, Hperm.
  destruct (Heap.at_ (SizedHeap.myStorage h) 0) as [top| |]; [|done|done].
  cbn [outcome_bind] in *.
  destruct (Heap.swap _ _ _) as [st1| |]; [|done|done].
  cbn [outcome_bind] in *.
  destruct (Heap.pop_back st1) as [st2| |]; [|done|done].
  cbn [outcome_bind] in *.
  destruct (Heap.trickle fuel 0 st2) as [st3| |]; [|done|done].
  cbn [outcome_bind] in *. injection Hrun as Hv Hk <-. simpl.
  split_and!.
  - rewrite Hv, Hk. reflexivity.
  - exact Hord1.
  - apply Permutation_length in Hperm. simpl in Hperm. lia.
  - apply wrap_small. unfold size_max.
    change (2 ^ 64) with 18446744073709551616. lia.
Qed.

Lemma sized_exec_step (fuel : nat) (o : SizedHeap.op) (h : @SizedHeap.heap T) :
  Heap.heap_ordered (SizedHeap.myStorage h) ->
  SizedHeap.mySize h = Z.of_nat (length (SizedHeap.myStorage h)) ->
  Z.of_nat (length (SizedHeap.myStorage h)) < 2 ^ 63 ->
  (length (SizedHeap.myStorage h) < fuel)%nat ->
  exists r h',
    SizedHeap.exec fuel o h = Done (r, h') /\
    Heap.heap_ordered (SizedHeap.myStorage h') /\
    SizedHeap.mySize h' = Z.of_nat (length (SizedHeap.myStorage h')) /\
    (length (SizedHeap.myStorage h') <= S (length (SizedHeap.myStorage h)))%nat /\
    SizedHeap.mySize h' = SizedHeap.tally_step (SizedHeap.mySize h) o r.
Proof.
  intros Hord Hsz Hmax Hfuel.
  assert (Hpop : forall v k,
    exists ok out h',
      SizedHeap.try_pop fuel v k h = Done (ok, out, h') /\
      Heap.heap_ordered (SizedHeap.myStorage h') /\
      SizedHeap.mySize h' = Z.of_nat (length (SizedHeap.myStorage h')) /\
      (length (SizedHeap.myStorage h') <= S (length (SizedHeap.myStorage h)))%nat /\
      SizedHeap.mySize h' = (if ok then SizedHeap.mySize h - 1 else SizedHeap.mySize h)).
  { intros v k. unfold SizedHeap.try_pop, Heap.storage_size.
    destruct (SizedHeap.myStorage h) as [|x rest] eqn:Hst.
    - exists false, (v, k), h. simpl. rewrite Hst. split_and!; auto; simpl; lia.
    - rewrite <- Hst in *.
      destruct (sized_pop_internal_step fuel h x)
        as (h' & Hrun & Hord' & Hlen' & Hsz'); [done|done| |done|lia|].
      { rewrite Hst. reflexivity. }
      exists true, (snd x, fst x), h'.
      destruct (Z.eqb_spec (Z.of_nat (length (SizedHeap.myStorage h))) 0) as [E|_].
      { rewrite Hst in E. simpl in E. lia. }
      rewrite Hrun. simpl. split_and!; auto; lia. }
  destruct o as [in_ key|v k|v|v k|k| |].
  - destruct (sized_push_step fuel in_ key h) as (h' & Hrun & Hord' & Hlen' & Hsz');
      [done|done|done|done|].
    exists SizedHeap.RetVoid, h'. unfold SizedHeap.exec. rewrite Hrun. simpl.
    split_and!; auto; lia.
  - destruct (Hpop v k) as (ok & out & h' & Hrun & Hord' & Hsz' & Hlen' & Hd).
    exists (SizedHeap.RetPop ok out), h'. unfold SizedHeap.exec. rewrite Hrun. simpl.
    split_and!; auto; destruct ok; exact Hd.
  - destruct (Hpop v 0) as (ok & out & h' & Hrun & Hord' & Hsz' & Hlen' & Hd).
    exists (SizedHeap.RetPopValue ok (fst out)), h'.
    unfold SizedHeap.exec, SizedHeap.try_pop_value. rewrite Hrun. simpl.
    split_and!; auto; destruct ok; exact Hd.
  - unfold SizedHeap.exec, SizedHeap.compare_try_pop, Heap.storage_size.
    destruct (SizedHeap.myStorage h) as [|x rest] eqn:Hst.
    + exists (SizedHeap.RetPop false (v, k)), h. simpl. rewrite Hst.
      split_and!; auto; simpl; lia.
    + rewrite <- Hst in *.
      destruct (Z.eqb_spec (Z.of_nat (length (SizedHeap.myStorage h))) 0) as [E|_].
      { rewrite Hst in E. simpl in E. lia. }
      assert (Hx : SizedHeap.myStorage h !! 0%nat = Some x)
        by (rewrite Hst; reflexivity).
      change 0 with (Z.of_nat 0). rewrite (heap_at_lookup _ 0 x Hx).
      cbn [outcome_bind].
      destruct (negb (fst x =? k)).
      * exists (SizedHeap.RetPop false (v, fst x)), h. simpl.
        split_and!; auto; lia.
      * destruct (sized_pop_internal_step fuel h x)
          as (h' & Hrun & Hord' & Hlen' & Hsz'); [done|done|done|done|lia|].
        exists (SizedHeap.RetPop true (snd x, fst x)), h'.
        rewrite Hrun. simpl. split_and!; auto; lia.
  - unfold SizedHeap.exec, SizedHeap.try_peek_top_key, Heap.storage_size.
    destruct (SizedHeap.myStorage h) as [|x rest] eqn:Hst.
    + exists (SizedHeap.RetPeek false k), h. simpl. rewrite Hst.
      split_and!; auto; simpl; lia.
    + exists (SizedHeap.RetPeek true (fst x)), h. simpl. rewrite Hst.
      split_and!; auto; simpl; lia.
  - exists SizedHeap.RetVoid, (SizedHeap.clear h). simpl.
    split_and!; auto; try lia. intros i j x y _ Hi. inversion Hi.
  - exists (SizedHeap.RetSize (SizedHeap.size h)), h. simpl.
    split_and!; auto; lia.
Qed.

Lemma sized_run_steps (ops : list SizedHeap.op) :
  forall (fuel : nat) (h : @SizedHeap.heap T),
    Heap.heap_ordered (SizedHeap.myStorage h) ->
    SizedHeap.mySize h = Z.of_nat (length (SizedHeap.myStorage h)) ->
    Z.of_nat (length (SizedHeap.myStorage h) + length ops) < 2 ^ 63 ->
    (length (SizedHeap.myStorage h) + length ops <= fuel)%nat ->
    exists rs h',
      SizedHeap.run fuel ops h = Done (rs, h') /\
      length rs = length ops /\
      Heap.heap_ordered (SizedHeap.myStorage h') /\
      SizedHeap.size h' = Z.of_nat (length (SizedHeap.myStorage h')) /\
      SizedHeap.size h' = SizedHeap.tally (SizedHeap.mySize h) ops rs.
Proof.
  induction ops as [|o ops IH]; intros fuel h Hord Hsz Hmax Hfuel.
  - exists [], h. simpl. split_and!; auto.
  - simpl length in *.
    destruct (sized_exec_step fuel o h) as (r & h1 & Hrun & Hord1 & Hsz1 & Hlen1 & Hd);
      [done|done|lia|lia|].
    destruct (IH fuel h1 Hord1 Hsz1) as (rs & h' & Hrun' & Hlen' & Hord' & Hsz' & Ht);
      [lia|lia|].
    exists (r :: rs), h'. cbn [SizedHeap.run]. rewrite Hrun.
    cbn [outcome_bind fst snd]. rewrite Hrun'. cbn [outcome_bind fst snd].
    split_and!; auto.
    + simpl. lia.
    + cbn [SizedHeap.tally]. rewrite <- Hd. exact Ht.
Qed.

(** X16. The heap with a size counter: every history of calls on a fresh
    heap runs to completion (with fuel at least the number of calls, below
    2^63 calls), and afterwards [size] returns the number of stored pairs,
    which is the number of pushes minus the number of pops that returned
    true since the last [clear]; the storage is in heap order. *)
Theorem sized_heap_size_counts_pairs (fuel : nat) (ops : list (@SizedHeap.op T)) :
  Z.of_nat (length ops) < 2 ^ 63 -> (length ops <= fuel)%nat ->
  exists rs h,
    SizedHeap.run fuel ops SizedHeap.new_heap = Done (rs, h) /\
    SizedHeap.size h = Z.of_nat (length (SizedHeap.myStorage h)) /\
    SizedHeap.size h = SizedHeap.tally 0 ops rs /\
    Heap.heap_ordered (SizedHeap.myStorage h).
Proof.
  intros Hmax Hfuel.
  destruct (sized_run_steps ops fuel SizedHeap.new_heap)
    as (rs & h & Hrun & _ & Hord & Hsz & Ht).
  - intros i j x y _ Hi. inversion Hi.
  - reflexivity.
  - simpl. exact Hmax.
  - simpl. exact Hfuel.
  - exists rs, h. split_and!; auto.
Qed.

End SizedHeapFacts.

(** * Facts about atomic_oword *)

Section AtomicOwordFacts.

Import AtomicOword.

Lemma length_set_word size (o : list Init.Byte.byte) at_ v :
  (at_ + size <= length o)%nat -> length (set_word size o at_ v) = length o.
Proof.
  intros H. unfold set_word.
  rewrite !length_app, length_take, length_drop, LittleEndianList.length_le_split. lia.
Qed.

Lemma get_set_word size (o : list Init.Byte.byte) at_ v :
  (at_ <= length o)%nat ->
  get_word size (set_word size o at_ v) at_ = v mod 2 ^ (Z.of_nat size * 8).
Proof.
  intros H. unfold get_word, set_word.
  rewrite drop_app_length' by (rewrite length_take; lia).
  rewrite take_app_length' by (symmetry; apply LittleEndianList.length_le_split).
  apply LittleEndianList.le_combine_split.
Qed.

Lemma set_word_other size (o : list Init.Byte.byte) at_ v (i : nat) :
  (at_ + size <= length o)%nat -> (i < at_ \/ at_ + size <= i)%nat ->
  set_word size o at_ v !! i = o !! i.
Proof.
  intros H Hi. unfold set_word. destruct Hi as [Hi|Hi].
  - rewrite lookup_app_l by (rewrite length_take; lia).
    apply lookup_take_lt. lia.
  - rewrite lookup_app_r by (rewrite length_take; lia).
    rewrite lookup_app_r
      by (rewrite length_take, LittleEndianList.length_le_split; lia).
    rewrite lookup_drop, length_take, LittleEndianList.length_le_split.
    f_equal. lia.
Qed.

Lemma set_get_word size (o : list Init.Byte.byte) at_ :
  (at_ + size <= length o)%nat ->
  set_word size o at_ (get_word size o at_) = o.
Proof.
  intros H. unfold set_word, get_word.
  rewrite LittleEndianList.split_le_combine'
    by (rewrite length_take, length_drop; lia).
  rewrite <- drop_drop, take_drop, take_drop. reflexivity.
Qed.

Lemma set_set_word size (o : list Init.Byte.byte) at_ v w :
  (at_ + size <= length o)%nat ->
  set_word size (set_word size o at_ v) at_ w = set_word size o at_ w.
Proof.
  intros H. unfold set_word.
  rewrite take_app_length' by (rewrite length_take; lia).
  rewrite <- drop_drop.
  rewrite drop_app_length' by (rewrite length_take; lia).
  rewrite drop_app_length' by (symmetry; apply LittleEndianList.length_le_split).
  reflexivity.
Qed.

Lemma set_word_mod size (o : list Init.Byte.byte) at_ v :
  set_word size o at_ (v mod 2 ^ (Z.of_nat size * 8)) = set_word size o at_ v.
Proof.
  unfold set_word. rewrite <- LittleEndianList.le_split_mod. reflexivity.
Qed.

Lemma oword_eqb_refl (o : list Init.Byte.byte) : oword_eqb o o = true.
Proof. unfold oword_eqb. rewrite !Z.eqb_refl. reflexivity. Qed.

Lemma oword_eqb_eq (a b : list Init.Byte.byte) :
  length a = 16%nat -> length b = 16%nat -> oword_eqb a b = true -> a = b.
Proof.
  intros Ha Hb H. unfold oword_eqb, get_word in H.
  apply andb_true_iff in H as [H0 H1].
  apply Z.eqb_eq in H0, H1.
  apply LittleEndianList.le_combine_inj in H0;
    [|rewrite !length_take, !length_drop; lia].
  apply LittleEndianList.le_combine_inj in H1;
    [|rewrite !length_take, !length_drop; lia].
  rewrite !drop_0 in H0.
  rewrite <- (take_drop 8 a), <- (take_drop 8 b).
  rewrite H0. f_equal.
  rewrite take_ge in H1 by (rewrite length_drop; lia).
  rewrite take_ge in H1 by (rewrite length_drop; lia).
  exact H1.
Qed.


(** A scaled index that passes the bounds check leaves room for the whole
    word. *)
Lemma scaled_index_fits (size : nat) (atIndex : Z) :
  word_size size -> scaled_index size atIndex < 16 ->
  (Z.to_nat (scaled_index size atIndex) + size <= 16)%nat.
Proof.
  unfold word_size, scaled_index. intros Hsize Hlt.
  assert (Hmul : forall k s, 0 < s -> 0 < k ->
            (atIndex * s) mod (k * s) = (atIndex mod k) * s).
  { intros k s Hs Hk. rewrite Z.mul_mod_distr_r by lia. reflexivity. }
  destruct Hsize as [-> | [-> | [-> | ->]]].
  - change (Z.of_nat 1) with 1 in *. rewrite Z.mul_1_r in *.
    pose proof (Z.mod_pos_bound atIndex 256). lia.
  - change (Z.of_nat 2) with 2 in *. change 256 with (128 * 2) in *.
    rewrite Hmul in * by lia. pose proof (Z.mod_pos_bound atIndex 128). lia.
  - change (Z.of_nat 4) with 4 in *. change 256 with (64 * 4) in *.
    rewrite Hmul in * by lia. pose proof (Z.mod_pos_bound atIndex 64). lia.
  - change (Z.of_nat 8) with 8 in *. change 256 with (32 * 8) in *.
    rewrite Hmul in * by lia. pose proof (Z.mod_pos_bound atIndex 32). lia.
Qed.

Lemma scaled_index_period (size : nat) (atIndex : Z) :
  word_size size ->
  scaled_index size (atIndex + 256 / Z.of_nat size) = scaled_index size atIndex.
Proof.
  unfold word_size, scaled_index. intros [-> | [-> | [-> | ->]]].
  - change (256 / Z.of_nat 1) with 256. change (Z.of_nat 1) with 1.
    rewrite !Z.mul_1_r. rewrite <- (Z.mul_1_l 256) at 1. apply Z.mod_add. lia.
  - change (256 / Z.of_nat 2) with 128. change (Z.of_nat 2) with 2.
    replace ((atIndex + 128) * 2) with (atIndex * 2 + 1 * 256) by lia.
    apply Z.mod_add. lia.
  - change (256 / Z.of_nat 4) with 64. change (Z.of_nat 4) with 4.
    replace ((atIndex + 64) * 4) with (atIndex * 4 + 1 * 256) by lia.
    apply Z.mod_add. lia.
  - change (256 / Z.of_nat 8) with 32. change (Z.of_nat 8) with 8.
    replace ((atIndex + 32) * 8) with (atIndex * 8 + 1 * 256) by lia.
    apply Z.mod_add. lia.
Qed.

(** One turn of a retry loop: the compare-and-swap against a snapshot that
    is the current value succeeds; against any other it fails and refreshes
    the snapshot. *)
Lemma cas_internal_cases (expected desired mem : list Init.Byte.byte) :
  length expected = 16%nat -> length mem = 16%nat ->
  (expected = mem /\
   cas_internal expected desired (AtomicOword_ mem)
   = (true, mem, AtomicOword_ desired)) \/
  (expected <> mem /\
   cas_internal expected desired (AtomicOword_ mem)
   = (false, mem, AtomicOword_ mem)).
Proof.
  intros He Hm. unfold cas_internal. simpl.
  destruct (oword_eqb mem expected) eqn:E.
  - left. apply oword_eqb_eq in E; [|done|done]. subst. done.
  - right. split; [|done]. intros ->. rewrite oword_eqb_refl in E. done.
Qed.

Lemma fetch_add_loop_settles fuel size at_ value (expected mem : list Init.Byte.byte) :
  length expected = 16%nat -> length mem = 16%nat ->
  (at_ + size <= 16)%nat ->
  fetch_add_loop (S (S fuel)) size at_ value expected (AtomicOword_ mem)
  = Done (mem, AtomicOword_ (set_word size mem at_ (get_word size mem at_ + value))).
Proof.
  intros He Hm Hfit. cbn [fetch_add_loop].
  destruct (cas_internal_cases expected
              (set_word size expected at_ (get_word size expected at_ + value)) mem)
    as [[-> ->]|[_ ->]]; [done|done|reflexivity|].
  destruct (cas_internal_cases mem
              (set_word size mem at_ (get_word size mem at_ + value)) mem)
    as [[_ ->]|[Hne _]]; [done|done|reflexivity|done].
Qed.

Lemma fetch_sub_loop_settles fuel size at_ value (expected mem : list Init.Byte.byte) :
  length expected = 16%nat -> length mem = 16%nat ->
  (at_ + size <= 16)%nat ->
  fetch_sub_loop (S (S fuel)) size at_ value expected (AtomicOword_ mem)
  = Done (mem, AtomicOword_ (set_word size mem at_ (get_word size mem at_ - value))).
Proof.
  intros He Hm Hfit. cbn [fetch_sub_loop].
  destruct (cas_internal_cases expected
              (set_word size expected at_ (get_word size expected at_ - value)) mem)
    as [[-> ->]|[_ ->]]; [done|done|reflexivity|].
  destruct (cas_internal_cases mem
              (set_word size mem at_ (get_word size mem at_ - value)) mem)
    as [[_ ->]|[Hne _]]; [done|done|reflexivity|done].
Qed.

Lemma exchange_word_loop_settles fuel size at_ value (expected mem : list Init.Byte.byte) :
  length expected = 16%nat -> length mem = 16%nat ->
  (at_ + size <= 16)%nat ->
  exchange_word_loop (S (S fuel)) size at_ value expected (AtomicOword_ mem)
  = Done (mem, AtomicOword_ (set_word size mem at_ value)).
Proof.
  intros He Hm Hfit. cbn [exchange_word_loop].
  destruct (cas_internal_cases expected (set_word size expected at_ value) mem)
    as [[-> ->]|[_ ->]]; [done|done|reflexivity|].
  destruct (cas_internal_cases mem (set_word size mem at_ value) mem)
    as [[_ ->]|[Hne _]]; [done|done|reflexivity|done].
Qed.

Lemma exchange_loop_settles fuel (expected desired mem : list Init.Byte.byte) :
  length expected = 16%nat -> length mem = 16%nat ->
  exchange_loop (S (S fuel)) expected desired (AtomicOword_ mem)
  = Done (mem, AtomicOword_ desired).
Proof.
  intros He Hm. cbn [exchange_loop]. unfold compare_exchange_strong.
  destruct (cas_internal_cases expected desired mem)
    as [[-> ->]|[_ ->]]; [done|done|reflexivity|].
  destruct (cas_internal_cases mem desired mem)
    as [[_ ->]|[Hne _]]; [done|done|reflexivity|done].
Qed.

(** From the current value one turn is enough. *)
Lemma fetch_add_loop_fresh fuel size at_ value (mem : list Init.Byte.byte) :
  fetch_add_loop (S fuel) size at_ value mem (AtomicOword_ mem)
  = Done (mem, AtomicOword_ (set_word size mem at_ (get_word size mem at_ + value))).
Proof.
  cbn [fetch_add_loop]. unfold cas_internal. simpl.
  rewrite oword_eqb_refl. reflexivity.
Qed.

Lemma fetch_sub_loop_fresh fuel size at_ value (mem : list Init.Byte.byte) :
  fetch_sub_loop (S fuel) size at_ value mem (AtomicOword_ mem)
  = Done (mem, AtomicOword_ (set_word size mem at_ (get_word size mem at_ - value))).
Proof.
  cbn [fetch_sub_loop]. unfold cas_internal. simpl.
  rewrite oword_eqb_refl. reflexivity.
Qed.

Lemma exchange_word_loop_fresh fuel size at_ value (mem : list Init.Byte.byte) :
  exchange_word_loop (S fuel) size at_ value mem (AtomicOword_ mem)
  = Done (mem, AtomicOword_ (set_word size mem at_ value)).
Proof.
  cbn [exchange_word_loop]. unfold cas_internal. simpl.
  rewrite oword_eqb_refl. reflexivity.
Qed.

(** X17. [fetch_add_to_word_type] with an index that passes the bounds
    check returns the former contents; afterwards the word at the index
    holds the sum modulo the width of the word type (no carry leaves the
    word), every byte outside that word is as it was, and the oword still
    has sixteen bytes. *)
Theorem fetch_add_stays_in_lane (fuel size : nat) (value atIndex : Z)
    (a : atomic_oword) :
  word_size size -> length (myValue a) = 16%nat ->
  scaled_index size atIndex < 16 ->
  exists a',
    fetch_add_to_word_type (S fuel) size value atIndex a = Done (myValue a, a') /\
    length (myValue a') = 16%nat /\
    get_word size (myValue a') (Z.to_nat (scaled_index size atIndex))
    = (get_word size (myValue a) (Z.to_nat (scaled_index size atIndex)) + value)
        mod 2 ^ (Z.of_nat size * 8) /\
    forall i : nat,
      (i < Z.to_nat (scaled_index size atIndex) \/
       Z.to_nat (scaled_index size atIndex) + size <= i)%nat ->
      myValue a' !! i = myValue a !! i.
Proof.
  intros Hsize Hlen Hidx.
  pose proof (scaled_index_fits size atIndex Hsize Hidx) as Hfit.
  destruct a as [mem]. simpl in *.
  eexists. split_and!.
  - unfold fetch_add_to_word_type, my_val. cbv zeta.
    apply Z.ltb_lt in Hidx. rewrite Hidx. cbn [negb myValue].
    apply fetch_add_loop_fresh.
  - simpl. rewrite length_set_word by lia. exact Hlen.
  - simpl. apply get_set_word. lia.
  - intros i Hi. simpl. apply set_word_other; [lia|exact Hi].
Qed.

(** X18. The retry loops take their snapshot for what it is worth: started
    from any sixteen-byte snapshot, current or stale, the loops of
    [fetch_add_to_word_type], [fetch_sub_to_word_type],
    [exchange_word_type] and [exchange] end within two turns, return the
    contents the word had, and apply the update to those contents. *)
Theorem retry_loops_settle_on_current_value (fuel size at_ : nat) (value : Z)
    (expected desired mem : list Init.Byte.byte) :
  length expected = 16%nat -> length mem = 16%nat -> (at_ + size <= 16)%nat ->
  fetch_add_loop (S (S fuel)) size at_ value expected (AtomicOword_ mem)
  = Done (mem, AtomicOword_ (set_word size mem at_ (get_word size mem at_ + value))) /\
  fetch_sub_loop (S (S fuel)) size at_ value expected (AtomicOword_ mem)
  = Done (mem, AtomicOword_ (set_word size mem at_ (get_word size mem at_ - value))) /\
  exchange_word_loop (S (S fuel)) size at_ value expected (AtomicOword_ mem)
  = Done (mem, AtomicOword_ (set_word size mem at_ value)) /\
  exchange_loop (S (S fuel)) expected desired (AtomicOword_ mem)
  = Done (mem, AtomicOword_ desired).
Proof.
  intros He Hm Hfit. split_and!.
  - apply fetch_add_loop_settles; done.
  - apply fetch_sub_loop_settles; done.
  - apply exchange_word_loop_settles; done.
  - apply exchange_loop_settles; done.
Qed.

(** X19. Round trip: [fetch_add_to_word_type] followed by
    [fetch_sub_to_word_type] with the same value and index puts the oword
    back as it was, also when the addition wrapped around. *)
Theorem fetch_add_then_fetch_sub_restores (fuel size : nat) (value atIndex : Z)
    (a : atomic_oword) :
  word_size size -> length (myValue a) = 16%nat ->
  scaled_index size atIndex < 16 ->
  exists a',
    fetch_add_to_word_type (S fuel) size value atIndex a = Done (myValue a, a') /\
    fetch_sub_to_word_type (S fuel) size value atIndex a' = Done (myValue a', a).
Proof.
  intros Hsize Hlen Hidx.
  pose proof (scaled_index_fits size atIndex Hsize Hidx) as Hfit.
  destruct a as [mem]. simpl in *.
  set (at_ := Z.to_nat (scaled_index size atIndex)) in *.
  exists (AtomicOword_ (set_word size mem at_ (get_word size mem at_ + value))).
  unfold fetch_add_to_word_type, fetch_sub_to_word_type, my_val. cbv zeta.
  apply Z.ltb_lt in Hidx. rewrite Hidx. cbn [negb myValue]. fold at_.
  split; [apply fetch_add_loop_fresh|].
  rewrite fetch_sub_loop_fresh. do 3 f_equal.
  rewrite set_set_word by lia.
  rewrite get_set_word by lia.
  rewrite <- set_word_mod, Zminus_mod_idemp_l.
  replace (get_word size mem at_ + value - value) with (get_word size mem at_) by lia.
  rewrite set_word_mod. apply set_get_word. lia.
Qed.

(** X20. The bounds check is made on the index scaled in eight bits: for a
    word type of more than one byte an index 256 / size too high is taken
    for the index itself (index 32 of the quadwords is quadword 0), and an
    index whose scaled value is 16 or more is a fault. *)
Theorem scaled_index_wraps (fuel size : nat) (value atIndex : Z)
    (a : atomic_oword) :
  word_size size ->
  fetch_add_to_word_type fuel size value (atIndex + 256 / Z.of_nat size) a
  = fetch_add_to_word_type fuel size value atIndex a /\
  fetch_sub_to_word_type fuel size value (atIndex + 256 / Z.of_nat size) a
  = fetch_sub_to_word_type fuel size value atIndex a /\
  exchange_word_type fuel size value (atIndex + 256 / Z.of_nat size) a
  = exchange_word_type fuel size value atIndex a /\
  (16 <= (atIndex mod (256 / Z.of_nat size)) * Z.of_nat size ->
   fetch_add_to_word_type fuel size value atIndex a = Fault /\
   fetch_sub_to_word_type fuel size value atIndex a = Fault /\
   exchange_word_type fuel size value atIndex a = Fault).
Proof.
  intros Hsize.
  unfold fetch_add_to_word_type, fetch_sub_to_word_type, exchange_word_type.
  cbv zeta. rewrite (scaled_index_period size atIndex Hsize).
  split_and!; [reflexivity|reflexivity|reflexivity|].
  intros Hbig.
  assert (Hs : scaled_index size atIndex
               = (atIndex mod (256 / Z.of_nat size)) * Z.of_nat size).
  { unfold scaled_index. unfold word_size in Hsize.
    destruct Hsize as [-> | [-> | [-> | ->]]].
    - change (256 / Z.of_nat 1) with 256. change (Z.of_nat 1) with 1.
      rewrite !Z.mul_1_r. reflexivity.
    - change (256 / Z.of_nat 2) with 128. change (Z.of_nat 2) with 2.
      change 256 with (128 * 2). apply Z.mul_mod_distr_r; lia.
    - change (256 / Z.of_nat 4) with 64. change (Z.of_nat 4) with 4.
      change 256 with (64 * 4). apply Z.mul_mod_distr_r; lia.
    - change (256 / Z.of_nat 8) with 32. change (Z.of_nat 8) with 8.
      change 256 with (32 * 8). apply Z.mul_mod_distr_r; lia. }
  assert (Hge : (scaled_index size atIndex <? 16) = false)
    by (apply Z.ltb_ge; lia).
  rewrite Hge. done.
Qed.

(** X26. [exchange_word_type] with an index that passes the bounds check
    returns the former contents and writes exactly its word: the word holds
    the value (cut to the width of the word type), every byte outside it is
    as it was, and exchanging the former word back in restores the oword. *)
Theorem exchange_word_stays_in_lane (fuel size : nat) (value atIndex : Z)
    (a : atomic_oword) :
  word_size size -> length (myValue a) = 16%nat ->
  scaled_index size atIndex < 16 ->
  exists a',
    exchange_word_type (S fuel) size value atIndex a = Done (myValue a, a') /\
    length (myValue a') = 16%nat /\
    get_word size (myValue a') (Z.to_nat (scaled_index size atIndex))
    = value mod 2 ^ (Z.of_nat size * 8) /\
    (forall i : nat,
        (i < Z.to_nat (scaled_index size atIndex) \/
         Z.to_nat (scaled_index size atIndex) + size <= i)%nat ->
        myValue a' !! i = myValue a !! i) /\
    exchange_word_type (S fuel) size
      (get_word size (myValue a) (Z.to_nat (scaled_index size atIndex))) atIndex a'
    = Done (myValue a', a).
Proof.
  intros Hsize Hlen Hidx.
  pose proof (scaled_index_fits size atIndex Hsize Hidx) as Hfit.
  destruct a as [mem]. simpl in *.
  set (at_ := Z.to_nat (scaled_index size atIndex)) in *.
  exists (AtomicOword_ (set_word size mem at_ value)).
  unfold exchange_word_type, my_val. cbv zeta.
  apply Z.ltb_lt in Hidx. rewrite Hidx. cbn [negb myValue]. fold at_.
  split_and!.
  - apply exchange_word_loop_fresh.
  - rewrite length_set_word by lia. exact Hlen.
  - apply get_set_word. lia.
  - intros i Hi. apply set_word_other; [lia|exact Hi].
  - rewrite exchange_word_loop_fresh. do 3 f_equal.
    rewrite set_set_word by lia. apply set_get_word. lia.
Qed.

(** X21. [load], a compare-and-swap of zero against zero, returns the
    contents of the word and leaves them as they are, whether they are zero
    or not. *)
Theorem load_returns_contents (a : atomic_oword) :
  length (myValue a) = 16%nat -> load a = (myValue a, a).
Proof.
  intros Hlen. destruct a as [mem]. simpl in *. unfold load. cbv zeta.
  destruct (cas_internal_cases oword_zero oword_zero mem)
    as [[<- ->]|[_ ->]]; [reflexivity|done|reflexivity|reflexivity].
Qed.

(** X22. [store], [exchange] and [compare_exchange_strong]: [exchange]
    returns the former contents and leaves the desired ones, [store] leaves
    the desired ones, so that a following [load] returns them;
    [compare_exchange_strong] with the current contents as expected value
    succeeds and stores, with any other it fails, hands the current contents
    back in [expected] and stores nothing. *)
Theorem store_exchange_compare_exchange (fuel : nat)
    (expected desired : list Init.Byte.byte) (a : atomic_oword) :
  length (myValue a) = 16%nat -> length expected = 16%nat ->
  length desired = 16%nat ->
  exchange (S fuel) desired a = Done (myValue a, AtomicOword_ desired) /\
  store (S fuel) desired a = Done (AtomicOword_ desired) /\
  load (AtomicOword_ desired) = (desired, AtomicOword_ desired) /\
  (expected = myValue a ->
   compare_exchange_strong expected desired a
   = (true, expected, AtomicOword_ desired)) /\
  (expected <> myValue a ->
   compare_exchange_strong expected desired a = (false, myValue a, a)).
Proof.
  intros Hlen He Hd. destruct a as [mem]. simpl in *.
  assert (Hex : exchange_loop (S fuel) mem desired (AtomicOword_ mem)
                = Done (mem, AtomicOword_ desired)).
  { cbn [exchange_loop]. unfold compare_exchange_strong, cas_internal. simpl.
    rewrite oword_eqb_refl. reflexivity. }
  split_and!.
  - exact Hex.
  - unfold store, my_val. simpl myValue. rewrite Hex. reflexivity.
  - unfold load. cbv zeta.
    destruct (cas_internal_cases oword_zero oword_zero desired)
      as [[<- ->]|[_ ->]]; [reflexivity|done|reflexivity|reflexivity].
  - intros ->. unfold compare_exchange_strong, cas_internal. simpl.
    rewrite oword_eqb_refl. reflexivity.
  - intros Hne. unfold compare_exchange_strong.
    destruct (cas_internal_cases expected desired mem)
      as [[Heq _]|[_ ->]]; [done|done|done|reflexivity].
Qed.

End AtomicOwordFacts.

(** ** The further properties at concrete inputs

    The heap holds the keys 1, 3, 2 with natural numbers as values. *)

Lemma heap_push_keeps_order_witness :
  exists h',
    Heap.push 4 5%nat 0 heap_132 = Done h' /\
    Heap.heap_ordered (Heap.myStorage h') /\
    Heap.myStorage h' ≡ₚ (0, 5%nat) :: Heap.myStorage heap_132 /\
    Heap.size h' = Heap.size heap_132 + 1.
Proof.
  apply (heap_push_keeps_order 4 5%nat 0 heap_132).
  - apply heap_orderedb_sound. vm_compute. reflexivity.
  - vm_compute. reflexivity.
  - simpl. lia.
Defined.

Lemma heap_try_pop_least_witness :
  exists v k h',
    Heap.try_pop 3 0%nat 0 heap_132 = Done (true, (v, k), h') /\
    Heap.myStorage heap_132 !! 0%nat = Some (k, v) /\
    (forall y, y ∈ Heap.myStorage heap_132 -> k <= fst y) /\
    Heap.heap_ordered (Heap.myStorage h') /\
    Heap.myStorage heap_132 ≡ₚ (k, v) :: Heap.myStorage h' /\
    Heap.size h' = Heap.size heap_132 - 1.
Proof.
  apply (heap_try_pop_least 3 0%nat 0 heap_132).
  - apply heap_orderedb_sound. vm_compute. reflexivity.
  - simpl. discriminate.
  - vm_compute. reflexivity.
  - simpl. lia.
Defined.

Lemma heap_empty_returns_false_witness :
  Heap.try_pop 0 7%nat 9 (@Heap.new_heap nat) = Done (false, (7%nat, 9), Heap.new_heap) /\
  Heap.try_pop_value 0 7%nat (@Heap.new_heap nat) = Done (false, 7%nat, Heap.new_heap) /\
  Heap.compare_try_pop 0 7%nat 9 (@Heap.new_heap nat)
  = Done (false, (7%nat, 9), Heap.new_heap) /\
  Heap.try_peek_top_key 9 (@Heap.new_heap nat) = Done (false, 9).
Proof.
  apply (heap_empty_returns_false 0 7%nat 9 (@Heap.new_heap nat)).
  reflexivity.
Defined.

Lemma heap_peek_is_least_witness :
  exists k v,
    Heap.try_peek_top_key 0 heap_132 = Done (true, k) /\
    (k, v) ∈ Heap.myStorage heap_132 /\
    (forall y, y ∈ Heap.myStorage heap_132 -> k <= fst y).
Proof.
  apply (heap_peek_is_least 0 heap_132).
  - apply heap_orderedb_sound. vm_compute. reflexivity.
  - simpl. discriminate.
Defined.

Lemma heap_compare_try_pop_cases_witness :
  (fst (1, 10%nat) <> 4 ->
   Heap.compare_try_pop 3 0%nat 4 heap_132 = Done (false, (0%nat, fst (1, 10%nat)), heap_132)) /\
  (fst (1, 10%nat) = 4 ->
   Heap.compare_try_pop 3 0%nat 4 heap_132 = Heap.try_pop 3 0%nat 4 heap_132).
Proof.
  apply (heap_compare_try_pop_cases 3 0%nat 4 heap_132 (1, 10%nat)).
  reflexivity.
Defined.

Lemma heap_push_then_drain_sorts_witness :
  exists h out h',
    Heap.push_all 3 [(7, 1%nat); (2, 2%nat); (5, 3%nat)] (@Heap.new_heap nat) = Done h /\
    Heap.drain 3 (length [(7, 1%nat); (2, 2%nat); (5, 3%nat)]) 0%nat 0 h = Done (out, h') /\
    out ≡ₚ [(7, 1%nat); (2, 2%nat); (5, 3%nat)] /\
    StronglySorted (fun a b => fst a <= fst b) out /\
    Heap.myStorage h' = [].
Proof.
  apply (heap_push_then_drain_sorts 3 [(7, 1%nat); (2, 2%nat); (5, 3%nat)] 0%nat 0).
  - vm_compute. reflexivity.
  - simpl. lia.
Defined.

Lemma size_never_exceeds_chain_witness :
  exists n,
    size (one_node_list 0%nat 0 1 (4, 7%nat)) = Done (n, one_node_list 0%nat 0 1 (4, 7%nat)) /\
    0 <= n <= Z.of_nat (length (chain (one_node_list 0%nat 0 1 (4, 7%nat)))).
Proof.
  apply (size_never_exceeds_chain 0%nat 0 (one_node_list 0%nat 0 1 (4, 7%nat))).
  apply one_node_list_reachable.
Defined.

Lemma try_pop_hands_out_head_witness :
  exists h kv tl s' nx,
    chain (one_node_list 0%nat 0 1 (4, 7%nat)) = (h, kv) :: tl /\
    try_pop 1 (0, 0%nat) (one_node_list 0%nat 0 1 (4, 7%nat)) = Done ((true, kv), s') /\
    try_peek_top_key (fst (0, 0%nat)) (one_node_list 0%nat 0 1 (4, 7%nat))
    = Done ((true, fst kv), one_node_list 0%nat 0 1 (4, 7%nat)) /\
    Forall (fun x => fst kv <= fst (snd x)) (chain (one_node_list 0%nat 0 1 (4, 7%nat))) /\
    chain s' = tl /\
    mySize s' = mySize (one_node_list 0%nat 0 1 (4, 7%nat)) - 1 /\
    myMemoryPool s' !! h = Some (Node kv nx) /\
    ptr_of nx = None /\ tag_of nx = true.
Proof.
  apply (try_pop_hands_out_head 0%nat 0 (one_node_list 0%nat 0 1 (4, 7%nat)) 0 (0, 0%nat)).
  - apply one_node_list_reachable.
  - reflexivity.
Defined.

Lemma compare_try_pop_match_pops_witness :
  exists s',
    compare_try_pop 1 (4, 0%nat) (one_node_list 0%nat 0 1 (4, 7%nat))
    = Done ((true, (4, 7%nat)), s') /\
    chain s' = [] /\
    mySize s' = mySize (one_node_list 0%nat 0 1 (4, 7%nat)) - 1.
Proof.
  apply (compare_try_pop_match_pops 0%nat 0 (one_node_list 0%nat 0 1 (4, 7%nat)) 0
           (4, 0%nat) 1%nat (4, 7%nat) []).
  - apply one_node_list_reachable.
  - reflexivity.
  - vm_compute. reflexivity.
  - reflexivity.
Defined.

Lemma insert_then_try_pop_round_trip_witness :
  exists s1 s2,
    insert 0%nat 0 2 (3, 9%nat) (one_node_list 0%nat 0 1 (4, 7%nat)) = Done (tt, s1) /\
    try_pop 2 (0, 0%nat) s1 = Done ((true, (3, 9%nat)), s2) /\
    chain_pairs s2 = chain_pairs (one_node_list 0%nat 0 1 (4, 7%nat)) /\
    mySize s2 = mySize (one_node_list 0%nat 0 1 (4, 7%nat)).
Proof.
  apply (insert_then_try_pop_round_trip 0%nat 0 (one_node_list 0%nat 0 1 (4, 7%nat)) 2
           (3, 9%nat) (0, 0%nat)).
  - apply one_node_list_reachable.
  - vm_compute. reflexivity.
  - vm_compute. repeat constructor.
  - vm_compute. lia.
Defined.

Lemma unsafe_clear_leaves_head_witness :
  exists s',
    unsafe_clear (one_node_list 0%nat 0 1 (4, 7%nat)) = Done (tt, s') /\
    chain s' = (if mySize (one_node_list 0%nat 0 1 (4, 7%nat)) =? 0
                then chain (one_node_list 0%nat 0 1 (4, 7%nat))
                else take 1 (chain (one_node_list 0%nat 0 1 (4, 7%nat)))) /\
    mySize s' = 0.
Proof.
  apply (unsafe_clear_leaves_head 0%nat 0 (one_node_list 0%nat 0 1 (4, 7%nat))).
  apply one_node_list_reachable.
Defined.

Lemma overlapping_pops_take_distinct_nodes_witness :
  exists head splice s1 s2,
    try_pop_internal_begin (fst (0, 0%nat)) (snd (0, 0%nat)) false
      (two_node_list 0%nat 0 (4, 7%nat) (6, 8%nat))
    = Done (inr (head, splice), s1) /\
    try_pop 2 (0, 0%nat) s1 = Done ((true, (6, 8%nat)), s2) /\
    try_pop_internal_end 0 (fst (0, 0%nat)) (snd (0, 0%nat)) false head splice s2
    = Done ((true, (4, 7%nat)), s2) /\
    chain s2 = [] /\
    mySize s2 = mySize (two_node_list 0%nat 0 (4, 7%nat) (6, 8%nat)) - 2.
Proof.
  apply (overlapping_pops_take_distinct_nodes 0%nat 0
           (two_node_list 0%nat 0 (4, 7%nat) (6, 8%nat)) 0 0
           (0, 0%nat) (0, 0%nat) 1%nat 2%nat (4, 7%nat) (6, 8%nat) []).
  - apply (run_reachable 0%nat 0 [Insert (4, 7%nat); Insert (6, 8%nat)] 3
             (new_list 0%nat 0) [RetVoid; RetVoid]);
      [apply reachable_new|vm_compute; reflexivity].
  - vm_compute. reflexivity.
  - simpl. lia.
Defined.

Lemma insert_helps_pending_pop_witness :
  exists head splice s1 s2 la lb,
    try_pop_internal_begin (fst (0, 0%nat)) (snd (0, 0%nat)) false
      (one_node_list 0%nat 0 1 (4, 7%nat))
    = Done (inr (head, splice), s1) /\
    insert 0%nat 0 2 (6, 8%nat) s1 = Done (tt, s2) /\
    try_pop_internal_end 0 (fst (0, 0%nat)) (snd (0, 0%nat)) false head splice s2
    = Done ((true, (4, 7%nat)), s2) /\
    map snd ([] : list (nat * (Z * nat))) = la ++ lb /\
    chain_pairs s2 = la ++ (6, 8%nat) :: lb /\
    Forall (fun p => fst p <= fst (6, 8%nat)) la /\
    Forall (fun p => fst (6, 8%nat) < fst p) lb /\
    mySize s2 = mySize (one_node_list 0%nat 0 1 (4, 7%nat)).
Proof.
  apply (insert_helps_pending_pop 0%nat 0 (one_node_list 0%nat 0 1 (4, 7%nat)) 2 0
           (0, 0%nat) (6, 8%nat) 1%nat (4, 7%nat) []).
  - apply one_node_list_reachable.
  - vm_compute. reflexivity.
  - reflexivity.
  - simpl. lia.
  - vm_compute. lia.
Defined.

Lemma insert_in_front_of_pending_pop_witness :
  exists head splice s1 s2 s3 nx,
    try_pop_internal_begin (fst (0, 0%nat)) (snd (0, 0%nat)) false
      (one_node_list 0%nat 0 1 (4, 7%nat))
    = Done (inr (head, splice), s1) /\
    insert 0%nat 0 1 (2, 3%nat) s1 = Done (tt, s2) /\
    try_pop_internal_end 0 (fst (0, 0%nat)) (snd (0, 0%nat)) false head splice s2
    = Done ((true, (4, 7%nat)), s2) /\
    chain s2
    = (length (myMemoryPool (one_node_list 0%nat 0 1 (4, 7%nat))), (2, 3%nat))
        :: (1%nat, (4, 7%nat)) :: [] /\
    myMemoryPool s2 !! 1%nat = Some (Node (4, 7%nat) nx) /\ tag_of nx = true /\
    mySize s2 = mySize (one_node_list 0%nat 0 1 (4, 7%nat)) /\
    try_pop 1 (0, 0%nat) s2 = Done ((true, (2, 3%nat)), s3) /\
    try_peek_top_key 0 s3 = Done ((true, fst (4, 7%nat)), s3) /\
    mySize s3 = mySize (one_node_list 0%nat 0 1 (4, 7%nat)) - 1.
Proof.
  apply (insert_in_front_of_pending_pop 0%nat 0 (one_node_list 0%nat 0 1 (4, 7%nat))
           1 0 0 (0, 0%nat) (0, 0%nat) (2, 3%nat) 0 1%nat (4, 7%nat) []).
  - apply one_node_list_reachable.
  - vm_compute. reflexivity.
  - reflexivity.
  - simpl. lia.
  - lia.
Defined.

Lemma sized_heap_size_counts_pairs_witness :
  exists rs h,
    SizedHeap.run 4
      [SizedHeap.Push 1%nat 7; SizedHeap.Push 2%nat 3;
       SizedHeap.TryPop 0%nat 0; SizedHeap.Size]
      SizedHeap.new_heap = Done (rs, h) /\
    SizedHeap.size h = Z.of_nat (length (SizedHeap.myStorage h)) /\
    SizedHeap.size h
    = SizedHeap.tally 0
        [SizedHeap.Push 1%nat 7; SizedHeap.Push 2%nat 3;
         SizedHeap.TryPop 0%nat 0; SizedHeap.Size] rs /\
    Heap.heap_ordered (SizedHeap.myStorage h).
Proof.
  apply (sized_heap_size_counts_pairs 4
           [SizedHeap.Push 1%nat 7; SizedHeap.Push 2%nat 3;
            SizedHeap.TryPop 0%nat 0; SizedHeap.Size]).
  - vm_compute. reflexivity.
  - simpl. lia.
Defined.

Lemma fetch_add_stays_in_lane_witness :
  exists a',
    AtomicOword.fetch_add_to_byte 1 1 0 (AtomicOword.AtomicOword_ AtomicOword.oword_ones)
    = Done (AtomicOword.myValue (AtomicOword.AtomicOword_ AtomicOword.oword_ones), a') /\
    length (AtomicOword.myValue a') = 16%nat /\
    AtomicOword.get_word 1 (AtomicOword.myValue a')
      (Z.to_nat (AtomicOword.scaled_index 1 0))
    = (AtomicOword.get_word 1
         (AtomicOword.myValue (AtomicOword.AtomicOword_ AtomicOword.oword_ones))
         (Z.to_nat (AtomicOword.scaled_index 1 0)) + 1)
        mod 2 ^ (Z.of_nat 1 * 8) /\
    forall i : nat,
      (i < Z.to_nat (AtomicOword.scaled_index 1 0) \/
       Z.to_nat (AtomicOword.scaled_index 1 0) + 1 <= i)%nat ->
      AtomicOword.myValue a' !! i
      = AtomicOword.myValue (AtomicOword.AtomicOword_ AtomicOword.oword_ones) !! i.
Proof.
  apply (fetch_add_stays_in_lane 0 1 1 0
           (AtomicOword.AtomicOword_ AtomicOword.oword_ones)).
  - left. reflexivity.
  - reflexivity.
  - vm_compute. reflexivity.
Defined.

Lemma retry_loops_settle_on_current_value_witness :
  AtomicOword.fetch_add_loop 2 8 8 1 AtomicOword.oword_zero
    (AtomicOword.AtomicOword_ AtomicOword.oword_ones)
  = Done (AtomicOword.oword_ones,
          AtomicOword.AtomicOword_
            (AtomicOword.set_word 8 AtomicOword.oword_ones 8
               (AtomicOword.get_word 8 AtomicOword.oword_ones 8 + 1))) /\
  AtomicOword.fetch_sub_loop 2 8 8 1 AtomicOword.oword_zero
    (AtomicOword.AtomicOword_ AtomicOword.oword_ones)
  = Done (AtomicOword.oword_ones,
          AtomicOword.AtomicOword_
            (AtomicOword.set_word 8 AtomicOword.oword_ones 8
               (AtomicOword.get_word 8 AtomicOword.oword_ones 8 - 1))) /\
  AtomicOword.exchange_word_loop 2 8 8 1 AtomicOword.oword_zero
    (AtomicOword.AtomicOword_ AtomicOword.oword_ones)
  = Done (AtomicOword.oword_ones,
          AtomicOword.AtomicOword_ (AtomicOword.set_word 8 AtomicOword.oword_ones 8 1)) /\
  AtomicOword.exchange_loop 2 AtomicOword.oword_zero AtomicOword.oword_zero
    (AtomicOword.AtomicOword_ AtomicOword.oword_ones)
  = Done (AtomicOword.oword_ones, AtomicOword.AtomicOword_ AtomicOword.oword_zero).
Proof.
  apply (retry_loops_settle_on_current_value 0 8 8 1 AtomicOword.oword_zero
           AtomicOword.oword_zero AtomicOword.oword_ones).
  - reflexivity.
  - reflexivity.
  - lia.
Defined.

Lemma fetch_add_then_fetch_sub_restores_witness :
  exists a',
    AtomicOword.fetch_add_to_word 1 1 7
      (AtomicOword.AtomicOword_ AtomicOword.oword_ones)
    = Done (AtomicOword.myValue (AtomicOword.AtomicOword_ AtomicOword.oword_ones), a') /\
    AtomicOword.fetch_sub_to_word 1 1 7 a'
    = Done (AtomicOword.myValue a', AtomicOword.AtomicOword_ AtomicOword.oword_ones).
Proof.
  apply (fetch_add_then_fetch_sub_restores 0 2 1 7
           (AtomicOword.AtomicOword_ AtomicOword.oword_ones)).
  - right. left. reflexivity.
  - reflexivity.
  - vm_compute. reflexivity.
Defined.

Lemma scaled_index_wraps_witness :
  AtomicOword.fetch_add_to_qword 1 5 32 AtomicOword.new_atomic_oword
  = AtomicOword.fetch_add_to_qword 1 5 0 AtomicOword.new_atomic_oword /\
  AtomicOword.fetch_sub_to_qword 1 5 32 AtomicOword.new_atomic_oword
  = AtomicOword.fetch_sub_to_qword 1 5 0 AtomicOword.new_atomic_oword /\
  AtomicOword.exchange_qword 1 5 32 AtomicOword.new_atomic_oword
  = AtomicOword.exchange_qword 1 5 0 AtomicOword.new_atomic_oword /\
  (16 <= (0 mod (256 / Z.of_nat 8)) * Z.of_nat 8 ->
   AtomicOword.fetch_add_to_qword 1 5 0 AtomicOword.new_atomic_oword = Fault /\
   AtomicOword.fetch_sub_to_qword 1 5 0 AtomicOword.new_atomic_oword = Fault /\
   AtomicOword.exchange_qword 1 5 0 AtomicOword.new_atomic_oword = Fault).
Proof.
  apply (scaled_index_wraps 1 8 5 0 AtomicOword.new_atomic_oword).
  right. right. right. reflexivity.
Defined.

Lemma load_returns_contents_witness :
  AtomicOword.load (AtomicOword.AtomicOword_ AtomicOword.oword_ones)
  = (AtomicOword.myValue (AtomicOword.AtomicOword_ AtomicOword.oword_ones),
     AtomicOword.AtomicOword_ AtomicOword.oword_ones).
Proof.
  apply (load_returns_contents (AtomicOword.AtomicOword_ AtomicOword.oword_ones)).
  reflexivity.
Defined.

Lemma store_exchange_compare_exchange_witness :
  AtomicOword.exchange 1 AtomicOword.oword_ones AtomicOword.new_atomic_oword
  = Done (AtomicOword.myValue AtomicOword.new_atomic_oword,
          AtomicOword.AtomicOword_ AtomicOword.oword_ones) /\
  AtomicOword.store 1 AtomicOword.oword_ones AtomicOword.new_atomic_oword
  = Done (AtomicOword.AtomicOword_ AtomicOword.oword_ones) /\
  AtomicOword.load (AtomicOword.AtomicOword_ AtomicOword.oword_ones)
  = (AtomicOword.oword_ones, AtomicOword.AtomicOword_ AtomicOword.oword_ones) /\
  (AtomicOword.oword_zero = AtomicOword.myValue AtomicOword.new_atomic_oword ->
   AtomicOword.compare_exchange_strong AtomicOword.oword_zero AtomicOword.oword_ones
     AtomicOword.new_atomic_oword
   = (true, AtomicOword.oword_zero, AtomicOword.AtomicOword_ AtomicOword.oword_ones)) /\
  (AtomicOword.oword_zero <> AtomicOword.myValue AtomicOword.new_atomic_oword ->
   AtomicOword.compare_exchange_strong AtomicOword.oword_zero AtomicOword.oword_ones
     AtomicOword.new_atomic_oword
   = (false, AtomicOword.myValue AtomicOword.new_atomic_oword,
      AtomicOword.new_atomic_oword)).
Proof.
  apply (store_exchange_compare_exchange 0 AtomicOword.oword_zero AtomicOword.oword_ones
           AtomicOword.new_atomic_oword).
  - reflexivity.
  - reflexivity.
  - reflexivity.
Defined.

Lemma conservation_without_mismatch_witness :
  exists rs s,
    run 0%nat 0 3 [Insert (7, 1%nat); Insert (2, 2%nat); TryPop (0, 0%nat)]
        (new_list 0%nat 0) = Done (rs, s) /\
    successful_inserts [Insert (7, 1%nat); Insert (2, 2%nat); TryPop (0, 0%nat)]
    - successful_pops rs = Z.of_nat (length (chain s)) /\
    mySize s = Z.of_nat (length (chain s)).
Proof.
  eexists. eexists.
  split; [vm_compute; reflexivity|].
  apply (conservation_without_mismatch 0%nat 0 3
           [Insert (7, 1%nat); Insert (2, 2%nat); TryPop (0, 0%nat)]
           [RetVoid; RetVoid; RetPop true (2, 2%nat)]).
  - reflexivity.
  - simpl. lia.
  - vm_compute. reflexivity.
Defined.

Lemma compare_try_pop_mismatch_size_witness :
  mySize (one_node_list 0%nat 0 0 (4, 7%nat))
  = mySize (one_node_list 0%nat 0 1 (4, 7%nat)) - 1.
Proof.
  apply (compare_try_pop_mismatch_size 0%nat 0
           (one_node_list 0%nat 0 1 (4, 7%nat))
           (one_node_list 0%nat 0 0 (4, 7%nat)) 1 (3, 5%nat) (4, 5%nat)).
  - apply one_node_list_reachable.
  - reflexivity.
  - vm_compute. reflexivity.
Defined.

Lemma inserts_then_pops_sort_stably_witness :
  exists sorted s,
    run 0%nat 0 4
        (map Insert [(7, 1%nat); (2, 2%nat); (2, 3%nat)]
         ++ map TryPop (repeat (0, 0%nat) (length [(7, 1%nat); (2, 2%nat); (2, 3%nat)])))
        (new_list 0%nat 0)
    = Done (map (fun _ => RetVoid) [(7, 1%nat); (2, 2%nat); (2, 3%nat)]
            ++ map (RetPop true) sorted, s) /\
    sorted = fold_left (fun acc kv => place kv acc)
               [(7, 1%nat); (2, 2%nat); (2, 3%nat)] [] /\
    sorted ≡ₚ [(7, 1%nat); (2, 2%nat); (2, 3%nat)] /\
    StronglySorted (fun a b => fst a <= fst b) sorted /\
    chain s = [] /\ mySize s = 0.
Proof.
  apply (inserts_then_pops_sort_stably 0%nat 0 4
           [(7, 1%nat); (2, 2%nat); (2, 3%nat)] (0, 0%nat)).
  - vm_compute. reflexivity.
  - simpl. lia.
Defined.

Lemma exchange_word_stays_in_lane_witness :
  exists a',
    AtomicOword.exchange_dword 1 4660 3 (AtomicOword.AtomicOword_ AtomicOword.oword_ones)
    = Done (AtomicOword.myValue (AtomicOword.AtomicOword_ AtomicOword.oword_ones), a') /\
    length (AtomicOword.myValue a') = 16%nat /\
    AtomicOword.get_word 4 (AtomicOword.myValue a')
      (Z.to_nat (AtomicOword.scaled_index 4 3))
    = 4660 mod 2 ^ (Z.of_nat 4 * 8) /\
    (forall i : nat,
        (i < Z.to_nat (AtomicOword.scaled_index 4 3) \/
         Z.to_nat (AtomicOword.scaled_index 4 3) + 4 <= i)%nat ->
        AtomicOword.myValue a' !! i
        = AtomicOword.myValue (AtomicOword.AtomicOword_ AtomicOword.oword_ones) !! i) /\
    AtomicOword.exchange_dword 1
      (AtomicOword.get_word 4
         (AtomicOword.myValue (AtomicOword.AtomicOword_ AtomicOword.oword_ones))
         (Z.to_nat (AtomicOword.scaled_index 4 3))) 3 a'
    = Done (AtomicOword.myValue a', AtomicOword.AtomicOword_ AtomicOword.oword_ones).
Proof.
  apply (exchange_word_stays_in_lane 0 4 4660 3
           (AtomicOword.AtomicOword_ AtomicOword.oword_ones)).
  - right. right. left. reflexivity.
  - reflexivity.
  - vm_compute. reflexivity.
Defined.
